(** * Query parsing and movie matching of [src/lib/data-utils.ts]

    A shallow embedding of [parseUserQuery], [filterMovies] and
    [searchMovies], with the JavaScript primitives they call
    ([String.prototype.toLowerCase], [includes], [split], [trim],
    [String.prototype.match] on the eight literal patterns,
    [Array.prototype.find], [filter], [sort], [Object.entries]).

    Strings are sequences of code units below 256 (ISO-8859-1), the range
    on which JavaScript's case mapping works one character at a time.
    A [FilterSet] is a JavaScript object used as a map from property name
    to string: a [gmap string string]. *)

From Stdlib Require Import Ascii String ZArith DecimalString Sorting.Sorted.
From stdpp Require Import gmap strings list fin_maps sorting.

Local Open Scope Z_scope.

(** ** JavaScript string primitives *)

Module Js.

(** One code unit of [String.prototype.toLowerCase]: A-Z, and the
    Latin-1 capitals 0xC0-0xDE except the multiplication sign 0xD7. *)
Definition lower_char (c : ascii) : ascii :=
  let n := N_of_ascii c in
  if ((65 <=? n) && (n <=? 90) ||
      (192 <=? n) && (n <=? 222) && negb (n =? 215))%N
  then ascii_of_N (n + 32) else c.

Fixpoint toLowerCase (s : string) : string :=
  match s with
  | EmptyString => EmptyString
  | String c s' => String (lower_char c) (toLowerCase s')
  end.

(** [s.includes(v)]: [v] occurs in [s] as a contiguous run. *)
Fixpoint includes (s v : string) : bool :=
  String.prefix v s ||
  match s with
  | EmptyString => false
  | String _ s' => includes s' v
  end.

(** [s.split("|")]; the empty string splits into one empty element. *)
Fixpoint split_pipe (s : string) : list string :=
  match s with
  | EmptyString => [EmptyString]
  | String c s' =>
      if Ascii.eqb c "|" then EmptyString :: split_pipe s'
      else match split_pipe s' with
           | h :: t => String c h :: t
           | [] => [String c EmptyString]
           end
  end.

(** White space and line terminators of ECMAScript below 256: what
    [trim] strips and what the pattern escape [\s] accepts. *)
Definition is_space (c : ascii) : bool :=
  let n := N_of_ascii c in
  ((9 <=? n) && (n <=? 13) || (n =? 32) || (n =? 160))%N.

Fixpoint trimStart (s : string) : string :=
  match s with
  | EmptyString => EmptyString
  | String c s' => if is_space c then trimStart s' else s
  end.

Fixpoint trimEnd (s : string) : string :=
  match s with
  | EmptyString => EmptyString
  | String c s' =>
      match trimEnd s' with
      | EmptyString => if is_space c then EmptyString else String c EmptyString
      | t => String c t
      end
  end.

Definition trim (s : string) : string := trimEnd (trimStart s).

(** Truthiness of a string: only the empty string is falsy. *)
Definition truthy (s : string) : bool :=
  match s with EmptyString => false | _ => true end.

(** The lower case of an ASCII letter; any other code unit is left as
    it is. *)
Definition lower_ascii (c : ascii) : ascii :=
  let n := N_of_ascii c in
  if ((65 <=? n) && (n <=? 90))%N then ascii_of_N (n + 32) else c.

(** The string with its ASCII letters in lower case. *)
Fixpoint lowerAscii (s : string) : string :=
  match s with
  | EmptyString => EmptyString
  | String c s' => String (lower_ascii c) (lowerAscii s')
  end.

(** A string by its UTF-16 code units, for text that comes from outside
    and may hold a code unit above 255. [latin1] reads it as a string of
    this development, when it is one, and [units] goes back. *)
Fixpoint latin1 (w : list N) : option string :=
  match w with
  | [] => Some EmptyString
  | n :: w' =>
      if (n <? 256)%N then String (ascii_of_N n) <$> latin1 w' else None
  end.

Fixpoint units (s : string) : list N :=
  match s with
  | EmptyString => []
  | String c s' => N_of_ascii c :: units s'
  end.

(** [Array.prototype.sort(cmp)]: stable since ES2019, and with a
    consistent comparator the outcome is the one stable arrangement, which
    insertion from the right computes. [x] goes before the first [y] with
    [cmp x y <= 0]. *)
Section Sort.
Context {A : Type} (cmp : A -> A -> Z).

Fixpoint insert_by (x : A) (l : list A) : list A :=
  match l with
  | [] => [x]
  | y :: l' => if cmp x y <=? 0 then x :: y :: l' else y :: insert_by x l'
  end.

Definition sort (l : list A) : list A := foldr insert_by [] l.

(** The comparator does not put [a] after [b]. *)
Definition precedes (a b : A) : Prop := cmp a b <= 0.

(** A consistent comparator on the elements of [l], as ECMAScript
    defines it: comparing equal is an equivalence, and comparing below and
    comparing above are transitive. *)
Definition consistent (l : list A) : Prop :=
  forall a b c, a ∈ l -> b ∈ l -> c ∈ l ->
    cmp a a = 0 /\
    (cmp a b = 0 -> cmp b a = 0) /\
    (cmp a b = 0 -> cmp b c = 0 -> cmp a c = 0) /\
    (cmp a b < 0 -> cmp b c < 0 -> cmp a c < 0) /\
    (cmp a b > 0 -> cmp b c > 0 -> cmp a c > 0).

(** What [l.sort(cmp)] may leave in the array when the comparator is
    consistent, in the words of ECMAScript: the elements are permuted,
    the one at index [j] moving to the index [p] with [idx !! p = Some j];
    an element that compares below another ends before it, and of two
    that compare equal the earlier stays the earlier (the sort is stable,
    since ES2019). The algorithm is the engine's. *)
Definition sorts (l l' : list A) : Prop :=
  exists idx : list nat,
    idx ≡ₚ seq 0 (length l) /\
    Forall2 (fun x j => l !! j = Some x) l' idx /\
    forall p q j k a b,
      idx !! p = Some j -> idx !! q = Some k ->
      l !! j = Some a -> l !! k = Some b ->
      (cmp a b < 0 -> (p < q)%nat) /\
      (cmp a b = 0 -> (j < k)%nat -> (p < q)%nat).

(** The comparator on the indices of [l]. *)
Definition cmp_at (l : list A) (j k : nat) : Z :=
  match l !! j, l !! k with
  | Some a, Some b => cmp a b
  | _, _ => 0
  end.
End Sort.

(** The order in which a stable sort leaves two indices: the one that
    compares below first, and of two that compare equal the smaller. *)
Definition stably (c : nat -> nat -> Z) (j k : nat) : Prop :=
  c j k < 0 \/ (c j k = 0 /\ (j < k)%nat).

End Js.

(** ** The regular expressions of [parseUserQuery]

    A backtracking matcher in continuation-passing style, with the
    priorities of ECMAScript: alternatives left to right, quantifiers
    greedy.  Only single-character sets are starred in the eight
    patterns, and there is one capturing group. *)

Module Regex.

Inductive regex : Type :=
| Eps
| Chr (p : ascii -> bool)
| Star (p : ascii -> bool)
| Seq (r1 r2 : regex)
| Alt (r1 r2 : regex)
| Group (r : regex).

(** The first [n] characters of [s]. *)
Fixpoint take (n : nat) (s : string) : string :=
  match n, s with
  | S n', String c s' => String c (take n' s')
  | _, _ => EmptyString
  end.

Section Matcher.
Context {R : Type}.

(** The matcher state is the rest of the input and the text of group 1,
    if the group took part in the match so far. *)
Definition cont : Type := string -> option string -> option R.

Fixpoint star (p : ascii -> bool) (k : cont) (s : string)
    (cap : option string) : option R :=
  match s with
  | String c s' =>
      if p c then
        match star p k s' cap with
        | Some r => Some r
        | None => k s cap
        end
      else k s cap
  | EmptyString => k s cap
  end.

Fixpoint run (r : regex) (k : cont) (s : string) (cap : option string)
    : option R :=
  match r with
  | Eps => k s cap
  | Chr p =>
      match s with
      | String c s' => if p c then k s' cap else None
      | EmptyString => None
      end
  | Star p => star p k s cap
  | Seq r1 r2 => run r1 (run r2 k) s cap
  | Alt r1 r2 =>
      match run r1 k s cap with
      | Some x => Some x
      | None => run r2 k s cap
      end
  | Group r0 =>
      run r0 (fun s' _ =>
                k s' (Some (take (String.length s - String.length s') s)))
          s cap
  end.
End Matcher.

(** [s.match(r)] without the [g] flag: the leftmost start at which the
    pattern matches; the result is the text of group 1 ([None] when the
    group did not take part). *)
Fixpoint exec (r : regex) (s : string) : option (option string) :=
  match run r (fun _ cap => Some cap) s None with
  | Some cap => Some cap
  | None =>
      match s with
      | EmptyString => None
      | String _ s' => exec r s'
      end
  end.

(** One way through a pattern, without the priorities: from the input
    [s] with group text [c] to the rest [s'] with group text [c']. *)
Inductive steps :
    regex -> string -> option string -> string -> option string -> Prop :=
| steps_eps s c : steps Eps s c s c
| steps_chr p a s c : p a = true -> steps (Chr p) (String a s) c s c
| steps_star_stop p s c : steps (Star p) s c s c
| steps_star_more p a s c s' c' :
    p a = true -> steps (Star p) s c s' c' ->
    steps (Star p) (String a s) c s' c'
| steps_seq r1 r2 s c s1 c1 s2 c2 :
    steps r1 s c s1 c1 -> steps r2 s1 c1 s2 c2 ->
    steps (Seq r1 r2) s c s2 c2
| steps_alt_l r1 r2 s c s' c' :
    steps r1 s c s' c' -> steps (Alt r1 r2) s c s' c'
| steps_alt_r r1 r2 s c s' c' :
    steps r2 s c s' c' -> steps (Alt r1 r2) s c s' c'
| steps_group r s c s' c' :
    steps r s c s' c' ->
    steps (Group r) s c s'
          (Some (take (String.length s - String.length s') s)).

(** Pattern syntax.  Under the [i] flag a letter of the pattern accepts
    both of its cases. *)
Definition chr_i (c : ascii) : regex :=
  Chr (fun x => Ascii.eqb (Js.lower_char x) (Js.lower_char c)).

Fixpoint lit (w : string) : regex :=
  match w with
  | EmptyString => Eps
  | String c EmptyString => chr_i c
  | String c w' => Seq (chr_i c) (lit w')
  end.

Fixpoint alts (ws : list string) : regex :=
  match ws with
  | [] => Chr (fun _ => false)
  | [w] => lit w
  | w :: ws' => Alt (lit w) (alts ws')
  end.

Definition opt (r : regex) : regex := Alt r Eps.
Definition plus (p : ascii -> bool) : regex := Seq (Chr p) (Star p).

Definition is_alpha (c : ascii) : bool :=
  let n := N_of_ascii c in
  ((65 <=? n) && (n <=? 90) || (97 <=? n) && (n <=? 122))%N.
Definition is_digit (c : ascii) : bool :=
  let n := N_of_ascii c in ((48 <=? n) && (n <=? 57))%N.
Definition is_quote (c : ascii) : bool :=
  Ascii.eqb c "034" || Ascii.eqb c "'".

(** [[a-zA-Z\s]] and [[a-zA-Z0-9\s]] *)
Definition alpha_space (c : ascii) : bool := is_alpha c || Js.is_space c.
Definition alnum_space (c : ascii) : bool :=
  is_alpha c || is_digit c || Js.is_space c.

(** [trigger \s* (?:connectors)? \s* ["']? (set+) ["']?] *)
Definition field_pattern (triggers : regex) (connectors : list string)
    (set : ascii -> bool) : regex :=
  Seq triggers
   (Seq (Star Js.is_space)
    (Seq (opt (alts connectors))
     (Seq (Star Js.is_space)
      (Seq (opt (Chr is_quote))
       (Seq (Group (plus set))
            (opt (Chr is_quote))))))).

End Regex.

(** ** [parseUserQuery] *)

Import Regex.

Definition connectors : list string := ["is"; "="; ":"].

Definition genre_re : regex :=
  field_pattern (Seq (lit "genre") (opt (lit "s")))
                ["is"; "are"; "="; ":"] alpha_space.
Definition title_re : regex :=
  field_pattern (alts ["movie"; "film"; "title"])
                ["name"; "called"; "titled"; "is"; "="; ":"] alnum_space.
Definition director_re : regex :=
  field_pattern (lit "director") connectors alpha_space.
Definition actor_re : regex :=
  field_pattern (alts ["actor"; "star"; "cast"]) connectors alpha_space.
Definition year_re : regex :=
  Seq (alts ["year"; "released"; "from"])
   (Seq (Star Js.is_space)
    (Seq (opt (alts ["in"; "="; ":"]))
     (Seq (Star Js.is_space)
          (Group (Seq (Chr is_digit) (Seq (Chr is_digit)
                   (Seq (Chr is_digit) (Chr is_digit)))))))).
Definition country_re : regex :=
  field_pattern (alts ["country"; "from"]) connectors alpha_space.
Definition language_re : regex :=
  field_pattern (alts ["language"; "in"]) connectors alpha_space.
Definition keyword_re : regex :=
  field_pattern (alts ["keyword"; "about"; "plot"; "theme"])
                connectors alpha_space.

(** [const m = query.match(re); if (m && m[1]) ...]: the text of
    group 1 when the pattern matches and the text is truthy. *)
Definition extracted (re : regex) (query : string) : option string :=
  match exec re query with
  | Some (Some c) => if Js.truthy c then Some c else None
  | _ => None
  end.

(** [if (m && m[1]) { filters.key = m[1].trim() }] *)
Definition extract (key : string) (re : regex) (query : string)
    (filters : gmap string string) : gmap string string :=
  match extracted re query with
  | Some c => <[key := Js.trim c]> filters
  | None => filters
  end.

Definition commonGenres : list string :=
  ["action"; "comedy"; "drama"; "horror"; "sci-fi"; "thriller";
   "romance"; "adventure"; "fantasy"].

Definition fallback (query : string) (filters : gmap string string)
    : gmap string string :=
  if (size filters =? 0)%nat && Js.truthy (Js.trim query) then
    let searchTerm := Js.trim query in
    if existsb (fun genre => Js.includes (Js.toLowerCase searchTerm) genre)
               commonGenres
    then <["genre" := searchTerm]> filters
    else <["movie_name" := searchTerm]> filters
  else filters.

Definition parseUserQuery (query : string) : gmap string string :=
  let filters := ∅ in
  let filters := extract "genre" genre_re query filters in
  let filters := extract "movie_name" title_re query filters in
  let filters := extract "director_name" director_re query filters in
  let filters := extract "actors" actor_re query filters in
  let filters := extract "release_year" year_re query filters in
  let filters := extract "country" country_re query filters in
  let filters := extract "language" language_re query filters in
  let filters := extract "plot_keyword" keyword_re query filters in
  fallback query filters.

(** The eight keys the extractors write; the year is the only numeric
    one, and its text is four characters long. *)
Definition parsedEntry (key value : string) : Prop :=
  key ∈ ["genre"; "movie_name"; "director_name"; "actors"; "country";
         "language"; "plot_keyword"]
  \/ (key = "release_year" /\ String.length value = 4%nat).

Definition parsed (filters : gmap string string) : Prop :=
  forall key value, filters !! key = Some value -> parsedEntry key value.

(** ** Movie records, [filterMovies] and [searchMovies] *)

(** The numeric fields are JavaScript numbers. The matcher only takes
    [String(n)] and the truth value of a number; the falsy numbers are
    [0], [-0] and [NaN], which print as "0" and "NaN". *)
Class JsNumber (number : Type) : Type := {
  number_toString : number -> string;
  number_truthy : number -> bool;
  number_falsy_prints : forall n,
    number_truthy n = false ->
    number_toString n = "0" \/ number_toString n = "NaN"
}.

(** The integers among them, for the examples: JavaScript prints an
    integer in decimal up to 21 digits, and holds it exactly up to
    2^53. *)
#[export, refine] Instance Z_JsNumber : JsNumber Z := {|
  number_toString z := NilZero.string_of_int (Z.to_int z);
  number_truthy z := negb (z =? 0)
|}.
Proof.
  intros n Hn. apply negb_false_iff, Z.eqb_eq in Hn. subst n. by left.
Defined.

Section MovieMatcher.
Context `{JsNumber number}.

(** [interface Movie] of [src/lib/db-service.ts]. *)
Record Movie : Type := {
  movie_id : string;
  movie_name : string;
  movie_duration : number;
  plot_keyword : string;
  language : string;
  country : string;
  budget : number;
  release_year : number;
  imdb_score : number;
  movie_certification : string;
  genre : string;
  producer_name : string;
  award_name : string;
  director_name : string;
  actors : string;
  reviewer_name : string;
  songs : string;
  poster_url : option string
}.

(** What [movie[key]] can be: a string, a number, [undefined], and for
    a name the record inherits from [Object.prototype] a built-in function
    or, for [__proto__], the prototype object. *)
Inductive value : Type :=
| VString (s : string)
| VNumber (n : number)
| VUndefined
| VFunction (name : string)
| VPrototype.

(** The methods of [Object.prototype] besides [constructor]. *)
Definition Object_prototype_methods : list string :=
  ["hasOwnProperty"; "isPrototypeOf"; "propertyIsEnumerable";
   "toLocaleString"; "toString"; "valueOf"; "__defineGetter__";
   "__defineSetter__"; "__lookupGetter__"; "__lookupSetter__"].

(** [movie[key as keyof MovieData]] on a record that is a plain object
    (a literal, or what [JSON.parse] or the object store returns): its own
    properties first, then those of [Object.prototype]; any other name
    reads as [undefined]. *)
Definition get (movie : Movie) (key : string) : value :=
  if String.eqb key "movie_id" then VString (movie_id movie)
  else if String.eqb key "movie_name" then VString (movie_name movie)
  else if String.eqb key "movie_duration" then VNumber (movie_duration movie)
  else if String.eqb key "plot_keyword" then VString (plot_keyword movie)
  else if String.eqb key "language" then VString (language movie)
  else if String.eqb key "country" then VString (country movie)
  else if String.eqb key "budget" then VNumber (budget movie)
  else if String.eqb key "release_year" then VNumber (release_year movie)
  else if String.eqb key "imdb_score" then VNumber (imdb_score movie)
  else if String.eqb key "movie_certification"
       then VString (movie_certification movie)
  else if String.eqb key "genre" then VString (genre movie)
  else if String.eqb key "producer_name" then VString (producer_name movie)
  else if String.eqb key "award_name" then VString (award_name movie)
  else if String.eqb key "director_name" then VString (director_name movie)
  else if String.eqb key "actors" then VString (actors movie)
  else if String.eqb key "reviewer_name" then VString (reviewer_name movie)
  else if String.eqb key "songs" then VString (songs movie)
  else if String.eqb key "poster_url" then
    match poster_url movie with Some s => VString s | None => VUndefined end
  else if String.eqb key "constructor" then VFunction "Object"
  else if String.eqb key "__proto__" then VPrototype
  else if existsb (String.eqb key) Object_prototype_methods
       then VFunction key
  else VUndefined.

(** [String(movieValue)]. The text of a built-in function is the
    engine's; this is the one of V8, the engine of Node.js and Chrome. *)
Definition String_ (v : value) : string :=
  match v with
  | VString s => s
  | VNumber n => number_toString n
  | VUndefined => "undefined"
  | VFunction name => "function " +:+ name +:+ "() { [native code] }"
  | VPrototype => "[object Object]"
  end.

(** [!movieValue] is [negb (value_truthy movieValue)]. *)
Definition value_truthy (v : value) : bool :=
  match v with
  | VString s => Js.truthy s
  | VNumber n => number_truthy n
  | VUndefined => false
  | VFunction _ | VPrototype => true
  end.

Definition is_undefined (v : value) : bool :=
  match v with VUndefined => true | _ => false end.

(** [key === "genre" || key === "plot_keyword"] *)
Definition pipeSeparated (key : string) : bool :=
  String.eqb key "genre" || String.eqb key "plot_keyword".

(** The tail shared by both callbacks: the pipe-separated fields, then
    the plain substring test. *)
Definition containsValue (key : string) (movieValue : value)
    (value : string) : bool :=
  if pipeSeparated key then
    let values := Js.split_pipe (Js.toLowerCase (String_ movieValue)) in
    existsb (fun v => Js.includes v (Js.toLowerCase value)) values
  else
    Js.includes (Js.toLowerCase (String_ movieValue)) (Js.toLowerCase value).

(** The callback of [every] in [filterMovies] (lines 77-90). *)
Definition matchesEntry (movie : Movie) (entry : string * string) : bool :=
  let '(key, value) := entry in
  if negb (Js.truthy value) then true
  else
    let movieValue := get movie key in
    if is_undefined movieValue then false
    else containsValue key movieValue value.

(** [Object.entries(filters).every(f)]: [every] with a callback free of
    effects does not depend on the order of the entries. *)
Definition every (f : string * string -> bool)
    (filters : gmap string string) : bool :=
  forallb f (map_to_list filters).

Definition filterMovies (movies : list Movie)
    (filters : gmap string string) : list Movie :=
  List.filter (fun movie => every (matchesEntry movie) filters) movies.

(** The callback of [every] in the actor branch (lines 33-45): it tests
    [!movieValue] where [filterMovies] tests [=== undefined]. *)
Definition matchesOtherEntry (movie : Movie) (entry : string * string)
    : bool :=
  let '(key, value) := entry in
  if negb (Js.truthy value) then true
  else
    let movieValue := get movie key in
    if negb (value_truthy movieValue) then false
    else containsValue key movieValue value.

(** [filters.key] in a condition: [undefined] and the empty string are
    falsy. *)
Definition prop_truthy (filters : gmap string string) (key : string)
    : bool :=
  match filters !! key with
  | Some v => Js.truthy v
  | None => false
  end.

(** [filters.key] where the condition has shown it to be a string. *)
Definition prop (filters : gmap string string) (key : string) : string :=
  default "" (filters !! key).

(** The callbacks of [searchMovies], in the order of the source. *)
Definition isExactTitle (query : string) (movie : Movie) : bool :=
  String.eqb (Js.toLowerCase (movie_name movie)) (Js.toLowerCase query).

Definition matchesActorSearch (filters : gmap string string)
    (actorName : string) (movie : Movie) : bool :=
  let matchesOtherFilters := every (matchesOtherEntry movie) filters in
  if negb matchesOtherFilters then false
  else Js.includes (Js.toLowerCase (actors movie))
                   (Js.toLowerCase actorName).

Definition titleIncludes (name : string) (movie : Movie) : bool :=
  Js.includes (Js.toLowerCase (movie_name movie)) (Js.toLowerCase name).

Definition byRelevance (name : string) (a b : Movie) : Z :=
  let aExact := isExactTitle name a in
  let bExact := isExactTitle name b in
  if aExact && negb bExact then -1
  else if negb aExact && bExact then 1
  else Z.of_nat (String.length (movie_name a))
       - Z.of_nat (String.length (movie_name b)).

Definition searchMovies (movies : list Movie) (query : string)
    : list Movie :=
  match List.find (isExactTitle query) movies with
  | Some exactMatch => [exactMatch]
  | None =>
      let filters := parseUserQuery query in
      if prop_truthy filters "actors" then
        let actorName := prop filters "actors" in
        let filters := delete "actors" filters in
        List.filter (matchesActorSearch filters actorName) movies
      else if prop_truthy filters "movie_name" && (size filters =? 1)%nat
      then
        Js.sort (byRelevance (prop filters "movie_name"))
          (List.filter (titleIncludes (prop filters "movie_name")) movies)
      else filterMovies movies filters
  end.

(** *** The same with the arrays in a store

    [filter] and the array literal allocate; [sort] works in place on
    its receiver and returns it; [find] only reads. A store is the list
    of the arrays allocated so far and a reference is an index in it. *)
Definition store : Type := list (list Movie).
Definition ref : Type := nat.
Definition St (A : Type) : Type := store -> option (A * store).

Definition ret {A} (a : A) : St A := fun h => Some (a, h).
Definition bind {A B} (m : St A) (f : A -> St B) : St B :=
  fun h => match m h with Some (a, h') => f a h' | None => None end.

Definition array_read (r : ref) : St (list Movie) :=
  fun h => match h !! r with Some l => Some (l, h) | None => None end.
Definition array_new (l : list Movie) : St ref :=
  fun h => Some (length h, h ++ [l]).
Definition array_write (r : ref) (l : list Movie) : St unit :=
  fun h => if decide (r < length h)%nat then Some (tt, <[r := l]> h)
           else None.

Definition array_find (f : Movie -> bool) (r : ref) : St (option Movie) :=
  bind (array_read r) (fun l => ret (List.find f l)).
Definition array_filter (f : Movie -> bool) (r : ref) : St ref :=
  bind (array_read r) (fun l => array_new (List.filter f l)).
Definition array_sort (cmp : Movie -> Movie -> Z) (r : ref) : St ref :=
  bind (array_read r) (fun l =>
  bind (array_write r (Js.sort cmp l)) (fun _ => ret r)).

Definition filterMovies_st (movies : ref) (filters : gmap string string)
    : St ref :=
  array_filter (fun movie => every (matchesEntry movie) filters) movies.

Definition searchMovies_st (movies : ref) (query : string) : St ref :=
  bind (array_find (isExactTitle query) movies) (fun exactMatch =>
  match exactMatch with
  | Some exactMatch => array_new [exactMatch]
  | None =>
      let filters := parseUserQuery query in
      if prop_truthy filters "actors" then
        let actorName := prop filters "actors" in
        let filters := delete "actors" filters in
        array_filter (matchesActorSearch filters actorName) movies
      else if prop_truthy filters "movie_name" && (size filters =? 1)%nat
      then
        bind (array_filter (titleIncludes (prop filters "movie_name"))
                           movies)
             (array_sort (byRelevance (prop filters "movie_name")))
      else filterMovies_st movies filters
  end).

(** *** What the language and the map leave open

    [Object.entries] lists the entries in the order in which the
    properties were added, which the map does not record, and [sort] runs
    the algorithm of the engine. [enumerates] and [Js.sorts] say what the
    two may give; a run of [searchMovies] may return [out] when every
    step of the body gives what it may. *)
Definition enumerates (filters : gmap string string)
    (entries : list (string * string)) : Prop :=
  entries ≡ₚ map_to_list filters.

Definition filterMovies_may_return (movies : list Movie)
    (filters : gmap string string) (out : list Movie) : Prop :=
  exists entries, enumerates filters entries /\
    out = List.filter (fun movie => forallb (matchesEntry movie) entries)
                      movies.

Definition searchMovies_may_return (movies : list Movie) (query : string)
    (out : list Movie) : Prop :=
  match List.find (isExactTitle query) movies with
  | Some exactMatch => out = [exactMatch]
  | None =>
      let filters := parseUserQuery query in
      if prop_truthy filters "actors" then
        let actorName := prop filters "actors" in
        let filters := delete "actors" filters in
        exists entries, enumerates filters entries /\
          out = List.filter
                  (fun movie =>
                     let matchesOtherFilters :=
                       forallb (matchesOtherEntry movie) entries in
                     if negb matchesOtherFilters then false
                     else Js.includes (Js.toLowerCase (actors movie))
                                      (Js.toLowerCase actorName))
                  movies
      else if prop_truthy filters "movie_name" && (size filters =? 1)%nat
      then
        Js.sorts (byRelevance (prop filters "movie_name"))
          (List.filter (titleIncludes (prop filters "movie_name")) movies)
          out
      else filterMovies_may_return movies filters out
  end.

(** *** The Field Matching Rule, in the words of the specification *)

(** [v] occurs in [s]. *)
Definition contains (s v : string) : Prop :=
  exists pre post : string, s = pre +:+ v +:+ post.

(** Case-insensitive containment and equality. *)
Definition contains_ci (s v : string) : Prop :=
  contains (Js.toLowerCase s) (Js.toLowerCase v).
Definition equals_ci (s v : string) : Prop :=
  Js.toLowerCase s = Js.toLowerCase v.

(** An empty [v] always matches. Otherwise the field must be defined
    and, for [genre] and [plot_keyword], some pipe-delimited element of
    the lowercased value contains the lowercased [v]; for another field
    the stringified value contains [v] case-insensitively. *)
Definition fieldMatches (movie : Movie) (f v : string) : Prop :=
  v = "" \/
  (get movie f <> VUndefined /\
   if decide (f = "genre" \/ f = "plot_keyword") then
     exists e, e ∈ Js.split_pipe (Js.toLowerCase (String_ (get movie f)))
               /\ contains e (Js.toLowerCase v)
   else contains_ci (String_ (get movie f)) v).

(** Every entry of the filter set matches. *)
Definition satisfies (filters : gmap string string) (movie : Movie)
    : Prop :=
  forall f v, filters !! f = Some v -> fieldMatches movie f v.

(** [l'] holds exactly the elements of [l] with property [P], in the
    order of [l]. *)
Inductive selects {A : Type} (P : A -> Prop) : list A -> list A -> Prop :=
| selects_nil : selects P [] []
| selects_keep x l l' :
    P x -> selects P l l' -> selects P (x :: l) (x :: l')
| selects_drop x l l' :
    ~ P x -> selects P l l' -> selects P (x :: l) l'.

(** [m] is the first element of [l] with property [P]. *)
Definition first_with {A : Type} (P : A -> Prop) (l : list A) (m : A)
    : Prop :=
  exists pre post, l = pre ++ m :: post /\ P m /\ Forall (fun x => ~ P x) pre.

(** The order of the title search: a title equal to the filter text
    is never after one that only contains it, and within one class
    titles get no shorter. *)
Definition ranksBefore (name : string) (a b : Movie) : Prop :=
  (equals_ci (movie_name b) name -> equals_ci (movie_name a) name) /\
  ((equals_ci (movie_name a) name <-> equals_ci (movie_name b) name) ->
   (String.length (movie_name a) <= String.length (movie_name b))%nat).

End MovieMatcher.

Arguments Movie number : clear implicits.
Arguments store number : clear implicits.

(** A record with integer fields, for examples. *)
Definition movie (name genre actors : string) (year : Z) : Movie Z :=
  {| movie_id := name; movie_name := name; movie_duration := 120;
     plot_keyword := ""; language := "English"; country := "USA";
     budget := 0; release_year := year; imdb_score := 8;
     movie_certification := "PG-13"; genre := genre; producer_name := "";
     award_name := ""; director_name := ""; actors := actors;
     reviewer_name := ""; songs := ""; poster_url := None |}.

Definition matrix : Movie Z :=
  movie "Matrix" "Action|Sci-Fi" "Keanu Reeves|Carrie-Anne Moss" 1999.
Definition matrix_reloaded : Movie Z :=
  movie "The Matrix Reloaded" "Action|Sci-Fi" "Keanu Reeves" 2003.
Definition heat : Movie Z :=
  movie "Heat" "Action|Crime|Drama" "Al Pacino|Robert De Niro" 1995.
Definition inception : Movie Z :=
  movie "Inception" "Action|Sci-Fi|Thriller" "Leonardo DiCaprio" 2010.
Definition big : Movie Z :=
  movie "Big" "Comedy|Drama" "Tom Hanks" 1988.
Definition up : Movie Z :=
  movie "Up" "Animation|Adventure" "Ed Asner" 2009.

(** ** Tools for reading the patterns *)

(** Every character of [s] passes [p]. *)
Fixpoint all_chars (p : ascii -> bool) (s : string) : bool :=
  match s with
  | EmptyString => true
  | String a s' => p a && all_chars p s'
  end.

Definition not_alpha (c : ascii) : bool := negb (is_alpha c).

(** A test on all 256 characters. *)
Definition forall_bool (f : bool -> bool) : bool := f true && f false.
Definition forall_ascii (f : ascii -> bool) : bool :=
  forall_bool (fun b0 => forall_bool (fun b1 => forall_bool (fun b2 =>
  forall_bool (fun b3 => forall_bool (fun b4 => forall_bool (fun b5 =>
  forall_bool (fun b6 => forall_bool (fun b7 =>
    f (Ascii b0 b1 b2 b3 b4 b5 b6 b7))))))))).

(** Every match of [r] begins with a character that passes [ok]
    (a sufficient test: a sequence is judged by its first part). *)
Fixpoint first_in (ok : ascii -> bool) (r : regex) : bool :=
  match r with
  | Eps => false
  | Chr p => forall_ascii (fun c => implb (p c) (ok c))
  | Star _ => false
  | Seq r1 _ => first_in ok r1
  | Alt r1 r2 => first_in ok r1 && first_in ok r2
  | Group r0 => first_in ok r0
  end.

(** The character sets of [r] do not tell [f c] from [c]. *)
Fixpoint blind_to (f : ascii -> ascii) (r : regex) : bool :=
  match r with
  | Eps => true
  | Chr p | Star p => forall_ascii (fun c => Bool.eqb (p (f c)) (p c))
  | Seq r1 r2 | Alt r1 r2 => blind_to f r1 && blind_to f r2
  | Group r0 => blind_to f r0
  end.

(** The eight patterns with their keys, in the order of the source. *)
Definition extractors : list (string * regex) :=
  [("genre", genre_re); ("movie_name", title_re);
   ("director_name", director_re); ("actors", actor_re);
   ("release_year", year_re); ("country", country_re);
   ("language", language_re); ("plot_keyword", keyword_re)].

(** What every entry of a parsed filter set looks like: the value is
    trimmed; only [genre] and [movie_name], which the fallback also
    writes, hold free text; a year is four digits and the other values are
    made of letters and white space. *)
Definition parsedValue (key value : string) : Prop :=
  Js.trim value = value /\
  (key = "genre" \/
   (key = "movie_name") \/
   (key ∈ ["director_name"; "actors"; "country"; "language"; "plot_keyword"]
    /\ all_chars alpha_space value = true) \/
   (key = "release_year" /\ String.length value = 4%nat
    /\ all_chars is_digit value = true)).

Definition parsedValues (filters : gmap string string) : Prop :=
  forall key value, filters !! key = Some value -> parsedValue key value.

(** ** [fetchMovieData] and the search action

    [src/lib/data-utils.ts] lines 5-14 and [src/app/actions.ts] lines
    16-47. The awaited [dbClient.executeQuery("SELECT * FROM movies")]
    either yields the rows or is rejected; [rows] is that outcome. *)

Section SearchAction.
Context `{JsNumber number}.

(** [try { return await executeQuery(...) } catch { return [] }] *)
Definition fetchMovieData (rows : option (list (Movie number)))
    : list (Movie number) :=
  match rows with
  | Some movies => movies
  | None => []
  end.

(** [query.match(re)] in a condition. *)
Definition test (re : regex) (query : string) : bool :=
  match exec re query with
  | Some _ => true
  | None => false
  end.

(** [if (query.match(re)) filterTerms.key = "Extracted from your query"] *)
Definition mark (key : string) (re : regex) (query : string)
    (filterTerms : gmap string string) : gmap string string :=
  if test re query then <[key := "Extracted from your query"]> filterTerms
  else filterTerms.

(** The body of the [try] block; nothing in it throws, [fetchMovieData]
    having caught the rejection, so the [catch] block is never entered. *)
Definition searchMoviesAction (rows : option (list (Movie number)))
    (query : string) : list (Movie number) * gmap string string :=
  let movies := fetchMovieData rows in
  let results := searchMovies movies query in
  let filterTerms := ∅ in
  let filterTerms := mark "genre" (lit "genre") query filterTerms in
  let filterTerms := mark "director" (lit "director") query filterTerms in
  let filterTerms :=
    mark "actor" (alts ["actor"; "star"; "cast"]) query filterTerms in
  let filterTerms :=
    mark "year" (alts ["year"; "released"]) query filterTerms in
  let filterTerms := mark "country" (lit "country") query filterTerms in
  let filterTerms := mark "language" (lit "language") query filterTerms in
  let filterTerms :=
    mark "keywords" (alts ["keyword"; "about"; "plot"; "theme"])
         query filterTerms in
  (List.firstn 30 results, filterTerms).

End SearchAction.

(** ** The store kept in [localStorage]

    The second implementation of [dbClient] ([src/lib/db-service.ts],
    lines 1068-1279). Each of the three keys of [localStorage] holds the
    JSON text of an array, as [JSON.stringify] wrote it; the text is
    modelled by the array it encodes, with a number in it by its token,
    and a key that is missing (or holds the empty string) by [None].
    [window] tells whether the code runs in a browser, and [now] is the
    value of [new Date().toISOString()]. *)

(** Numbers in JSON. [JSON.stringify] writes a finite number as a
    token (negative zero as "0") and [NaN] and the infinities as [null];
    [JSON.parse] reads a token as the number it denotes, and that number
    is written as the same token again. *)
Class JsonNumber (number : Type) : Type := {
  json_number : Type;
  JSON_stringify : number -> option json_number;
  JSON_parse : json_number -> number;
  JSON_stringify_parse : forall j, JSON_stringify (JSON_parse j) = Some j
}.

(** The integers: each is its own token. *)
#[export] Instance Z_JsonNumber : JsonNumber Z := {|
  json_number := Z;
  JSON_stringify := Some;
  JSON_parse := id;
  JSON_stringify_parse := fun j => eq_refl
|}.

(** A rating as a caller may pass it: a number of stars, or one of the
    numbers that JSON has no token for. *)
Inductive stars : Type :=
| Stars (n : Z)
| NaN
| Infinity.

#[export] Instance stars_JsonNumber : JsonNumber stars := {|
  json_number := Z;
  JSON_stringify r := match r with Stars n => Some n | _ => None end;
  JSON_parse := Stars;
  JSON_stringify_parse := fun j => eq_refl
|}.

Module User.
Record t : Type := {
  id : string;
  email : string;
  username : string;
  password : option string;
  created_at : string;
  last_login : string
}.
End User.

Module Favorite.
Record t : Type := {
  user_id : string;
  movie_id : string;
  added_at : string
}.
End Favorite.

(** A review with its rating of type [R]: a number or [null] in the
    program, a token or [null] in the JSON text. *)
Module Review.
Record t {R : Type} : Type := {
  id : string;
  user_id : string;
  movie_id : string;
  rating : R;
  content : string;
  created_at : string;
  username : option string
}.
Arguments t R : clear implicits.

Definition map_rating {R R' : Type} (f : R -> R') (review : t R) : t R' :=
  {| id := id review; user_id := user_id review;
     movie_id := movie_id review; rating := f (rating review);
     content := content review; created_at := created_at review;
     username := username review |}.
End Review.

(** What a function that can throw gives back. *)
Inductive outcome (A : Type) : Type :=
| Returned (a : A)
| Thrown (message : string).
Arguments Returned {A} a.
Arguments Thrown {A} message.

Module LocalDb.
Section LocalDb.
Context `{JsonNumber number}.

Record storage : Type := {
  movie_insights_users : option (list User.t);
  movie_insights_favorites : option (list Favorite.t);
  movie_insights_reviews : option (list (Review.t (option json_number)))
}.

(** A review read from its JSON text and written to it. Users and
    favorites hold strings only, which JSON gives back as they are. *)
Definition parse_review (text : Review.t (option json_number))
    : Review.t (option number) :=
  Review.map_rating (fmap JSON_parse) text.
Definition stringify_review (review : Review.t (option number))
    : Review.t (option json_number) :=
  Review.map_rating (fun rating => rating ≫= JSON_stringify) review.

(** What is read back of a review that was written. *)
Definition reread (review : Review.t (option number))
    : Review.t (option number) :=
  parse_review (stringify_review review).

(** [JSON.parse(localStorage.getItem(key) || "[]")] *)
Definition users (st : storage) : list User.t :=
  default [] (movie_insights_users st).
Definition favorites (st : storage) : list Favorite.t :=
  default [] (movie_insights_favorites st).
Definition reviews (st : storage) : list (Review.t (option number)) :=
  parse_review <$> default [] (movie_insights_reviews st).

(** [localStorage.setItem(key, JSON.stringify(array))] *)
Definition set_users (l : list User.t) (st : storage) : storage :=
  {| movie_insights_users := Some l;
     movie_insights_favorites := movie_insights_favorites st;
     movie_insights_reviews := movie_insights_reviews st |}.
Definition set_favorites (l : list Favorite.t) (st : storage) : storage :=
  {| movie_insights_users := movie_insights_users st;
     movie_insights_favorites := Some l;
     movie_insights_reviews := movie_insights_reviews st |}.
Definition set_reviews (l : list (Review.t (option number)))
    (st : storage) : storage :=
  {| movie_insights_users := movie_insights_users st;
     movie_insights_favorites := movie_insights_favorites st;
     movie_insights_reviews := Some (stringify_review <$> l) |}.

(** Lines 1095-1108: outside a browser nothing is touched; in a browser
    every missing key is set to the empty array. *)
Definition initializeStorage (window : bool) (st : storage)
    : bool * storage :=
  if negb window then (false, st)
  else
    let st :=
      match movie_insights_users st with
      | None => set_users [] st
      | Some _ => st
      end in
    let st :=
      match movie_insights_favorites st with
      | None => set_favorites [] st
      | Some _ => st
      end in
    let st :=
      match movie_insights_reviews st with
      | None => set_reviews [] st
      | Some _ => st
      end in
    (true, st).

(** *** Users (lines 1111-1153) *)

Definition getUserByEmail (window : bool) (email : string) (st : storage)
    : option User.t * storage :=
  let '(ok, st) := initializeStorage window st in
  if negb ok then (None, st)
  else (List.find (fun user => String.eqb (User.email user) email) (users st),
        st).

Definition createUser (window : bool) (now : string)
    (id email username password : string) (st : storage)
    : outcome User.t * storage :=
  let '(ok, st) := initializeStorage window st in
  if negb ok then (Thrown "Storage not available", st)
  else
    let newUser :=
      {| User.id := id; User.email := email; User.username := username;
         User.password := Some password; User.created_at := now;
         User.last_login := now |} in
    (Returned newUser, set_users (users st ++ [newUser]) st).

Definition updateLastLogin (window : bool) (now : string) (userId : string)
    (st : storage) : storage :=
  let '(ok, st) := initializeStorage window st in
  if negb ok then st
  else
    let updatedUsers :=
      map (fun user =>
             if String.eqb (User.id user) userId then
               {| User.id := User.id user; User.email := User.email user;
                  User.username := User.username user;
                  User.password := User.password user;
                  User.created_at := User.created_at user;
                  User.last_login := now |}
             else user) (users st) in
    set_users updatedUsers st.

(** *** Favorites (lines 1156-1188) *)

Definition sameFavorite (userId movieId : string) (fav : Favorite.t)
    : bool :=
  String.eqb (Favorite.user_id fav) userId
  && String.eqb (Favorite.movie_id fav) movieId.

Definition getFavorites (window : bool) (userId : string) (st : storage)
    : list Favorite.t * storage :=
  let '(ok, st) := initializeStorage window st in
  if negb ok then ([], st)
  else (List.filter (fun fav => String.eqb (Favorite.user_id fav) userId)
                    (favorites st), st).

Definition addFavorite (window : bool) (now : string)
    (userId movieId : string) (st : storage) : storage :=
  let '(ok, st) := initializeStorage window st in
  if negb ok then st
  else
    let exists_ := existsb (sameFavorite userId movieId) (favorites st) in
    if negb exists_ then
      set_favorites
        (favorites st ++ [{| Favorite.user_id := userId;
                             Favorite.movie_id := movieId;
                             Favorite.added_at := now |}]) st
    else st.

Definition removeFavorite (window : bool) (userId movieId : string)
    (st : storage) : storage :=
  let '(ok, st) := initializeStorage window st in
  if negb ok then st
  else
    let updatedFavorites :=
      List.filter (fun fav => negb (sameFavorite userId movieId fav))
                  (favorites st) in
    set_favorites updatedFavorites st.

(** *** Reviews (lines 1191-1264) *)

Definition getReviewsByUser (window : bool) (userId : string) (st : storage)
    : list (Review.t (option number)) * storage :=
  let '(ok, st) := initializeStorage window st in
  if negb ok then ([], st)
  else (List.filter (fun review => String.eqb (Review.user_id review) userId)
                    (reviews st), st).

(** [user?.username || "Unknown User"] *)
Definition usernameOf (user : option User.t) : string :=
  match user with
  | Some u => if Js.truthy (User.username u) then User.username u
              else "Unknown User"
  | None => "Unknown User"
  end.

Definition getReviewsByMovie (window : bool) (movieId : string)
    (st : storage) : list (Review.t (option number)) * storage :=
  let '(ok, st) := initializeStorage window st in
  if negb ok then ([], st)
  else
    (map (fun review =>
            let user :=
              List.find (fun u => String.eqb (User.id u)
                                             (Review.user_id review))
                        (users st) in
            {| Review.id := Review.id review;
               Review.user_id := Review.user_id review;
               Review.movie_id := Review.movie_id review;
               Review.rating := Review.rating review;
               Review.content := Review.content review;
               Review.created_at := Review.created_at review;
               Review.username := Some (usernameOf user) |})
         (List.filter
            (fun review => String.eqb (Review.movie_id review) movieId)
            (reviews st)),
     st).

Definition addReview (window : bool) (now : string)
    (id userId movieId : string) (rating : number) (content : string)
    (st : storage) : outcome (Review.t (option number)) * storage :=
  let '(ok, st) := initializeStorage window st in
  if negb ok then (Thrown "Storage not available", st)
  else
    let newReview :=
      {| Review.id := id; Review.user_id := userId;
         Review.movie_id := movieId; Review.rating := Some rating;
         Review.content := content; Review.created_at := now;
         Review.username := None |} in
    (Returned newReview, set_reviews (reviews st ++ [newReview]) st).

(** [{ ...review, rating, content }] *)
Definition withRating (rating : number) (content : string)
    (review : Review.t (option number)) : Review.t (option number) :=
  {| Review.id := Review.id review;
     Review.user_id := Review.user_id review;
     Review.movie_id := Review.movie_id review;
     Review.rating := Some rating;
     Review.content := content;
     Review.created_at := Review.created_at review;
     Review.username := Review.username review |}.

Definition updateReview (window : bool) (id : string) (rating : number)
    (content : string) (st : storage) : storage :=
  let '(ok, st) := initializeStorage window st in
  if negb ok then st
  else
    let updatedReviews :=
      map (fun review =>
             if String.eqb (Review.id review) id
             then withRating rating content review
             else review) (reviews st) in
    set_reviews updatedReviews st.

Definition deleteReview (window : bool) (id : string) (st : storage)
    : storage :=
  let '(ok, st) := initializeStorage window st in
  if negb ok then st
  else
    let updatedReviews :=
      List.filter (fun review => negb (String.eqb (Review.id review) id))
                  (reviews st) in
    set_reviews updatedReviews st.

End LocalDb.
Arguments storage number {_}.
End LocalDb.

(** ** Sign-up and sign-in

    [src/contexts/auth-context.tsx], lines 10-137, over the [localStorage]
    implementation of [dbClient]. *)

(** [btoa]: base64 of the code units, on the strings whose code units
    are all below 256; on any other string the browser's [btoa] throws,
    which [window_btoa] adds. A sextet is six bits, most significant
    first. *)
Module Base64.

Definition sextet : Type := bool * bool * bool * bool * bool * bool.

Definition alphabet : string :=
  "ABCDEFGHIJKLMNOPQRSTUVWXYZabcdefghijklmnopqrstuvwxyz0123456789+/".

Definition index (x : sextet) : nat :=
  let '(b5, b4, b3, b2, b1, b0) := x in
  (Nat.b2n b5 * 32 + Nat.b2n b4 * 16 + Nat.b2n b3 * 8 + Nat.b2n b2 * 4
   + Nat.b2n b1 * 2 + Nat.b2n b0)%nat.

Definition digit (x : sextet) : ascii :=
  match String.get (index x) alphabet with
  | Some c => c
  | None => "="%char
  end.

(** One, two and three bytes. [Ascii] lists the bits least significant
    first. *)
Definition encode1 (a : ascii) : string :=
  let '(Ascii a0 a1 a2 a3 a4 a5 a6 a7) := a in
  String (digit (a7, a6, a5, a4, a3, a2))
  (String (digit (a1, a0, false, false, false, false))
  (String "=" (String "=" EmptyString))).

Definition encode2 (a b : ascii) : string :=
  let '(Ascii a0 a1 a2 a3 a4 a5 a6 a7) := a in
  let '(Ascii b0 b1 b2 b3 b4 b5 b6 b7) := b in
  String (digit (a7, a6, a5, a4, a3, a2))
  (String (digit (a1, a0, b7, b6, b5, b4))
  (String (digit (b3, b2, b1, b0, false, false))
  (String "=" EmptyString))).

Definition encode3 (a b c : ascii) (rest : string) : string :=
  let '(Ascii a0 a1 a2 a3 a4 a5 a6 a7) := a in
  let '(Ascii b0 b1 b2 b3 b4 b5 b6 b7) := b in
  let '(Ascii c0 c1 c2 c3 c4 c5 c6 c7) := c in
  String (digit (a7, a6, a5, a4, a3, a2))
  (String (digit (a1, a0, b7, b6, b5, b4))
  (String (digit (b3, b2, b1, b0, c7, c6))
  (String (digit (c5, c4, c3, c2, c1, c0)) rest))).

Fixpoint btoa (s : string) : string :=
  match s with
  | EmptyString => EmptyString
  | String a EmptyString => encode1 a
  | String a (String b EmptyString) => encode2 a b
  | String a (String b (String c rest)) => encode3 a b c (btoa rest)
  end.

(** [btoa] of any string: an [InvalidCharacterError] when a code unit
    is above 255. The exception is given by its name; its message is the
    browser's own. *)
Definition window_btoa (w : list N) : outcome string :=
  match Js.latin1 w with
  | Some s => Returned (btoa s)
  | None => Thrown "InvalidCharacterError"
  end.

(** Reading a digit back, for the proofs. *)
Definition sextets : list sextet :=
  b5 ← [false; true]; b4 ← [false; true]; b3 ← [false; true];
  b2 ← [false; true]; b1 ← [false; true]; b0 ← [false; true];
  [(b5, b4, b3, b2, b1, b0)].

Definition undigit (c : ascii) : option sextet :=
  List.find (fun x => Ascii.eqb (digit x) c) sextets.

Fixpoint atob (s : string) : string :=
  match s with
  | String w (String x (String y (String z rest))) =>
      match undigit w, undigit x, undigit y, undigit z with
      | Some (a7, a6, a5, a4, a3, a2), Some (a1, a0, b7, b6, b5, b4),
        Some (b3, b2, b1, b0, c7, c6), Some (c5, c4, c3, c2, c1, c0) =>
          String (Ascii a0 a1 a2 a3 a4 a5 a6 a7)
          (String (Ascii b0 b1 b2 b3 b4 b5 b6 b7)
          (String (Ascii c0 c1 c2 c3 c4 c5 c6 c7) (atob rest)))
      | Some (a7, a6, a5, a4, a3, a2), Some (a1, a0, b7, b6, b5, b4),
        Some (b3, b2, b1, b0, _, _), None =>
          String (Ascii a0 a1 a2 a3 a4 a5 a6 a7)
          (String (Ascii b0 b1 b2 b3 b4 b5 b6 b7) EmptyString)
      | Some (a7, a6, a5, a4, a3, a2), Some (a1, a0, _, _, _, _), None, _ =>
          String (Ascii a0 a1 a2 a3 a4 a5 a6 a7) EmptyString
      | _, _, _, _ => EmptyString
      end
  | _ => EmptyString
  end.

End Base64.

Module Auth.
Section Auth.
Context `{JsonNumber number}.

(** Lines 11-15, where [btoa] returns: on a password with every code
    unit below 256. *)
Definition hashPassword (password : string) : string :=
  Base64.btoa (password +:+ "salt").

(** Lines 11-15 on any password: [btoa] throws when [password + "salt"]
    has a code unit above 255. *)
Definition hashPassword_units (password : list N) : outcome string :=
  Base64.window_btoa (password ++ Js.units "salt").

(** The state of [AuthProvider] and what it keeps in [localStorage]
    under "movieInsightsUser", with the store of [dbClient]. *)
Record state : Type := {
  user : option User.t;
  isLoading : bool;
  movieInsightsUser : option User.t;
  db : LocalDb.storage number
}.

Definition setIsLoading (b : bool) (s : state) : state :=
  {| user := user s; isLoading := b;
     movieInsightsUser := movieInsightsUser s; db := db s |}.
Definition setUser (u : option User.t) (s : state) : state :=
  {| user := u; isLoading := isLoading s;
     movieInsightsUser := movieInsightsUser s; db := db s |}.
Definition setItem (u : User.t) (s : state) : state :=
  {| user := user s; isLoading := isLoading s;
     movieInsightsUser := Some u; db := db s |}.
Definition setDb (d : LocalDb.storage number) (s : state) : state :=
  {| user := user s; isLoading := isLoading s;
     movieInsightsUser := movieInsightsUser s; db := d |}.

(** [const { password: _, ...userWithoutPassword } = newUser] *)
Definition withoutPassword (u : User.t) : User.t :=
  {| User.id := User.id u; User.email := User.email u;
     User.username := User.username u; User.password := None;
     User.created_at := User.created_at u;
     User.last_login := User.last_login u |}.

(** Lines 71-101; [uuid] is the value of [uuidv4()] and the password is
    what the form holds, any string. The result is the message of the
    error, if any: the one returned, or the one of the exception caught
    at line 95; [finally] clears [isLoading] on every path. *)
Definition signUp (window : bool) (now uuid : string)
    (email : string) (password : list N) (username : string) (s : state)
    : option string * state :=
  let s := setIsLoading true s in
  let '(existingUser, d) := LocalDb.getUserByEmail window email (db s) in
  let s := setDb d s in
  match existingUser with
  | Some _ =>
      (Some "User with this email already exists", setIsLoading false s)
  | None =>
      let userId := uuid in
      match hashPassword_units password with
      | Thrown message => (Some message, setIsLoading false s)
      | Returned hashedPassword =>
          let '(created, d) :=
            LocalDb.createUser window now userId email username
                               hashedPassword (db s) in
          let s := setDb d s in
          match created with
          | Thrown message => (Some message, setIsLoading false s)
          | Returned newUser =>
              let userWithoutPassword := withoutPassword newUser in
              let s := setUser (Some userWithoutPassword) s in
              let s := setItem userWithoutPassword s in
              (None, setIsLoading false s)
          end
      end
  end.

(** Lines 103-137. *)
Definition signIn (window : bool) (now : string) (email : string)
    (password : list N) (s : state) : option string * state :=
  let s := setIsLoading true s in
  let '(found, d) := LocalDb.getUserByEmail window email (db s) in
  let s := setDb d s in
  match found with
  | None =>
      (Some "No account found with this email. Please register.",
       setIsLoading false s)
  | Some user =>
      match hashPassword_units password with
      | Thrown message => (Some message, setIsLoading false s)
      | Returned hashedPassword =>
          if negb (match User.password user with
                   | Some p => String.eqb p hashedPassword
                   | None => false
                   end)
          then (Some "Invalid password", setIsLoading false s)
          else
            let s := setDb (LocalDb.updateLastLogin window now
                              (User.id user) (db s)) s in
            let userWithoutPassword := withoutPassword user in
            let s := setUser (Some userWithoutPassword) s in
            let s := setItem userWithoutPassword s in
            (None, setIsLoading false s)
      end
  end.

(** The profile in the state and the one in the session carry no
    password. *)
Definition noPassword (s : state) : Prop :=
  (forall u, user s = Some u -> User.password u = None) /\
  (forall u, movieInsightsUser s = Some u -> User.password u = None).

End Auth.
Arguments state number {_}.
End Auth.

(** Stores and states for examples. *)
Definition alice : User.t :=
  {| User.id := "u1"; User.email := "alice@example.com";
     User.username := "alice"; User.password := Some "cGFzc3dvcmRzYWx0";
     User.created_at := "2024-01-01T00:00:00.000Z";
     User.last_login := "2024-01-01T00:00:00.000Z" |}.

Definition emptyStorage : LocalDb.storage Z :=
  {| LocalDb.movie_insights_users := None;
     LocalDb.movie_insights_favorites := None;
     LocalDb.movie_insights_reviews := None |}.

Definition signedOut (users : list User.t) : Auth.state Z :=
  {| Auth.user := None; Auth.isLoading := false;
     Auth.movieInsightsUser := None;
     Auth.db := LocalDb.set_users users emptyStorage |}.


(** * Properties *)

(** ** Strings *)

Lemma append_nil_l (s : string) : "" +:+ s = s.
Proof. reflexivity. Qed.

Lemma append_cons (a : ascii) (s t : string) :
  String a s +:+ t = String a (s +:+ t).
Proof. reflexivity. Qed.

Lemma append_nil_r (s : string) : s +:+ "" = s.
Proof. induction s as [|a s IH]; [done|]. by rewrite append_cons, IH. Qed.

Lemma append_assoc (s t u : string) : (s +:+ t) +:+ u = s +:+ t +:+ u.
Proof.
  induction s as [|a s IH]; [done|]. by rewrite !append_cons, IH.
Qed.

Lemma append_length (s t : string) :
  String.length (s +:+ t) = (String.length s + String.length t)%nat.
Proof.
  induction s as [|a s IH]; [done|]. rewrite append_cons. simpl. by rewrite IH.
Qed.

Lemma prefix_nil (s : string) : String.prefix "" s = true.
Proof. by destruct s. Qed.

Lemma prefix_cons (a b : ascii) (v s : string) :
  String.prefix (String a v) (String b s) = Ascii.eqb a b && String.prefix v s.
Proof.
  simpl. destruct (ascii_dec a b) as [->|Hne].
  - by rewrite Ascii.eqb_refl.
  - apply Ascii.eqb_neq in Hne. by rewrite Hne.
Qed.

Lemma prefix_spec (v s : string) :
  String.prefix v s = true <-> exists post, s = v +:+ post.
Proof.
  revert s. induction v as [|a v IH]; intros s.
  - rewrite prefix_nil. split; [|done]. intros _. by exists s.
  - destruct s as [|b s].
    + split; [done|]. intros [post Hpost]. by rewrite append_cons in Hpost.
    + rewrite prefix_cons, andb_true_iff, Ascii.eqb_eq, IH. split.
      * intros [-> [post ->]]. by exists post.
      * intros [post Hpost]. rewrite append_cons in Hpost.
        injection Hpost as -> ->. eauto.
Qed.

Lemma includes_unfold (s v : string) :
  Js.includes s v =
  String.prefix v s ||
  match s with EmptyString => false | String _ s' => Js.includes s' v end.
Proof. by destruct s. Qed.

Lemma includes_spec (s v : string) :
  Js.includes s v = true <-> contains s v.
Proof.
  unfold contains. induction s as [|a s IH].
  - rewrite includes_unfold, orb_false_r, prefix_spec. split.
    + intros [post ->]. by exists "", post.
    + intros [pre [post Heq]]. destruct pre; [by exists post|done].
  - rewrite includes_unfold, orb_true_iff, prefix_spec, IH. split.
    + intros [[post ->]|[pre [post ->]]].
      * by exists "", post.
      * by exists (String a pre), post.
    + intros [[|b pre] [post Heq]].
      * left. by exists post.
      * right. rewrite append_cons in Heq. injection Heq as -> ->. eauto.
Qed.

Lemma contains_length (s v : string) :
  contains s v -> (String.length v <= String.length s)%nat.
Proof. intros [pre [post ->]]. rewrite !append_length. lia. Qed.

Lemma includes_length (s v : string) :
  Js.includes s v = true -> (String.length v <= String.length s)%nat.
Proof. intros Hin. by apply contains_length, includes_spec. Qed.

Lemma includes_nil_r (s : string) : Js.includes s "" = true.
Proof. by rewrite includes_unfold, prefix_nil. Qed.

Lemma includes_nil_l (v : string) :
  Js.truthy v = true -> Js.includes "" v = false.
Proof. by destruct v. Qed.

Lemma toLowerCase_length (s : string) :
  String.length (Js.toLowerCase s) = String.length s.
Proof. induction s as [|a s IH]; [done|]. simpl. by rewrite IH. Qed.

Lemma toLowerCase_truthy (s : string) :
  Js.truthy (Js.toLowerCase s) = Js.truthy s.
Proof. by destruct s. Qed.

Lemma truthy_false (s : string) : Js.truthy s = false <-> s = "".
Proof. by destruct s. Qed.

Lemma truthy_true (s : string) : Js.truthy s = true <-> s <> "".
Proof. by destruct s. Qed.

(** *** [trim] does not change which trimmed words a string includes *)

Lemma trimStart_length (s : string) :
  (String.length (Js.trimStart s) <= String.length s)%nat.
Proof.
  induction s as [|a s IH]; [done|]. simpl. destruct (Js.is_space a); simpl; lia.
Qed.

Lemma trimStart_fixed (a : ascii) (g : string) :
  Js.trimStart (String a g) = String a g -> Js.is_space a = false.
Proof.
  simpl. destruct (Js.is_space a); [|done]. intros Heq.
  pose proof (trimStart_length g) as Hlen. rewrite Heq in Hlen. simpl in Hlen. lia.
Qed.

Lemma includes_trimStart (s g : string) :
  g <> "" -> Js.trimStart g = g ->
  Js.includes (Js.trimStart s) g = Js.includes s g.
Proof.
  intros Hne Hfix. destruct g as [|c g]; [done|].
  apply trimStart_fixed in Hfix.
  induction s as [|a s IH]; [done|].
  simpl Js.trimStart. destruct (Js.is_space a) eqn:Ha; [|done].
  rewrite IH, (includes_unfold (String a s)), prefix_cons.
  destruct (Ascii.eqb c a) eqn:Hca; [|done].
  apply Ascii.eqb_eq in Hca. congruence.
Qed.

Lemma trimEnd_unfold (a : ascii) (s : string) :
  Js.trimEnd (String a s) =
  match Js.trimEnd s with
  | EmptyString => if Js.is_space a then EmptyString else String a EmptyString
  | t => String a t
  end.
Proof. reflexivity. Qed.

Lemma prefix_trimEnd (g s : string) :
  g <> "" -> Js.trimEnd g = g ->
  String.prefix g (Js.trimEnd s) = String.prefix g s.
Proof.
  revert g. induction s as [|a s IH]; intros g Hne Hfix; [done|].
  destruct g as [|c g]; [done|].
  rewrite trimEnd_unfold in Hfix. rewrite trimEnd_unfold, (prefix_cons c a).
  destruct (Js.trimEnd g) as [|c' g'] eqn:Hg.
  - (* [g] is the one character [c], which is no white space *)
    destruct (Js.is_space c) eqn:Hc; [done|].
    injection Hfix as <-. rewrite prefix_nil, andb_true_r.
    destruct (Js.trimEnd s) as [|b t].
    + destruct (Js.is_space a) eqn:Ha.
      * destruct (Ascii.eqb c a) eqn:Hca; [|done].
        apply Ascii.eqb_eq in Hca. congruence.
      * by rewrite prefix_cons, prefix_nil, andb_true_r.
    + by rewrite prefix_cons, prefix_nil, andb_true_r.
  - injection Hfix as Hfix.
    assert (g <> "") as Hgne by (intros ->; done).
    assert (Js.trimEnd g = g) as Hgfix by congruence.
    specialize (IH g Hgne Hgfix).
    destruct (Js.trimEnd s) as [|b t] eqn:Hs.
    + assert (String.prefix g s = false) as ->.
      { rewrite <- IH. by destruct g. }
      rewrite andb_false_r.
      destruct (Js.is_space a); [done|].
      rewrite prefix_cons. destruct g; [done|]. by rewrite andb_false_r.
    + by rewrite prefix_cons, IH.
Qed.

Lemma includes_trimEnd (s g : string) :
  g <> "" -> Js.trimEnd g = g ->
  Js.includes (Js.trimEnd s) g = Js.includes s g.
Proof.
  intros Hne Hfix. induction s as [|a s IH]; [done|].
  rewrite (includes_unfold (String a s)), <- IH.
  rewrite <- (prefix_trimEnd g (String a s)) by done.
  rewrite trimEnd_unfold.
  assert (String.prefix g "" = false) as Hnil by (by destruct g).
  assert (Js.includes "" g = false) as Hinil.
  { by rewrite includes_unfold, Hnil. }
  destruct (Js.trimEnd s) as [|b t] eqn:Hs.
  - destruct (Js.is_space a).
    + by rewrite Hinil, Hnil.
    + by rewrite includes_unfold.
  - by rewrite includes_unfold.
Qed.

Lemma is_space_lower_char (c : ascii) :
  Js.is_space (Js.lower_char c) = Js.is_space c.
Proof. by destruct c as [[] [] [] [] [] [] [] []]. Qed.

Lemma toLowerCase_trimStart (s : string) :
  Js.toLowerCase (Js.trimStart s) = Js.trimStart (Js.toLowerCase s).
Proof.
  induction s as [|a s IH]; [done|]. simpl.
  rewrite is_space_lower_char. by destruct (Js.is_space a).
Qed.

Lemma toLowerCase_trimEnd (s : string) :
  Js.toLowerCase (Js.trimEnd s) = Js.trimEnd (Js.toLowerCase s).
Proof.
  induction s as [|a s IH]; [done|].
  change (Js.toLowerCase (String a s))
    with (String (Js.lower_char a) (Js.toLowerCase s)).
  rewrite !trimEnd_unfold, <- IH, is_space_lower_char.
  destruct (Js.trimEnd s); [|done]. simpl. by destruct (Js.is_space a).
Qed.

Lemma toLowerCase_trim (s : string) :
  Js.toLowerCase (Js.trim s) = Js.trim (Js.toLowerCase s).
Proof. unfold Js.trim. by rewrite toLowerCase_trimEnd, toLowerCase_trimStart. Qed.

Lemma includes_trim (s g : string) :
  g <> "" -> Js.trimStart g = g -> Js.trimEnd g = g ->
  Js.includes (Js.toLowerCase (Js.trim s)) g = Js.includes (Js.toLowerCase s) g.
Proof.
  intros Hne Hstart Hend. rewrite toLowerCase_trim. unfold Js.trim.
  by rewrite includes_trimEnd, includes_trimStart.
Qed.

(** ** The pattern matcher *)

Lemma star_sound {R} (p : ascii -> bool) (k : cont) s c (res : R) :
  star p k s c = Some res ->
  exists s' c', steps (Star p) s c s' c' /\ k s' c' = Some res.
Proof.
  induction s as [|a s IH]; simpl.
  - intros Hk. exists "", c. split; [constructor|done].
  - destruct (p a) eqn:Hp.
    + destruct (star p k s c) as [r|] eqn:Hstar.
      * intros [= ->]. destruct (IH eq_refl) as (s' & c' & Hsteps & Hk).
        exists s', c'. split; [by constructor|done].
      * intros Hk. exists (String a s), c. split; [constructor|done].
    + intros Hk. exists (String a s), c. split; [constructor|done].
Qed.

Lemma run_sound {R} (r : regex) (k : cont) s c (res : R) :
  run r k s c = Some res ->
  exists s' c', steps r s c s' c' /\ k s' c' = Some res.
Proof.
  revert k s c. induction r as [|p|p|r1 IH1 r2 IH2|r1 IH1 r2 IH2|r IH];
    intros k s c; simpl.
  - intros Hk. exists s, c. split; [constructor|done].
  - destruct s as [|a s]; [done|]. destruct (p a) eqn:Hp; [|done].
    intros Hk. exists s, c. split; [by constructor|done].
  - apply star_sound.
  - intros Hrun. apply IH1 in Hrun as (s1 & c1 & Hs1 & Hrun).
    apply IH2 in Hrun as (s2 & c2 & Hs2 & Hk).
    exists s2, c2. split; [by econstructor|done].
  - destruct (run r1 k s c) as [x|] eqn:Hr1.
    + intros [= ->]. apply IH1 in Hr1 as (s' & c' & Hs & Hk).
      exists s', c'. split; [by apply steps_alt_l|done].
    + intros Hr2. apply IH2 in Hr2 as (s' & c' & Hs & Hk).
      exists s', c'. split; [by apply steps_alt_r|done].
  - intros Hrun. apply IH in Hrun as (s' & c' & Hs & Hk).
    eexists s', _. split; [by econstructor|done].
Qed.

Lemma exec_sound (r : regex) s cap :
  exec r s = Some cap -> exists s0 s', steps r s0 None s' cap.
Proof.
  induction s as [|a s IH]; simpl.
  - destruct (run r _ "" None) as [x|] eqn:Hrun; [|done].
    intros [= ->]. apply run_sound in Hrun as (s' & c' & Hs & [= ->]). eauto.
  - destruct (run r _ (String a s) None) as [x|] eqn:Hrun; [|done].
    intros [= ->]. apply run_sound in Hrun as (s' & c' & Hs & [= ->]). eauto.
Qed.

Lemma steps_seq_inv r1 r2 s c s2 c2 :
  steps (Seq r1 r2) s c s2 c2 ->
  exists s1 c1, steps r1 s c s1 c1 /\ steps r2 s1 c1 s2 c2.
Proof. inversion 1; subst; eauto. Qed.

Lemma steps_chr_inv p s c s' c' :
  steps (Chr p) s c s' c' -> exists a, s = String a s' /\ c' = c /\ p a = true.
Proof. inversion 1; subst; eauto. Qed.

Lemma steps_group_inv r s c s' c' :
  steps (Group r) s c s' c' ->
  c' = Some (take (String.length s - String.length s') s) /\
  exists c0, steps r s c s' c0.
Proof. inversion 1; subst; eauto. Qed.

Lemma is_digit_not_space (a : ascii) :
  is_digit a = true -> Js.is_space a = false.
Proof. by destruct a as [[] [] [] [] [] [] [] []]. Qed.

(** The year pattern captures four digits, which [trim] leaves alone. *)
Lemma extracted_year (query c : string) :
  extracted year_re query = Some c -> String.length (Js.trim c) = 4%nat.
Proof.
  unfold extracted.
  destruct (exec year_re query) as [[c0|]|] eqn:Hexec; [|done..].
  destruct (Js.truthy c0); [|done]. intros [= ->].
  apply exec_sound in Hexec as (s0 & s' & Hsteps). unfold year_re in Hsteps.
  apply steps_seq_inv in Hsteps as (s1 & c1 & _ & Hsteps).
  apply steps_seq_inv in Hsteps as (s2 & c2 & _ & Hsteps).
  apply steps_seq_inv in Hsteps as (s3 & c3 & _ & Hsteps).
  apply steps_seq_inv in Hsteps as (s4 & c4 & _ & Hsteps).
  apply steps_group_inv in Hsteps as (Hcap & c5 & Hsteps).
  apply steps_seq_inv in Hsteps as (t1 & d1 & Hd1 & Hsteps).
  apply steps_seq_inv in Hsteps as (t2 & d2 & Hd2 & Hsteps).
  apply steps_seq_inv in Hsteps as (t3 & d3 & Hd3 & Hd4).
  apply steps_chr_inv in Hd1 as (a1 & -> & _ & Ha1).
  apply steps_chr_inv in Hd2 as (a2 & -> & _ & Ha2).
  apply steps_chr_inv in Hd3 as (a3 & -> & _ & Ha3).
  apply steps_chr_inv in Hd4 as (a4 & -> & _ & Ha4).
  injection Hcap as ->.
  cbn [String.length].
  replace (S (S (S (S (String.length s')))) - String.length s')%nat
    with 4%nat by lia.
  apply is_digit_not_space in Ha1, Ha2, Ha3, Ha4.
  unfold Js.trim. cbn [take Js.trimStart]. rewrite Ha1.
  rewrite !trimEnd_unfold. cbn [Js.trimEnd]. by rewrite Ha4.
Qed.

(** ** Lists *)

Lemma selects_filter {A} (f : A -> bool) (P : A -> Prop) (l : list A) :
  (forall x, f x = true <-> P x) -> selects P l (List.filter f l).
Proof.
  intros Hf. induction l as [|x l IH]; simpl; [constructor|].
  destruct (f x) eqn:Hx.
  - apply selects_keep; [by apply Hf|done].
  - apply selects_drop; [|done]. rewrite <- Hf. congruence.
Qed.

(** [selects P l] has one outcome. *)
Lemma selects_functional {A} (P : A -> Prop) (l l1 l2 : list A) :
  selects P l l1 -> selects P l l2 -> l1 = l2.
Proof.
  intros H1. revert l2.
  induction H1 as [|x l l1 Hx _ IH|x l l1 Hx _ IH]; intros l2 H2;
    inversion H2; subst; try done; auto.
  f_equal. auto.
Qed.

Lemma find_first_with {A} (f : A -> bool) (l : list A) (m : A) :
  List.find f l = Some m -> first_with (fun x => f x = true) l m.
Proof.
  induction l as [|x l IH]; simpl; [done|].
  destruct (f x) eqn:Hx.
  - intros [= ->]. by exists [], l.
  - intros Hfind. destruct (IH Hfind) as (pre & post & -> & Hm & Hpre).
    exists (x :: pre), post. repeat split; [done|].
    constructor; [congruence|done].
Qed.

Lemma find_is_Some {A} (f : A -> bool) (l : list A) (x : A) :
  x ∈ l -> f x = true -> exists m, List.find f l = Some m.
Proof.
  intros Hin Hx. destruct (List.find f l) as [m|] eqn:Hfind; [eauto|].
  apply list_elem_of_In in Hin.
  pose proof (find_none f l Hfind x Hin). congruence.
Qed.

Lemma filter_filter {A} (f g : A -> bool) (l : list A) :
  List.filter g (List.filter f l) = List.filter (fun x => f x && g x) l.
Proof.
  induction l as [|x l IH]; simpl; [done|].
  destruct (f x); simpl; [|done]. destruct (g x); by rewrite IH.
Qed.

(** ** The callbacks *)

Section Callbacks.
Context `{JsNumber number}.
Implicit Types (movie : Movie number) (movies : list (Movie number)).
Implicit Types (filters : gmap string string).

Lemma every_spec (f : string * string -> bool) filters :
  every f filters = true <->
  forall k v, filters !! k = Some v -> f (k, v) = true.
Proof.
  unfold every. rewrite forallb_forall. split.
  - intros Hall k v Hkv. apply Hall, list_elem_of_In.
    by apply elem_of_map_to_list.
  - intros Hall [k v] Hin. apply Hall.
    by apply elem_of_map_to_list, list_elem_of_In.
Qed.

Lemma every_ext (f g : string * string -> bool) filters :
  (forall k v, filters !! k = Some v -> f (k, v) = g (k, v)) ->
  every f filters = every g filters.
Proof.
  intros Hfg. apply eq_true_iff_eq. rewrite !every_spec.
  split; intros Hall k v Hkv; [rewrite <- Hfg|rewrite Hfg]; auto.
Qed.

Lemma isExactTitle_spec query movie :
  isExactTitle query movie = true <-> equals_ci (movie_name movie) query.
Proof. apply String.eqb_eq. Qed.

Lemma titleIncludes_spec name movie :
  titleIncludes name movie = true <-> contains_ci (movie_name movie) name.
Proof. apply includes_spec. Qed.

Lemma pipeSeparated_spec key :
  pipeSeparated key = true <-> key = "genre" \/ key = "plot_keyword".
Proof.
  unfold pipeSeparated. by rewrite orb_true_iff, !String.eqb_eq.
Qed.

Lemma matchesEntry_spec movie f v :
  matchesEntry movie (f, v) = true <-> fieldMatches movie f v.
Proof.
  unfold matchesEntry, fieldMatches.
  destruct (Js.truthy v) eqn:Hv; simpl.
  2:{ apply truthy_false in Hv. tauto. }
  apply truthy_true in Hv.
  destruct (get movie f) as [s|n| |name|] eqn:Hget;
    cbn [is_undefined].
  3:{ split; [done|]. intros [?|[? _]]; done. }
  all: unfold containsValue, contains_ci.
  all: destruct (pipeSeparated f) eqn:Hpipe.
  all: first [ apply pipeSeparated_spec in Hpipe
             | apply not_true_iff_false in Hpipe;
               rewrite pipeSeparated_spec in Hpipe ].
  all: destruct (decide (f = "genre" \/ f = "plot_keyword")); try done.
  all: rewrite ?existsb_exists, ?includes_spec.
  all: split;
    [ intros Hyes; right; split; [done|]
    | intros [?|[_ Hyes]]; [done|] ].
  all: try done.
  all: destruct Hyes as [e He]; exists e.
  all: by rewrite ?list_elem_of_In, <- ?includes_spec in *.
Qed.

Lemma satisfies_spec movie filters :
  every (matchesEntry movie) filters = true <-> satisfies filters movie.
Proof.
  rewrite every_spec. unfold satisfies.
  by setoid_rewrite matchesEntry_spec.
Qed.

Lemma filterMovies_selects movies filters :
  selects (satisfies filters) movies (filterMovies movies filters).
Proof. apply selects_filter. intros movie. apply satisfies_spec. Qed.

End Callbacks.

(** The matcher on queries traced by hand in the source. The title
    pattern gives its white space back to reach the one-character capture;
    "from" serves the year and, with an empty capture, the country. *)
Example parse_actor :
  parseUserQuery "actor Tom Hanks" = {[ "actors" := "Tom Hanks" ]}.
Proof. by vm_compute. Qed.

Example parse_title_blank :
  extracted title_re "movie " = Some " " /\
  parseUserQuery "movie " = {[ "movie_name" := "" ]}.
Proof. by vm_compute. Qed.

Example parse_from_year :
  parseUserQuery "from 1999"
  = <["country" := ""]> {[ "release_year" := "1999" ]}.
Proof. by vm_compute. Qed.

Example parse_quoted_genre :
  extracted genre_re "genres are 'Sci fi'" = Some "Sci fi" /\
  extracted director_re "Director: Nolan, 2010" = Some "Nolan".
Proof. by vm_compute. Qed.

(** ** What [parseUserQuery] can return *)

Lemma parsed_insert key value filters :
  parsedEntry key value -> parsed filters -> parsed (<[key := value]> filters).
Proof.
  intros Hentry Hfilters k v. rewrite lookup_insert_Some.
  intros [[<- <-]|[_ Hkv]]; auto.
Qed.

Lemma parsed_extract key re query filters :
  (forall c, extracted re query = Some c -> parsedEntry key (Js.trim c)) ->
  parsed filters -> parsed (extract key re query filters).
Proof.
  intros Hentry Hfilters. unfold extract.
  destruct (extracted re query) as [c|]; [|done].
  apply parsed_insert; auto.
Qed.

Lemma parsed_fallback query filters :
  parsed filters -> parsed (fallback query filters).
Proof.
  intros Hfilters. unfold fallback.
  repeat case_match; try done;
    (apply parsed_insert; [left; set_solver|done]).
Qed.

Lemma parseUserQuery_parsed (query : string) : parsed (parseUserQuery query).
Proof.
  unfold parseUserQuery. apply parsed_fallback.
  repeat (apply parsed_extract;
          [ first [ intros c Hc; right; split; [done|];
                    by apply (extracted_year query)
                  | intros c _; left; set_solver ] | ]).
  intros k v. by rewrite lookup_empty.
Qed.

Section ActorBranch.
Context `{JsNumber number}.
Implicit Types (movie : Movie number) (movies : list (Movie number)).

(** On the entries [parseUserQuery] can produce, testing [!movieValue]
    and testing [=== undefined] come to the same. *)
Lemma matchesOtherEntry_parsed movie key value :
  parsedEntry key value ->
  matchesOtherEntry movie (key, value) = matchesEntry movie (key, value).
Proof.
  unfold matchesOtherEntry, matchesEntry.
  destruct (Js.truthy value) eqn:Hvalue; simpl; [|done].
  assert (forall s, get movie key = VString s ->
    (if negb (value_truthy (get movie key)) then false
     else containsValue key (get movie key) value) =
    (if is_undefined (get movie key) then false
     else containsValue key (get movie key) value)) as Hstring.
  { intros s ->. simpl. destruct s as [|a s]; [|done]. simpl.
    unfold containsValue. destruct value as [|b value]; [done|].
    by destruct (pipeSeparated key). }
  intros [Hkey|[-> Hlen]].
  - repeat (apply elem_of_cons in Hkey as [->|Hkey];
            [by eapply Hstring|]).
    by apply elem_of_nil in Hkey.
  - change (get movie "release_year") with (VNumber (release_year movie)).
    simpl. destruct (number_truthy (release_year movie)) eqn:Hn; [done|].
    simpl. unfold containsValue. simpl.
    destruct (Js.includes _ _) eqn:Hinc; [|done].
    apply includes_length in Hinc.
    rewrite !toLowerCase_length, Hlen in Hinc.
    destruct (number_falsy_prints _ Hn) as [Hs|Hs];
      rewrite Hs in Hinc; simpl in Hinc; lia.
Qed.

Lemma matchesActorSearch_spec (query a : string) movie :
  matchesActorSearch (delete "actors" (parseUserQuery query)) a movie = true
  <-> satisfies (delete "actors" (parseUserQuery query)) movie
      /\ contains_ci (actors movie) a.
Proof.
  unfold matchesActorSearch.
  rewrite (every_ext _ (matchesEntry movie)).
  2:{ intros k v Hkv. apply matchesOtherEntry_parsed.
      apply lookup_delete_Some in Hkv as [_ Hkv].
      by apply (parseUserQuery_parsed query). }
  rewrite <- satisfies_spec.
  destruct (every _ _); simpl.
  - rewrite includes_spec. unfold contains_ci. tauto.
  - split; [done|]. by intros [? _].
Qed.
End ActorBranch.

(** ** Sorting *)

Section SortFacts.
Context {A : Type} (cmp : A -> A -> Z).

Hypothesis cmp_total : forall a b, Js.precedes cmp a b \/ Js.precedes cmp b a.
Hypothesis cmp_trans : forall a b c,
  Js.precedes cmp a b -> Js.precedes cmp b c -> Js.precedes cmp a c.

Lemma insert_by_perm (x : A) (l : list A) : Js.insert_by cmp x l ≡ₚ x :: l.
Proof.
  induction l as [|y l IH]; simpl; [done|].
  destruct (cmp x y <=? 0); [done|]. rewrite IH. apply Permutation_swap.
Qed.

Lemma sort_perm (l : list A) : Js.sort cmp l ≡ₚ l.
Proof.
  induction l as [|x l IH]; simpl; [done|].
  fold (Js.sort cmp l). by rewrite insert_by_perm, IH.
Qed.

Lemma insert_by_sorted (x : A) (l : list A) :
  StronglySorted (Js.precedes cmp) l ->
  StronglySorted (Js.precedes cmp) (Js.insert_by cmp x l).
Proof.
  induction l as [|y l IH]; simpl; intros Hsorted.
  - repeat constructor.
  - apply StronglySorted_inv in Hsorted as [Hl Hy].
    destruct (cmp x y <=? 0) eqn:Hxy.
    + apply Z.leb_le in Hxy. constructor; [by constructor|].
      constructor; [done|].
      eapply Forall_impl; [exact Hy|]. intros z Hz. by eapply cmp_trans.
    + apply Z.leb_gt in Hxy. constructor; [by apply IH|].
      rewrite insert_by_perm. constructor; [|done].
      destruct (cmp_total x y) as [Hle|Hle];
        [unfold Js.precedes in Hle; lia|done].
Qed.

Lemma sort_sorted (l : list A) : StronglySorted (Js.precedes cmp) (Js.sort cmp l).
Proof.
  induction l as [|x l IH]; simpl; [constructor|]. by apply insert_by_sorted.
Qed.
End SortFacts.

Section Relevance.
Context `{JsNumber number}.
Implicit Types (a b c : Movie number).

Lemma byRelevance_total name a b :
  byRelevance name a b <= 0 \/ byRelevance name b a <= 0.
Proof.
  unfold byRelevance.
  destruct (isExactTitle name a), (isExactTitle name b); simpl; lia.
Qed.

Lemma byRelevance_trans name a b c :
  byRelevance name a b <= 0 -> byRelevance name b c <= 0 ->
  byRelevance name a c <= 0.
Proof.
  unfold byRelevance.
  destruct (isExactTitle name a), (isExactTitle name b),
    (isExactTitle name c); simpl; lia.
Qed.

Lemma byRelevance_ranks name a b :
  byRelevance name a b <= 0 -> ranksBefore name a b.
Proof.
  unfold byRelevance, ranksBefore. rewrite <- !isExactTitle_spec.
  destruct (isExactTitle name a), (isExactTitle name b); simpl;
    intros Hle; split; intros; try done; try lia.
  all: exfalso; intuition congruence.
Qed.
End Relevance.

(** ** The store is only extended *)

Section Store.
Context `{JsNumber number}.
Implicit Types (h : store number) (l : list (Movie number)).

Lemma array_filter_spec f (r : ref) h l :
  h !! r = Some l ->
  array_filter f r h = Some (length h, h ++ [List.filter f l]).
Proof. intros Hr. unfold array_filter, bind, array_read. by rewrite Hr. Qed.

Lemma array_sort_last cmp h l :
  array_sort cmp (length h) (h ++ [l])
  = Some (length h, h ++ [Js.sort cmp l]).
Proof.
  unfold array_sort, bind, array_read, array_write, ret, store, ref in *.
  rewrite list_lookup_middle by done.
  rewrite decide_True by (rewrite length_app; simpl; lia).
  replace (length h) with (length h + 0)%nat at 2 by lia.
  by rewrite insert_app_r.
Qed.

Lemma searchMovies_st_spec (movies : ref) (query : string) h l :
  h !! movies = Some l ->
  searchMovies_st movies query h
  = Some (length h, h ++ [searchMovies l query]).
Proof.
  intros Hr. unfold searchMovies_st, searchMovies.
  unfold bind at 1. unfold array_find, bind, array_read, ret. rewrite Hr.
  destruct (List.find _ l) as [exactMatch|]; [done|].
  cbv zeta. destruct (prop_truthy _ "actors").
  { by apply array_filter_spec. }
  destruct (_ && _).
  - unfold bind. erewrite array_filter_spec by done. apply array_sort_last.
  - by apply array_filter_spec.
Qed.
End Store.

(** ** [searchMovies]: the exact-title shortcut *)

Lemma first_with_iff {A} (P Q : A -> Prop) (l : list A) (m : A) :
  (forall x, P x <-> Q x) -> first_with P l m -> first_with Q l m.
Proof.
  intros HPQ (pre & post & -> & Hm & Hpre). exists pre, post.
  repeat split; [by apply HPQ|].
  eapply Forall_impl; [exact Hpre|]. intros x Hx HQ. by apply Hx, HPQ.
Qed.

Section Shortcut.
Context `{JsNumber number}.
Implicit Types (movie : Movie number) (movies : list (Movie number)).

Lemma searchMovies_shortcut movies (query : string) :
  (exists movie, movie ∈ movies /\ equals_ci (movie_name movie) query) ->
  exists m,
    first_with (fun x => equals_ci (movie_name x) query) movies m /\
    searchMovies movies query = [m].
Proof.
  intros (movie & Hin & Heq).
  destruct (find_is_Some (isExactTitle query) movies movie Hin) as [m Hm].
  { by apply isExactTitle_spec. }
  exists m. split.
  - apply find_first_with in Hm. revert Hm. apply first_with_iff.
    intros x. apply isExactTitle_spec.
  - unfold searchMovies. by rewrite Hm.
Qed.

Lemma searchMovies_no_shortcut movies (query : string) :
  (forall movie, movie ∈ movies -> ~ equals_ci (movie_name movie) query) ->
  List.find (isExactTitle query) movies = None.
Proof.
  intros Hnone. destruct (List.find _ movies) as [m|] eqn:Hfind; [|done].
  apply find_some in Hfind as [Hin Hm].
  apply list_elem_of_In in Hin. apply isExactTitle_spec in Hm.
  by destruct (Hnone m Hin).
Qed.

(** C1. If some record's title equals the whole query, ignoring case,
    [searchMovies] returns the one-element list of the first such record
    of the list, whatever [parseUserQuery] would make of the query. *)
Theorem searchMovies_exact_title movies (query : string) :
  (exists movie, movie ∈ movies /\ equals_ci (movie_name movie) query) ->
  exists m,
    first_with (fun x => equals_ci (movie_name x) query) movies m /\
    searchMovies movies query = [m].
Proof. apply searchMovies_shortcut. Qed.

(** C5, as amended. In a list holding a record titled "Matrix" and a
    record titled "The Matrix Reloaded", the query "Matrix" takes the
    exact-title shortcut: the result is the one-element list of the first
    record whose title is "Matrix" up to case, and the record titled
    "The Matrix Reloaded" is not returned. *)
Theorem searchMovies_Matrix movies (a b : Movie number) :
  a ∈ movies -> b ∈ movies ->
  movie_name a = "Matrix" -> movie_name b = "The Matrix Reloaded" ->
  exists m,
    first_with (fun x => equals_ci (movie_name x) "Matrix") movies m /\
    searchMovies movies "Matrix" = [m] /\
    b ∉ searchMovies movies "Matrix".
Proof.
  intros Ha _ Hna Hnb.
  destruct (searchMovies_shortcut movies "Matrix") as (m & Hfirst & Hres).
  { exists a. split; [done|]. unfold equals_ci. by rewrite Hna. }
  exists m. repeat split; [done..|].
  rewrite Hres. intros ->%list_elem_of_singleton.
  destruct Hfirst as (_ & _ & _ & Hm & _).
  unfold equals_ci in Hm. by rewrite Hnb in Hm.
Qed.
End Shortcut.

Lemma searchMovies_exact_title_witness :
  exists m,
    first_with (fun x => equals_ci (movie_name x) "INCEPTION")
               [heat; inception; big] m /\
    searchMovies [heat; inception; big] "INCEPTION" = [m].
Proof.
  apply searchMovies_exact_title. exists inception.
  split; [set_solver|reflexivity].
Defined.

Lemma searchMovies_Matrix_witness :
  exists m,
    first_with (fun x => equals_ci (movie_name x) "Matrix")
               [matrix_reloaded; matrix] m /\
    searchMovies [matrix_reloaded; matrix] "Matrix" = [m] /\
    matrix_reloaded ∉ searchMovies [matrix_reloaded; matrix] "Matrix".
Proof.
  apply (searchMovies_Matrix _ matrix matrix_reloaded);
    [set_solver|set_solver|reflexivity|reflexivity].
Defined.

(** C5, as stated, fails: with a record titled "Matrix" and a record
    titled "The Matrix Reloaded" in the list, the query "Matrix" does not
    return both. *)
Lemma searchMovies_Matrix_not_both :
  matrix ∈ [matrix; matrix_reloaded] /\
  matrix_reloaded ∈ [matrix; matrix_reloaded] /\
  searchMovies [matrix; matrix_reloaded] "Matrix" = [matrix] /\
  ~ (matrix ∈ searchMovies [matrix; matrix_reloaded] "Matrix" /\
     matrix_reloaded ∈ searchMovies [matrix; matrix_reloaded] "Matrix").
Proof.
  split; [set_solver|]. split; [set_solver|]. split; [reflexivity|].
  change (searchMovies [matrix; matrix_reloaded] "Matrix") with [matrix].
  intros [_ Hin%list_elem_of_singleton]. discriminate Hin.
Qed.

(** ** [filterMovies] *)

Section FilterMovies.
Context `{JsNumber number}.
Implicit Types (movie : Movie number) (movies : list (Movie number)).
Implicit Types (filters : gmap string string).

(** C3. [filterMovies] keeps, in the order of the list, exactly the
    records that satisfy every entry of the filter set by the Field
    Matching Rule, in which an empty value comes first and always
    matches, and in which the field is what [movie[f]] reads: a property
    of the record or one it inherits. A record for which that is
    [undefined] is not kept when the value is not empty. A record with
    genre "Action|Crime|Drama" matches the genre filters "crime" and
    "dram". *)
Theorem filterMovies_rule movies filters :
  selects (satisfies filters) movies (filterMovies movies filters) /\
  (forall movie f v,
     filters !! f = Some v -> v <> "" -> get movie f = VUndefined ->
     movie ∉ filterMovies movies filters) /\
  (forall movie, genre movie = "Action|Crime|Drama" ->
     fieldMatches movie "genre" "crime" /\
     fieldMatches movie "genre" "dram").
Proof.
  split; [apply filterMovies_selects|]. split.
  - intros movie f v Hf Hv Hundef
      [_ Hall%satisfies_spec]%list_elem_of_In%filter_In.
    destruct (Hall f v Hf) as [?|[? _]]; done.
  - intros movie Hgenre. rewrite <- !matchesEntry_spec.
    unfold matchesEntry, containsValue.
    change (get movie "genre") with (VString (number:=number) (genre movie)).
    cbn [String_]. by rewrite Hgenre.
Qed.

Lemma every_union (f : string * string -> bool) filters1 filters2 :
  filters1 ##ₘ filters2 ->
  every f (filters1 ∪ filters2) = every f filters1 && every f filters2.
Proof.
  intros Hdisj. apply eq_true_iff_eq.
  rewrite andb_true_iff, !every_spec. split.
  - intros Hall. split; intros k v Hkv; apply Hall.
    + by apply lookup_union_Some_l.
    + by apply lookup_union_Some_r.
  - intros [H1 H2] k v Hkv.
    apply lookup_union_Some in Hkv as [?|?]; auto.
Qed.

(** C7. Filtering by [F1] and then by [F2] is filtering by the union
    of the two filter sets, when they have no key in common. *)
Theorem filterMovies_compose movies filters1 filters2 :
  dom filters1 ## dom filters2 ->
  filterMovies (filterMovies movies filters1) filters2
  = filterMovies movies (filters1 ∪ filters2).
Proof.
  intros Hdisj%map_disjoint_dom. unfold filterMovies.
  rewrite filter_filter. apply filter_ext. intros movie.
  by rewrite every_union.
Qed.

(** C8. An entry with the empty string as value excludes no record:
    with [f] set to the empty string the filter set selects what it
    selects without a key [f], so extending a filter set by a new entry
    with the empty string leaves the result as it was. *)
Theorem filterMovies_empty_value movies filters (f : string) :
  filterMovies movies (<[f := ""]> filters)
  = filterMovies movies (delete f filters) /\
  (filters !! f = None ->
   filterMovies movies (<[f := ""]> filters) = filterMovies movies filters).
Proof.
  assert (filterMovies movies (<[f := ""]> filters)
          = filterMovies movies (delete f filters)) as Hdel.
  { unfold filterMovies. apply filter_ext. intros movie.
    apply eq_true_iff_eq. rewrite !every_spec. split.
    - intros Hall k v [Hk Hkv]%lookup_delete_Some. apply Hall.
      by rewrite lookup_insert_ne.
    - intros Hall k v [[<- <-]|[Hk Hkv]]%lookup_insert_Some; [done|].
      apply Hall. by rewrite lookup_delete_ne. }
  split; [done|]. intros Hfresh. by rewrite Hdel, delete_id.
Qed.
End FilterMovies.

Lemma filterMovies_rule_witness :
  selects (satisfies {[ "genre" := "crime" ]}) [heat; big]
          (filterMovies [heat; big] {[ "genre" := "crime" ]}) /\
  (heat ∉ filterMovies [heat; big] {[ "director" := "mann" ]}) /\
  fieldMatches heat "genre" "crime" /\ fieldMatches heat "genre" "dram".
Proof.
  destruct (filterMovies_rule [heat; big] {[ "genre" := "crime" ]})
    as (Hsel & _ & Hex).
  destruct (filterMovies_rule [heat; big] {[ "director" := "mann" ]})
    as (_ & Hundef & _).
  split; [exact Hsel|]. split; [|apply Hex; reflexivity].
  apply (Hundef heat "director" "mann"); [reflexivity|discriminate|].
  reflexivity.
Defined.

(** A name that the records inherit from [Object.prototype] is not
    [undefined]: the filter looks into the text of the function. A name
    that is no property at all keeps no record. *)
Example filterMovies_inherited :
  filterMovies [heat; big] {[ "constructor" := "object" ]} = [heat; big] /\
  filterMovies [heat; big] {[ "toString" := "native code" ]} = [heat; big] /\
  filterMovies [heat; big] {[ "director" := "mann" ]} = [].
Proof. by vm_compute. Qed.

Lemma filterMovies_compose_witness :
  filterMovies (filterMovies [heat; big; up] {[ "genre" := "drama" ]})
               {[ "actors" := "hanks" ]}
  = filterMovies [heat; big; up]
                 ({[ "genre" := "drama" ]} ∪ {[ "actors" := "hanks" ]}).
Proof.
  apply filterMovies_compose. rewrite !dom_singleton_L.
  apply disjoint_singleton_l. rewrite elem_of_singleton. discriminate.
Defined.

Lemma filterMovies_empty_value_witness :
  filterMovies [heat; big; up] (<["country" := ""]> {[ "genre" := "drama" ]})
  = filterMovies [heat; big; up] {[ "genre" := "drama" ]}.
Proof.
  apply (filterMovies_empty_value [heat; big; up] {[ "genre" := "drama" ]}).
  reflexivity.
Defined.

(** ** [searchMovies]: the actor branch and the title search *)

Lemma StronglySorted_impl {A} (R1 R2 : A -> A -> Prop) (l : list A) :
  (forall a b, R1 a b -> R2 a b) -> StronglySorted R1 l -> StronglySorted R2 l.
Proof.
  intros HR. induction 1 as [|x l Hl IH Hx]; constructor; [done|].
  eapply Forall_impl; [exact Hx|]. auto.
Qed.

Lemma size_two_keys (filters : gmap string string) (k1 k2 : string) :
  k1 <> k2 -> is_Some (filters !! k1) -> is_Some (filters !! k2) ->
  size filters <> 1%nat.
Proof.
  intros Hne H1 [v2 H2] Hsize.
  pose proof (map_size_delete_Some k1 filters H1) as Hdel.
  rewrite Hsize in Hdel. simpl in Hdel. apply map_size_empty_inv in Hdel.
  apply (f_equal (fun m => m !! k2)) in Hdel.
  rewrite lookup_delete_ne, lookup_empty in Hdel by done. congruence.
Qed.

Section Branches.
Context `{JsNumber number}.
Implicit Types (movie : Movie number) (movies : list (Movie number)).

(** C2. When no title equals the query and [parseUserQuery] yields an
    [actors] entry, [searchMovies] returns exactly the records that
    satisfy every other entry by the Field Matching Rule and whose
    [actors] field contains the actor text, ignoring case. *)
Theorem searchMovies_actor movies (query a : string) :
  (forall movie, movie ∈ movies -> ~ equals_ci (movie_name movie) query) ->
  parseUserQuery query !! "actors" = Some a ->
  selects (fun movie =>
             satisfies (delete "actors" (parseUserQuery query)) movie /\
             contains_ci (actors movie) a)
          movies (searchMovies movies query).
Proof.
  intros Hnone Ha. unfold searchMovies.
  rewrite searchMovies_no_shortcut by done. cbv zeta.
  unfold prop_truthy at 1, prop at 1. rewrite Ha. cbn [default].
  destruct (Js.truthy a) eqn:Htruthy.
  { apply selects_filter. intros movie. apply matchesActorSearch_spec. }
  apply truthy_false in Htruthy. subst a.
  assert (prop_truthy (parseUserQuery query) "movie_name"
          && (size (parseUserQuery query) =? 1)%nat = false) as ->.
  { apply andb_false_iff. unfold prop_truthy.
    destruct (parseUserQuery query !! "movie_name") as [t|] eqn:Ht;
      [|by left].
    right. apply Nat.eqb_neq.
    by apply (size_two_keys _ "actors" "movie_name"). }
  apply selects_filter. intros movie. rewrite satisfies_spec. split.
  - intros Hall. split.
    + intros f v [_ Hfv]%lookup_delete_Some. by apply Hall.
    + by exists "", (Js.toLowerCase (actors movie)).
  - intros [Hall _] f v Hfv. destruct (decide (f = "actors")) as [->|Hf].
    + left. congruence.
    + apply Hall. by rewrite lookup_delete_ne.
Qed.

(** C4, as amended. When no title equals the query and
    [parseUserQuery] yields the single entry [movie_name] with a
    non-empty text, [searchMovies] returns the records whose title
    contains the text, ignoring case, each as often as the list has it,
    ordered so that a title equal to the text comes before one that is
    not, and within one class a shorter title before a longer one. *)
Theorem searchMovies_title_only movies (query t : string) :
  (forall movie, movie ∈ movies -> ~ equals_ci (movie_name movie) query) ->
  parseUserQuery query = {[ "movie_name" := t ]} ->
  t <> "" ->
  exists found,
    selects (fun movie => contains_ci (movie_name movie) t) movies found /\
    searchMovies movies query ≡ₚ found /\
    StronglySorted (ranksBefore t) (searchMovies movies query).
Proof.
  intros Hnone Hparse Ht. unfold searchMovies.
  rewrite searchMovies_no_shortcut by done. rewrite Hparse. cbv zeta.
  unfold prop_truthy, prop.
  rewrite lookup_singleton_ne by done.
  rewrite lookup_singleton_eq, map_size_singleton. cbn [default].
  apply truthy_true in Ht. rewrite Ht. cbn [andb Nat.eqb].
  exists (List.filter (titleIncludes t) movies). split; [|split].
  - apply selects_filter. intros movie. apply titleIncludes_spec.
  - apply sort_perm.
  - eapply StronglySorted_impl; [apply byRelevance_ranks|].
    apply sort_sorted.
    + intros a b. apply byRelevance_total.
    + intros a b c. apply byRelevance_trans.
Qed.
End Branches.

Lemma searchMovies_actor_witness :
  selects (fun movie =>
             satisfies (delete "actors" (parseUserQuery "actor Tom Hanks"))
                       movie /\
             contains_ci (actors movie) "Tom Hanks")
          [heat; big; up] (searchMovies [heat; big; up] "actor Tom Hanks").
Proof.
  apply searchMovies_actor; [|reflexivity].
  intros movie Hin. unfold equals_ci.
  repeat (apply elem_of_cons in Hin as [->|Hin]; [discriminate|]).
  by apply elem_of_nil in Hin.
Defined.

Lemma searchMovies_title_only_witness :
  exists found,
    selects (fun movie => contains_ci (movie_name movie) "Matrix")
            [matrix_reloaded; heat; matrix] found /\
    searchMovies [matrix_reloaded; heat; matrix] " Matrix" ≡ₚ found /\
    StronglySorted (ranksBefore "Matrix")
                   (searchMovies [matrix_reloaded; heat; matrix] " Matrix").
Proof.
  apply searchMovies_title_only; [|reflexivity|discriminate].
  intros movie Hin. unfold equals_ci.
  repeat (apply elem_of_cons in Hin as [->|Hin]; [discriminate|]).
  by apply elem_of_nil in Hin.
Defined.

(** C4, as stated, fails when the one [movie_name] entry has the empty
    text: the query "movie " parses to it, the title search is skipped and
    the list comes back in its own order, a longer title before a shorter
    one. *)
Lemma searchMovies_title_only_empty_text :
  (forall m, m ∈ [big; up] -> ~ equals_ci (movie_name m) "movie ") /\
  parseUserQuery "movie " = {[ "movie_name" := "" ]} /\
  (forall m, m ∈ [big; up] -> contains_ci (movie_name m) "") /\
  searchMovies [big; up] "movie " = [big; up] /\
  ~ StronglySorted (ranksBefore "") (searchMovies [big; up] "movie ").
Proof.
  split; [|split; [reflexivity|split; [|split; [reflexivity|]]]].
  - intros m Hin. unfold equals_ci.
    repeat (apply elem_of_cons in Hin as [->|Hin]; [discriminate|]).
    by apply elem_of_nil in Hin.
  - intros m _. by exists "", (Js.toLowerCase (movie_name m)).
  - change (searchMovies [big; up] "movie ") with [big; up].
    intros Hsorted. apply StronglySorted_inv in Hsorted as [_ Hbig].
    apply Forall_inv in Hbig as [_ Hlen].
    assert (3 <= 2)%nat as Hle; [|lia].
    apply Hlen. unfold equals_ci. split; discriminate.
Qed.

(** ** [parseUserQuery]: the fallback *)

Lemma commonGenres_words :
  Forall (fun g => g <> "" /\ Js.trimStart g = g /\ Js.trimEnd g = g /\
                   Js.toLowerCase g = g) commonGenres.
Proof. repeat constructor; discriminate. Qed.

Lemma commonGenres_includes (query : string) :
  existsb (fun genre => Js.includes (Js.toLowerCase (Js.trim query)) genre)
          commonGenres = true
  <-> exists g, g ∈ commonGenres /\ contains_ci query g.
Proof.
  rewrite existsb_exists. pose proof commonGenres_words as Hwords.
  rewrite Forall_forall in Hwords.
  split; intros (g & Hin & Hg); exists g.
  - apply list_elem_of_In in Hin.
    destruct (Hwords g Hin) as (Hne & Hstart & Hend & Hlow).
    split; [done|]. unfold contains_ci.
    by rewrite Hlow, <- includes_spec, <- (includes_trim query g).
  - destruct (Hwords g Hin) as (Hne & Hstart & Hend & Hlow).
    split; [by apply list_elem_of_In|].
    unfold contains_ci in Hg. rewrite Hlow, <- includes_spec in Hg.
    by rewrite includes_trim.
Qed.

(** C6. When none of the eight extractors yields a field and the trimmed
    query is not empty, [parseUserQuery] returns one entry whose value is
    the trimmed query: under [genre] if the query contains one of the nine
    genre words, ignoring case, and under [movie_name] if not. "thriller"
    becomes a genre filter and "Whiplash" a title filter. *)
Theorem parseUserQuery_fallback (query : string) :
  extracted genre_re query = None ->
  extracted title_re query = None ->
  extracted director_re query = None ->
  extracted actor_re query = None ->
  extracted year_re query = None ->
  extracted country_re query = None ->
  extracted language_re query = None ->
  extracted keyword_re query = None ->
  Js.trim query <> "" ->
  ((exists g, g ∈ commonGenres /\ contains_ci query g) ->
   parseUserQuery query = {[ "genre" := Js.trim query ]}) /\
  (~ (exists g, g ∈ commonGenres /\ contains_ci query g) ->
   parseUserQuery query = {[ "movie_name" := Js.trim query ]}) /\
  parseUserQuery "thriller" = {[ "genre" := "thriller" ]} /\
  parseUserQuery "Whiplash" = {[ "movie_name" := "Whiplash" ]}.
Proof.
  intros Hgenre Htitle Hdirector Hactor Hyear Hcountry Hlanguage Hkeyword Hq.
  assert (parseUserQuery query = fallback query ∅) as ->.
  { unfold parseUserQuery, extract.
    by rewrite Hgenre, Htitle, Hdirector, Hactor, Hyear, Hcountry,
      Hlanguage, Hkeyword. }
  unfold fallback. rewrite map_size_empty. apply truthy_true in Hq.
  rewrite Hq. cbn [Nat.eqb andb]. rewrite !insert_empty.
  pose proof (commonGenres_includes query) as Hinc.
  destruct (existsb _ commonGenres).
  - repeat split; try done. intros Hno. destruct Hno. by apply Hinc.
  - repeat split; try done. intros Hyes. apply Hinc in Hyes. done.
Qed.

Lemma parseUserQuery_fallback_witness :
  ((exists g, g ∈ commonGenres /\ contains_ci " Sci-Fi classics" g) ->
   parseUserQuery " Sci-Fi classics"
   = {[ "genre" := Js.trim " Sci-Fi classics" ]}) /\
  (~ (exists g, g ∈ commonGenres /\ contains_ci " Sci-Fi classics" g) ->
   parseUserQuery " Sci-Fi classics"
   = {[ "movie_name" := Js.trim " Sci-Fi classics" ]}) /\
  parseUserQuery "thriller" = {[ "genre" := "thriller" ]} /\
  parseUserQuery "Whiplash" = {[ "movie_name" := "Whiplash" ]}.
Proof.
  exact (parseUserQuery_fallback " Sci-Fi classics"
           eq_refl eq_refl eq_refl eq_refl eq_refl eq_refl eq_refl eq_refl
           ltac:(discriminate)).
Defined.

(** C10. The trigger words match anywhere, also inside a longer word:
    the "In" of "Inception" fires the language extractor, which captures
    "ception", so [parseUserQuery] returns that language filter and not
    the title filter of the fallback. *)
Theorem parseUserQuery_Inception :
  extracted language_re "Inception" = Some "ception" /\
  parseUserQuery "Inception" = {[ "language" := "ception" ]} /\
  parseUserQuery "Inception" <> {[ "movie_name" := "Inception" ]}.
Proof.
  split; [by vm_compute|]. split; [by vm_compute|].
  intros Heq. apply (f_equal (fun m => m !! "language")) in Heq.
  vm_compute in Heq. discriminate Heq.
Qed.

(** ** [sort] with a consistent comparator has one outcome *)

Section SortUnique.
Context {A : Type} (cmp : A -> A -> Z).

Lemma consistent_flip (l : list A) a b :
  Js.consistent cmp l -> a ∈ l -> b ∈ l -> cmp a b > 0 -> cmp b a < 0.
Proof.
  intros Hc Ha Hb Hab.
  destruct (Hc a b a Ha Hb Ha) as (Hrefl & _ & _ & _ & Hgt).
  destruct (Hc b a b Hb Ha Hb) as (_ & Hsym & _).
  destruct (Z.lt_trichotomy (cmp b a) 0) as [?|[Heq|Hpos]]; [done|..].
  - apply Hsym in Heq. lia.
  - assert (cmp a a > 0) by (apply Hgt; lia). lia.
Qed.

Lemma consistent_flip' (l : list A) a b :
  Js.consistent cmp l -> a ∈ l -> b ∈ l -> cmp a b < 0 -> cmp b a > 0.
Proof.
  intros Hc Ha Hb Hab.
  destruct (Hc a b a Ha Hb Ha) as (Hrefl & _ & _ & Hlt & _).
  destruct (Hc b a b Hb Ha Hb) as (_ & Hsym & _).
  destruct (Z.lt_trichotomy (cmp b a) 0) as [Hneg|[Heq|Hpos]]; [..|lia].
  - assert (cmp a a < 0) by (by apply Hlt). lia.
  - apply Hsym in Heq. lia.
Qed.

Lemma consistent_le_trans (l : list A) a b c :
  Js.consistent cmp l -> a ∈ l -> b ∈ l -> c ∈ l ->
  cmp a b <= 0 -> cmp b c <= 0 -> cmp a c <= 0.
Proof.
  intros Hc Ha Hb Hcl Hab Hbc.
  destruct (Hc a b c Ha Hb Hcl) as (_ & _ & Heq & Hlt & _).
  destruct (Z.lt_trichotomy (cmp a c) 0) as [?|[?|Hpos]]; [lia|lia|].
  exfalso. apply Z.lt_gt in Hpos.
  assert (cmp a b < 0 \/ cmp a b = 0) as [Hab'|Hab'] by lia;
    assert (cmp b c < 0 \/ cmp b c = 0) as [Hbc'|Hbc'] by lia.
  - specialize (Hlt Hab' Hbc'). lia.
  - (* a < b, b = c, a > c *)
    pose proof (consistent_flip' l a b Hc Ha Hb Hab') as Hba.
    destruct (Hc c b b Hcl Hb Hb) as (_ & Hsym & _).
    destruct (Hc b c b Hb Hcl Hb) as (_ & Hsym' & _).
    destruct (Hc a c b Ha Hcl Hb) as (_ & _ & _ & _ & Hgt).
    (* a > c and c ? b : c = b so not > ; use b > a > c *)
    destruct (Hc b a c Hb Ha Hcl) as (_ & _ & _ & _ & Hgt').
    specialize (Hgt' Hba Hpos). lia.
  - (* a = b, b < c, a > c *)
    pose proof (consistent_flip' l b c Hc Hb Hcl Hbc') as Hcb.
    destruct (Hc a c b Ha Hcl Hb) as (_ & _ & _ & _ & Hgt).
    specialize (Hgt Hpos Hcb). lia.
  - specialize (Heq Hab' Hbc'). lia.
Qed.


Lemma consistent_incl (l l' : list A) :
  (forall x, x ∈ l' -> x ∈ l) -> Js.consistent cmp l -> Js.consistent cmp l'.
Proof. intros Hincl Hc a b c Ha Hb Hcl. apply Hc; auto. Qed.

End SortUnique.

Section StableSort.
Context (c : nat -> nat -> Z).

Lemma StronglySorted_lookups {B} (R : B -> B -> Prop) (l : list B) :
  StronglySorted R l <->
  forall p q x y, l !! p = Some x -> l !! q = Some y -> (p < q)%nat -> R x y.
Proof.
  split.
  - induction 1 as [|z l Hl IH Hz]; intros p q x y Hp Hq Hpq; [done|].
    destruct q as [|q]; [lia|]. destruct p as [|p].
    + injection Hp as <-. rewrite Forall_forall in Hz. apply Hz.
      by eapply list_elem_of_lookup_2.
    + apply (IH p q); [done..|lia].
  - induction l as [|z l IH]; intros Hall; constructor.
    + apply IH. intros p q x y Hp Hq Hpq.
      apply (Hall (S p) (S q)); [done..|lia].
    + apply Forall_forall. intros y [q Hq]%list_elem_of_lookup.
      apply (Hall 0%nat (S q)); [done..|lia].
Qed.

Lemma insert_by_stable (j : nat) (t : list nat) :
  Js.consistent c (j :: t) ->
  Forall (fun k => (j < k)%nat) t ->
  StronglySorted (Js.stably c) t ->
  StronglySorted (Js.stably c) (Js.insert_by c j t).
Proof.
  intros Hc Hlt Hsorted. induction Hsorted as [|k t Ht IH Hk]; simpl.
  { repeat constructor. }
  apply Forall_cons in Hlt as [Hjk Hlt].
  destruct (c j k <=? 0) eqn:Hle.
  - apply Z.leb_le in Hle. constructor; [by constructor|].
    constructor.
    + unfold Js.stably. lia.
    + rewrite Forall_forall in Hk, Hlt. apply Forall_forall. intros m Hm.
      assert (c k m <= 0) as Hkm by (destruct (Hk m Hm); lia).
      assert (c j m <= 0) as Hjm.
      { apply (consistent_le_trans c (j :: k :: t) j k m Hc); try done.
        - apply list_elem_of_here.
        - apply list_elem_of_further, list_elem_of_here.
        - by do 2 apply list_elem_of_further. }
      specialize (Hlt m Hm). unfold Js.stably. lia.
  - apply Z.leb_gt in Hle. constructor.
    + apply IH; [|done].
      eapply consistent_incl; [|exact Hc]. intros x Hx.
      apply elem_of_cons in Hx as [->|Hx]; [apply list_elem_of_here|].
      by do 2 apply list_elem_of_further.
    + rewrite insert_by_perm. constructor; [|done]. left.
      apply (consistent_flip c (j :: k :: t)); [done|..|lia].
      * apply list_elem_of_here.
      * apply list_elem_of_further, list_elem_of_here.
Qed.

Lemma sort_stable (js : list nat) :
  Js.consistent c js -> StronglySorted lt js ->
  StronglySorted (Js.stably c) (Js.sort c js).
Proof.
  intros Hc Hinc. induction Hinc as [|j js Hjs IH Hj]; simpl; [constructor|].
  fold (Js.sort c js). apply insert_by_stable.
  - eapply consistent_incl; [|exact Hc]. intros x Hx.
    apply elem_of_cons in Hx as [->|Hx]; [apply list_elem_of_here|].
    apply list_elem_of_further. by rewrite sort_perm in Hx.
  - by rewrite sort_perm.
  - apply IH. eapply consistent_incl; [|exact Hc].
    intros x Hx. by apply list_elem_of_further.
Qed.

Lemma stably_antisym (l : list nat) (j k : nat) :
  Js.consistent c l -> j ∈ l -> k ∈ l ->
  Js.stably c j k -> Js.stably c k j -> j = k.
Proof.
  intros Hc Hj Hk Hjk Hkj. exfalso.
  destruct (Hc j k j Hj Hk Hj) as (_ & Hsym & _).
  destruct Hjk as [Hjk|[Hjk ?]].
  - pose proof (consistent_flip' c l j k Hc Hj Hk Hjk).
    destruct Hkj as [?|[? _]]; lia.
  - specialize (Hsym Hjk). destruct Hkj as [?|[_ ?]]; lia.
Qed.
End StableSort.

Section SortOutcome.
Context {A : Type} (cmp : A -> A -> Z).
Implicit Types (l : list A) (idx : list nat).

Lemma insert_by_Forall2 l x j (s : list A) (t : list nat) :
  l !! j = Some x ->
  Forall2 (fun y k => l !! k = Some y) s t ->
  Forall2 (fun y k => l !! k = Some y)
          (Js.insert_by cmp x s) (Js.insert_by (Js.cmp_at cmp l) j t).
Proof.
  intros Hx Hst. induction Hst as [|y k s t Hy Hst IH]; simpl.
  { by repeat constructor. }
  unfold Js.cmp_at at 1. rewrite Hx, Hy.
  destruct (cmp x y <=? 0); by repeat constructor.
Qed.

Lemma sort_Forall2 l (s : list A) (t : list nat) :
  Forall2 (fun y k => l !! k = Some y) s t ->
  Forall2 (fun y k => l !! k = Some y)
          (Js.sort cmp s) (Js.sort (Js.cmp_at cmp l) t).
Proof.
  induction 1 as [|y k s t Hy Hst IH]; simpl; [constructor|].
  by apply insert_by_Forall2.
Qed.

Lemma Forall2_indices l :
  Forall2 (fun y k => l !! k = Some y) l (seq 0 (length l)).
Proof.
  apply Forall2_same_length_lookup_2; [by rewrite length_seq|].
  intros i x k Hx [-> _]%lookup_seq. done.
Qed.

Lemma consistent_at l idx :
  Js.consistent cmp l -> idx ≡ₚ seq 0 (length l) ->
  Js.consistent (Js.cmp_at cmp l) idx.
Proof.
  intros Hc Hperm j k m Hj Hk Hm.
  rewrite Hperm, elem_of_seq in Hj, Hk, Hm.
  destruct (lookup_lt_is_Some_2 l j) as [a Ha]; [lia|].
  destruct (lookup_lt_is_Some_2 l k) as [b Hb]; [lia|].
  destruct (lookup_lt_is_Some_2 l m) as [d Hd]; [lia|].
  unfold Js.cmp_at. rewrite Ha, Hb, Hd.
  apply Hc; by eapply list_elem_of_lookup_2.
Qed.

Lemma sorts_stably l idx :
  Js.consistent cmp l ->
  idx ≡ₚ seq 0 (length l) ->
  (forall p q j k a b,
     idx !! p = Some j -> idx !! q = Some k ->
     l !! j = Some a -> l !! k = Some b ->
     (cmp a b < 0 -> (p < q)%nat) /\
     (cmp a b = 0 -> (j < k)%nat -> (p < q)%nat)) ->
  StronglySorted (Js.stably (Js.cmp_at cmp l)) idx.
Proof.
  intros Hc Hperm Hrule. apply StronglySorted_lookups.
  intros p q j k Hp Hq Hpq.
  assert (NoDup idx) as Hnodup by (rewrite Hperm; apply NoDup_seq).
  assert (j <> k) as Hjk.
  { intros ->. pose proof (NoDup_lookup _ _ _ _ Hnodup Hp Hq). lia. }
  pose proof (list_elem_of_lookup_2 _ _ _ Hp) as Hj.
  pose proof (list_elem_of_lookup_2 _ _ _ Hq) as Hk.
  rewrite Hperm, elem_of_seq in Hj, Hk.
  destruct (lookup_lt_is_Some_2 l j) as [a Ha]; [lia|].
  destruct (lookup_lt_is_Some_2 l k) as [b Hb]; [lia|].
  pose proof (list_elem_of_lookup_2 _ _ _ Ha) as Hain.
  pose proof (list_elem_of_lookup_2 _ _ _ Hb) as Hbin.
  unfold Js.stably, Js.cmp_at. rewrite Ha, Hb.
  destruct (Hrule q p k j b a Hq Hp Hb Ha) as [Hlt Heq].
  destruct (Hc a b a Hain Hbin Hain) as (_ & Hsym & _).
  destruct (Z.lt_trichotomy (cmp a b) 0) as [?|[Hab|Hab]]; [by left|..].
  - right. split; [done|].
    destruct (decide (j < k)%nat); [done|].
    specialize (Heq (Hsym Hab)). lia.
  - apply Z.lt_gt in Hab.
    pose proof (consistent_flip cmp l a b Hc Hain Hbin Hab). lia.
Qed.

(** With a consistent comparator the language leaves the engine no
    choice: whatever [sort] does, the array ends as insertion leaves
    it. *)
Lemma sort_unique l l' :
  Js.consistent cmp l -> Js.sorts cmp l l' -> l' = Js.sort cmp l.
Proof.
  intros Hc (idx & Hperm & Hl' & Hrule).
  assert (idx = Js.sort (Js.cmp_at cmp l) (seq 0 (length l))) as Hidx.
  { apply (StronglySorted_unique_strong (Js.stably (Js.cmp_at cmp l))).
    - intros j k Hj Hk. apply (stably_antisym _ idx);
        [by apply consistent_at|done|].
      by rewrite Hperm, <- (sort_perm (Js.cmp_at cmp l)).
    - by apply sorts_stably.
    - apply sort_stable; [by apply consistent_at|].
      apply StronglySorted_lookups.
      intros p q x y [-> _]%lookup_seq [-> _]%lookup_seq. lia.
    - by rewrite sort_perm. }
  pose proof (sort_Forall2 l l _ (Forall2_indices l)) as Hsort.
  rewrite <- Hidx in Hsort.
  apply Forall2_flip in Hl', Hsort.
  eapply Forall2_unique; [exact Hl'|exact Hsort|].
  intros j x y Hx Hy. cbv beta in *. congruence.
Qed.

(** Insertion is one of the arrangements the language allows. *)
Lemma sort_sorts l : Js.consistent cmp l -> Js.sorts cmp l (Js.sort cmp l).
Proof.
  intros Hc. exists (Js.sort (Js.cmp_at cmp l) (seq 0 (length l))).
  split; [apply sort_perm|]. split.
  { apply sort_Forall2, Forall2_indices. }
  assert (StronglySorted (Js.stably (Js.cmp_at cmp l))
            (Js.sort (Js.cmp_at cmp l) (seq 0 (length l)))) as Hsorted.
  { apply sort_stable; [by apply consistent_at|].
    apply StronglySorted_lookups.
    intros p q x y [-> _]%lookup_seq [-> _]%lookup_seq. lia. }
  rewrite StronglySorted_lookups in Hsorted.
  intros p q j k a b Hp Hq Ha Hb.
  pose proof (list_elem_of_lookup_2 _ _ _ Ha) as Hain.
  pose proof (list_elem_of_lookup_2 _ _ _ Hb) as Hbin.
  destruct (Hc a b a Hain Hbin Hain) as (Hrefl & Hsym & _).
  assert ((q < p)%nat -> Js.stably (Js.cmp_at cmp l) k j) as Hback.
  { intros Hqp. by apply (Hsorted q p). }
  unfold Js.stably, Js.cmp_at in Hback. rewrite Ha, Hb in Hback.
  assert (p = q -> j = k /\ a = b) as Hsame.
  { intros ->. split; congruence. }
  split.
  - intros Hab. destruct (lt_eq_lt_dec p q) as [[?|Heq]|Hqp]; [done|..].
    + destruct (Hsame Heq) as [_ ->]. lia.
    + pose proof (consistent_flip' cmp l a b Hc Hain Hbin Hab).
      destruct (Hback Hqp) as [?|[Hba _]]; [lia|].
      destruct (Hc b a b Hbin Hain Hbin) as (_ & Hsym' & _).
      specialize (Hsym' Hba). lia.
  - intros Hab Hjk. destruct (lt_eq_lt_dec p q) as [[?|Heq]|Hqp]; [done|..].
    + destruct (Hsame Heq) as [-> _]. lia.
    + destruct (Hback Hqp) as [Hba|[_ ?]]; [|lia].
      pose proof (consistent_flip' cmp l b a Hc Hbin Hain Hba). lia.
Qed.

End SortOutcome.

(** ** Determinism *)

Lemma forallb_Permutation {A} (f : A -> bool) (l l' : list A) :
  l ≡ₚ l' -> forallb f l = forallb f l'.
Proof.
  induction 1 as [|x l l' _ IH|x y l|l l' l'' _ IH1 _ IH2]; simpl.
  - done.
  - by rewrite IH.
  - by destruct (f x), (f y).
  - by rewrite IH1.
Qed.

Section Determinism.
Context `{JsNumber number}.
Implicit Types (h : store number) (l movies out : list (Movie number)).

Lemma every_enumerates (f : string * string -> bool) filters entries :
  enumerates filters entries -> forallb f entries = every f filters.
Proof. intros Hperm. unfold every. by apply forallb_Permutation. Qed.

Lemma byRelevance_consistent (name : string) l :
  Js.consistent (byRelevance name) l.
Proof.
  intros a b c _ _ _. unfold byRelevance.
  destruct (isExactTitle name a), (isExactTitle name b),
    (isExactTitle name c); simpl; lia.
Qed.

Lemma filterMovies_may_return_iff movies filters out :
  filterMovies_may_return movies filters out <->
  out = filterMovies movies filters.
Proof.
  unfold filterMovies_may_return, filterMovies. split.
  - intros (entries & Henum & ->). apply filter_ext. intros movie.
    by apply every_enumerates.
  - intros ->. exists (map_to_list filters).
    split; [by unfold enumerates|done].
Qed.

Lemma searchMovies_may_return_iff movies (query : string) out :
  searchMovies_may_return movies query out <->
  out = searchMovies movies query.
Proof.
  unfold searchMovies_may_return, searchMovies.
  destruct (List.find _ movies) as [exactMatch|]; [done|]. cbv zeta.
  destruct (prop_truthy _ "actors").
  { split.
    - intros (entries & Henum & ->). apply filter_ext. intros movie.
      unfold matchesActorSearch. by rewrite (every_enumerates _ _ _ Henum).
    - intros ->.
      exists (map_to_list (delete "actors" (parseUserQuery query))).
      split; [by unfold enumerates|done]. }
  destruct (_ && _); [|apply filterMovies_may_return_iff].
  split.
  - apply sort_unique, byRelevance_consistent.
  - intros ->. apply sort_sorts, byRelevance_consistent.
Qed.

End Determinism.


(** * More of the code *)
(** ** Characters *)

Ltac in_list :=
  repeat first [apply list_elem_of_here | apply list_elem_of_further].

Ltac not_in_list H :=
  repeat (apply elem_of_cons in H as [H|H]; [discriminate H|]);
  by apply elem_of_nil in H.

Lemma forall_bool_spec (f : bool -> bool) :
  forall_bool f = true -> forall b, f b = true.
Proof. unfold forall_bool. intros [??]%andb_true_iff []; done. Qed.

Lemma forall_ascii_spec (f : ascii -> bool) :
  forall_ascii f = true -> forall c, f c = true.
Proof.
  unfold forall_ascii. intros Hall [b0 b1 b2 b3 b4 b5 b6 b7].
  pose proof (forall_bool_spec _ Hall b0) as H0. cbv beta in H0.
  pose proof (forall_bool_spec _ H0 b1) as H1. cbv beta in H1.
  pose proof (forall_bool_spec _ H1 b2) as H2. cbv beta in H2.
  pose proof (forall_bool_spec _ H2 b3) as H3. cbv beta in H3.
  pose proof (forall_bool_spec _ H3 b4) as H4. cbv beta in H4.
  pose proof (forall_bool_spec _ H4 b5) as H5. cbv beta in H5.
  pose proof (forall_bool_spec _ H5 b6) as H6. cbv beta in H6.
  exact (forall_bool_spec _ H6 b7).
Qed.

Lemma lower_char_idemp (c : ascii) :
  Js.lower_char (Js.lower_char c) = Js.lower_char c.
Proof. by destruct c as [[] [] [] [] [] [] [] []]. Qed.

Lemma toLowerCase_idemp (s : string) :
  Js.toLowerCase (Js.toLowerCase s) = Js.toLowerCase s.
Proof.
  induction s as [|a s IH]; [done|]. simpl. by rewrite lower_char_idemp, IH.
Qed.

Lemma all_chars_app p (s t : string) :
  all_chars p (s +:+ t) = all_chars p s && all_chars p t.
Proof.
  induction s as [|a s IH]; [done|]. rewrite append_cons. simpl.
  by rewrite IH, andb_assoc.
Qed.

Lemma all_chars_impl (p q : ascii -> bool) (s : string) :
  (forall c, p c = true -> q c = true) ->
  all_chars p s = true -> all_chars q s = true.
Proof.
  intros Hpq. induction s as [|a s IH]; [done|]. simpl.
  intros [Ha Hs]%andb_true_iff. by rewrite (Hpq a Ha), IH.
Qed.

(** ** More on the pattern matcher *)

Lemma steps_consumes r s c s' c' :
  steps r s c s' c' -> exists w, s = w +:+ s'.
Proof.
  induction 1 as [s c|p a s c Hp|p s c|p a s c s' c' Hp _ [w ->]
                 |r1 r2 s c s1 c1 s2 c2 _ [w1 ->] _ [w2 ->]
                 |r1 r2 s c s' c' _ IH|r1 r2 s c s' c' _ IH
                 |r s c s' c' _ IH].
  - by exists "".
  - by exists (String a "").
  - by exists "".
  - by exists (String a w).
  - exists (w1 +:+ w2). by rewrite append_assoc.
  - done.
  - done.
  - done.
Qed.

Lemma first_in_spec ok r s c s' c' :
  first_in ok r = true -> steps r s c s' c' ->
  exists a t, s = String a t /\ ok a = true.
Proof.
  intros Hfirst Hsteps.
  induction Hsteps as [|p a s c Hp| | | | | |]; simpl in Hfirst; try done.
  - exists a, s. split; [done|].
    pose proof (forall_ascii_spec _ Hfirst a) as Ha.
    cbv beta in Ha. by destruct (p a).
  - auto.
  - apply andb_true_iff in Hfirst as [??]. auto.
  - apply andb_true_iff in Hfirst as [??]. auto.
  - auto.
Qed.

Lemma exec_sound_at (r : regex) s cap :
  exec r s = Some cap ->
  exists pre s0 s', s = pre +:+ s0 /\ steps r s0 None s' cap.
Proof.
  induction s as [|a s IH]; simpl.
  - destruct (run r _ "" None) as [x|] eqn:Hrun; [|done].
    intros [= ->]. apply run_sound in Hrun as (s' & c' & Hs & [= ->]).
    by exists "", "", s'.
  - destruct (run r _ (String a s) None) as [x|] eqn:Hrun.
    + intros [= ->]. apply run_sound in Hrun as (s' & c' & Hs & [= ->]).
      by exists "", (String a s), s'.
    + intros Hexec. destruct (IH Hexec) as (pre & s0 & s' & -> & Hs).
      by exists (String a pre), s0, s'.
Qed.

Lemma run_complete {R} r s c s' c' (k : cont) (x : R) :
  steps r s c s' c' -> k s' c' = Some x -> exists y, run r k s c = Some y.
Proof.
  intros Hsteps. revert k x.
  induction Hsteps as [s c|p a s c Hp|p s c|p a s c s' c' Hp _ IH
                      |r1 r2 s c s1 c1 s2 c2 _ IH1 _ IH2
                      |r1 r2 s c s' c' _ IH|r1 r2 s c s' c' _ IH
                      |r s c s' c' _ IH]; intros k x Hk; simpl.
  - eauto.
  - rewrite Hp. eauto.
  - destruct s as [|a s]; simpl; [eauto|].
    destruct (p a); [|eauto]. destruct (star p k s c); eauto.
  - rewrite Hp. destruct (IH k x Hk) as [y Hy].
    change (star p k s c) with (run (Star p) k s c). rewrite Hy. eauto.
  - destruct (IH2 k x Hk) as [y Hy]. exact (IH1 _ y Hy).
  - destruct (IH k x Hk) as [y ->]. eauto.
  - destruct (run r1 k s c); [eauto|]. eauto.
  - eapply IH. exact Hk.
Qed.

Lemma exec_complete r (pre s0 s' : string) cap :
  steps r s0 None s' cap -> exists cap', exec r (pre +:+ s0) = Some cap'.
Proof.
  intros Hsteps.
  assert (exists cap', exec r s0 = Some cap') as Hhere.
  { destruct (run_complete r s0 None s' cap (fun _ cap => Some cap) cap Hsteps
                eq_refl) as [y Hy].
    exists y. destruct s0; simpl; by rewrite Hy. }
  induction pre as [|a pre IH]; [done|].
  rewrite append_cons. simpl. destruct (run r _ _ None); eauto.
Qed.

(** A string with no character that can begin a match has no match. *)
Lemma exec_no_first ok r (s : string) :
  first_in ok r = true ->
  all_chars (fun c => negb (ok c)) s = true ->
  exec r s = None.
Proof.
  intros Hfirst Hall. destruct (exec r s) as [cap|] eqn:Hexec; [|done].
  apply exec_sound_at in Hexec as (pre & s0 & s' & -> & Hsteps).
  destruct (first_in_spec ok r _ _ _ _ Hfirst Hsteps) as (a & t & -> & Ha).
  rewrite all_chars_app in Hall. apply andb_true_iff in Hall as [_ Hall].
  simpl in Hall. rewrite Ha in Hall. done.
Qed.

Lemma extractors_first_alpha :
  Forall (fun kr => first_in is_alpha kr.2 = true) extractors.
Proof. repeat constructor; by vm_compute. Qed.

(** ** More on [trim] *)

Lemma trimStart_head (s : string) :
  Js.trimStart s = "" \/
  exists a t, Js.trimStart s = String a t /\ Js.is_space a = false.
Proof.
  induction s as [|a s IH]; [by left|]. simpl.
  destruct (Js.is_space a) eqn:Ha; [done|]. right. eauto.
Qed.

Lemma trimStart_nonspace (a : ascii) (s : string) :
  Js.is_space a = false -> Js.trimStart (String a s) = String a s.
Proof. intros Ha. simpl. by rewrite Ha. Qed.

Lemma trimEnd_head (a : ascii) (s : string) :
  Js.is_space a = false -> exists t, Js.trimEnd (String a s) = String a t.
Proof.
  intros Ha. rewrite trimEnd_unfold, Ha. destruct (Js.trimEnd s); eauto.
Qed.

Lemma trimEnd_idemp (s : string) : Js.trimEnd (Js.trimEnd s) = Js.trimEnd s.
Proof.
  induction s as [|a s IH]; [done|]. rewrite trimEnd_unfold.
  destruct (Js.trimEnd s) as [|b t] eqn:Ht.
  - destruct (Js.is_space a) eqn:Ha; [done|]. by rewrite trimEnd_unfold, Ha.
  - rewrite trimEnd_unfold. by rewrite IH.
Qed.

Lemma trim_idemp (s : string) : Js.trim (Js.trim s) = Js.trim s.
Proof.
  unfold Js.trim. destruct (trimStart_head s) as [->|(a & t & -> & Ha)];
    [done|].
  destruct (trimEnd_head a t Ha) as [t' Ht']. rewrite Ht'.
  rewrite trimStart_nonspace by done. by rewrite <- Ht', trimEnd_idemp.
Qed.

Lemma trimStart_all_chars p (s : string) :
  all_chars p s = true -> all_chars p (Js.trimStart s) = true.
Proof.
  induction s as [|a s IH]; [done|]. simpl.
  intros [Ha Hs]%andb_true_iff. destruct (Js.is_space a); [auto|].
  simpl. by rewrite Ha, Hs.
Qed.

Lemma trimEnd_all_chars p (s : string) :
  all_chars p s = true -> all_chars p (Js.trimEnd s) = true.
Proof.
  induction s as [|a s IH]; [done|]. rewrite trimEnd_unfold. simpl.
  intros [Ha Hs]%andb_true_iff. specialize (IH Hs).
  destruct (Js.trimEnd s) as [|b t].
  - destruct (Js.is_space a); [done|]. simpl. by rewrite Ha.
  - change (all_chars p (String a (String b t)))
      with (p a && all_chars p (String b t)). by rewrite Ha, IH.
Qed.

Lemma trim_all_chars p (s : string) :
  all_chars p s = true -> all_chars p (Js.trim s) = true.
Proof. intros Hs. by apply trimEnd_all_chars, trimStart_all_chars. Qed.

Lemma trimEnd_empty (s : string) :
  Js.trimEnd s = "" -> all_chars Js.is_space s = true.
Proof.
  induction s as [|a s IH]; [done|]. rewrite trimEnd_unfold. simpl.
  destruct (Js.trimEnd s); [|done].
  destruct (Js.is_space a); [|done]. intros _. by rewrite IH.
Qed.

Lemma trimStart_empty (s : string) :
  Js.trimStart s = "" -> all_chars Js.is_space s = true.
Proof.
  induction s as [|a s IH]; [done|]. simpl.
  destruct (Js.is_space a); [|done]. auto.
Qed.

Lemma trim_empty (s : string) :
  Js.trim s = "" <-> all_chars Js.is_space s = true.
Proof.
  unfold Js.trim. split.
  - intros Htrim. destruct (trimStart_head s) as [Hs|(a & t & Hs & Ha)].
    + by apply trimStart_empty.
    + rewrite Hs in Htrim. apply trimEnd_empty in Htrim.
      simpl in Htrim. by rewrite Ha in Htrim.
  - intros Hall. assert (Js.trimStart s = "") as ->; [|done].
    induction s as [|a s IH]; [done|]. simpl in *.
    apply andb_true_iff in Hall as [-> Hs]. auto.
Qed.

Lemma is_space_not_alpha (c : ascii) :
  Js.is_space c = true -> is_alpha c = false.
Proof. by destruct c as [[] [] [] [] [] [] [] []]. Qed.

(** ** Which queries fire no extractor *)

Lemma extracted_no_alpha (key : string) (re : regex) (query : string) :
  (key, re) ∈ extractors ->
  all_chars not_alpha query = true ->
  extracted re query = None.
Proof.
  intros Hin Hquery. unfold extracted.
  pose proof extractors_first_alpha as Hfirst.
  rewrite Forall_forall in Hfirst. specialize (Hfirst _ Hin). simpl in Hfirst.
  by rewrite (exec_no_first is_alpha re query).
Qed.

Lemma parseUserQuery_no_extractor (query : string) :
  Forall (fun kr => extracted kr.2 query = None) extractors ->
  parseUserQuery query = fallback query ∅.
Proof.
  intros Hnone. unfold extractors in Hnone.
  repeat (apply Forall_cons in Hnone as [? Hnone]). simpl in *.
  unfold parseUserQuery, extract.
  by repeat match goal with H : extracted _ _ = None |- _ =>
    rewrite H; clear H end.
Qed.

Lemma parseUserQuery_no_alpha (query : string) :
  all_chars not_alpha query = true ->
  parseUserQuery query = fallback query ∅.
Proof.
  intros Hquery. apply parseUserQuery_no_extractor.
  apply Forall_forall. intros [key re] Hin. simpl.
  by apply (extracted_no_alpha key).
Qed.

Lemma fallback_nonempty (query : string) (filters : gmap string string) :
  Js.trim query <> "" -> fallback query filters <> ∅.
Proof.
  intros Hq%truthy_true. unfold fallback. rewrite Hq, andb_true_r.
  destruct (size filters =? 0)%nat eqn:Hsize.
  - destruct (existsb _ commonGenres); apply insert_non_empty.
  - apply Nat.eqb_neq in Hsize. intros ->. by rewrite map_size_empty in Hsize.
Qed.

Lemma contains_all_chars p (s v : string) :
  contains s v -> all_chars p s = true -> all_chars p v = true.
Proof.
  intros (pre & post & ->). rewrite !all_chars_app.
  intros [_ [Hv _]%andb_true_iff]%andb_true_iff. done.
Qed.

Lemma not_alpha_lower (c : ascii) :
  not_alpha c = true -> not_alpha (Js.lower_char c) = true.
Proof. by destruct c as [[] [] [] [] [] [] [] []]. Qed.

Lemma toLowerCase_not_alpha (s : string) :
  all_chars not_alpha s = true -> all_chars not_alpha (Js.toLowerCase s) = true.
Proof.
  induction s as [|a s IH]; [done|]. simpl.
  intros [Ha Hs]%andb_true_iff. by rewrite not_alpha_lower, IH.
Qed.

Lemma parseUserQuery_blank (query : string) :
  Js.trim query = "" -> parseUserQuery query = ∅.
Proof.
  intros Hblank. rewrite parseUserQuery_no_alpha.
  - unfold fallback. by rewrite Hblank, andb_false_r.
  - apply trim_empty in Hblank. revert Hblank. apply all_chars_impl.
    intros c Hc. unfold not_alpha. by rewrite is_space_not_alpha.
Qed.

(** X1. [parseUserQuery] returns the empty filter set exactly for the
    queries that are empty or all white space: any other query yields at
    least one filter. *)
Theorem parseUserQuery_empty_iff (query : string) :
  parseUserQuery query = ∅ <-> Js.trim query = "".
Proof.
  split; [|apply parseUserQuery_blank].
  intros Hempty. destruct (decide (Js.trim query = "")) as [|Hne]; [done|].
  exfalso. revert Hempty. unfold parseUserQuery. cbv zeta.
  by apply fallback_nonempty.
Qed.

(** X2. A query without any ASCII letter fires no extractor:
    if it is not blank it becomes a title filter on the trimmed query. *)
Theorem parseUserQuery_letterless (query : string) :
  all_chars not_alpha query = true ->
  Js.trim query <> "" ->
  parseUserQuery query = {[ "movie_name" := Js.trim query ]}.
Proof.
  intros Hquery Hne. rewrite parseUserQuery_no_alpha by done.
  unfold fallback. rewrite map_size_empty.
  apply truthy_true in Hne. rewrite Hne. cbn [Nat.eqb andb].
  destruct (existsb _ commonGenres) eqn:Hgenre; [|by rewrite insert_empty].
  apply commonGenres_includes in Hgenre as (g & Hin & Hg).
  apply (contains_all_chars not_alpha) in Hg;
    [|by apply toLowerCase_not_alpha].
  pose proof commonGenres_words as Hwords. rewrite Forall_forall in Hwords.
  destruct (Hwords g Hin) as (_ & _ & _ & Hlow). rewrite Hlow in Hg.
  exfalso. clear -Hin Hg. unfold commonGenres in Hin.
  repeat (apply elem_of_cons in Hin as [->|Hin]; [done|]).
  by apply elem_of_nil in Hin.
Qed.

(** ** What the capturing group holds *)

Lemma take_app (w s : string) :
  take (String.length (w +:+ s) - String.length s) (w +:+ s) = w.
Proof.
  rewrite append_length.
  replace (String.length w + String.length s - String.length s)%nat
    with (String.length w) by lia.
  induction w as [|a w IH]; [by destruct s|].
  rewrite append_cons. simpl. by rewrite IH.
Qed.

Lemma steps_star_chars p s c s' c' :
  steps (Star p) s c s' c' ->
  c' = c /\ exists w, s = w +:+ s' /\ all_chars p w = true.
Proof.
  intros Hsteps. remember (Star p) as r eqn:Hr.
  induction Hsteps as [| |q s c|q a s c s' c' Hq _ IH| | | |]; try done.
  - split; [done|]. by exists "".
  - injection Hr as ->. destruct (IH eq_refl) as (-> & w & -> & Hw).
    split; [done|]. exists (String a w). split; [done|]. simpl.
    by rewrite Hq, Hw.
Qed.

Lemma steps_plus_chars p s c s' c' :
  steps (plus p) s c s' c' ->
  c' = c /\ exists w, s = w +:+ s' /\ all_chars p w = true /\ w <> "".
Proof.
  unfold plus. intros (s1 & c1 & H1 & H2)%steps_seq_inv.
  apply steps_chr_inv in H1 as (a & -> & -> & Ha).
  apply steps_star_chars in H2 as (-> & w & -> & Hw).
  split; [done|]. exists (String a w). repeat split; [|done].
  simpl. by rewrite Ha, Hw.
Qed.

Lemma steps_opt_chr_cap p s c s' c' :
  steps (opt (Chr p)) s c s' c' -> c' = c.
Proof.
  unfold opt. inversion 1 as [| | | | |? ? ? ? ? ? Hl|? ? ? ? ? ? Hr|]; subst.
  - by apply steps_chr_inv in Hl as (_ & _ & -> & _).
  - by inversion Hr.
Qed.

Lemma steps_field_pattern triggers connectors set s c s' c' :
  steps (field_pattern triggers connectors set) s c s' c' ->
  exists w, c' = Some w /\ all_chars set w = true /\ w <> "".
Proof.
  unfold field_pattern.
  intros (s1 & c1 & _ & Hsteps)%steps_seq_inv.
  apply steps_seq_inv in Hsteps as (s2 & c2 & _ & Hsteps).
  apply steps_seq_inv in Hsteps as (s3 & c3 & _ & Hsteps).
  apply steps_seq_inv in Hsteps as (s4 & c4 & _ & Hsteps).
  apply steps_seq_inv in Hsteps as (s5 & c5 & _ & Hsteps).
  apply steps_seq_inv in Hsteps as (s6 & c6 & Hgroup & Hquote).
  apply steps_opt_chr_cap in Hquote as ->.
  apply steps_group_inv in Hgroup as (-> & c0 & Hplus).
  apply steps_plus_chars in Hplus as (_ & w & -> & Hw & Hne).
  exists w. by rewrite take_app.
Qed.

Lemma extracted_field_pattern triggers connectors set (query c : string) :
  extracted (field_pattern triggers connectors set) query = Some c ->
  all_chars set c = true.
Proof.
  unfold extracted.
  destruct (exec _ query) as [[c0|]|] eqn:Hexec; [|done..].
  destruct (Js.truthy c0); [|done]. intros [= ->].
  apply exec_sound in Hexec as (s0 & s' & Hsteps).
  by apply steps_field_pattern in Hsteps as (w & [= ->] & Hw & _).
Qed.

Lemma is_digit_chars_trim (c : string) :
  all_chars is_digit c = true -> Js.trim c = c.
Proof.
  intros Hc. unfold Js.trim.
  assert (Js.trimStart c = c) as ->.
  { destruct c as [|a c]; [done|]. simpl in *.
    apply andb_true_iff in Hc as [Ha _].
    by rewrite (is_digit_not_space a Ha). }
  induction c as [|a c IH]; [done|]. simpl in Hc.
  apply andb_true_iff in Hc as [Ha Hc]. rewrite trimEnd_unfold, IH by done.
  destruct c; [|done]. by rewrite (is_digit_not_space a Ha).
Qed.

Lemma extracted_year_digits (query c : string) :
  extracted year_re query = Some c ->
  String.length c = 4%nat /\ all_chars is_digit c = true.
Proof.
  unfold extracted.
  destruct (exec year_re query) as [[c0|]|] eqn:Hexec; [|done..].
  destruct (Js.truthy c0); [|done]. intros [= ->].
  apply exec_sound in Hexec as (s0 & s' & Hsteps). unfold year_re in Hsteps.
  apply steps_seq_inv in Hsteps as (s1 & c1 & _ & Hsteps).
  apply steps_seq_inv in Hsteps as (s2 & c2 & _ & Hsteps).
  apply steps_seq_inv in Hsteps as (s3 & c3 & _ & Hsteps).
  apply steps_seq_inv in Hsteps as (s4 & c4 & _ & Hsteps).
  apply steps_group_inv in Hsteps as (Hcap & c5 & Hsteps).
  apply steps_seq_inv in Hsteps as (t1 & d1 & Hd1 & Hsteps).
  apply steps_seq_inv in Hsteps as (t2 & d2 & Hd2 & Hsteps).
  apply steps_seq_inv in Hsteps as (t3 & d3 & Hd3 & Hd4).
  apply steps_chr_inv in Hd1 as (a1 & -> & _ & Ha1).
  apply steps_chr_inv in Hd2 as (a2 & -> & _ & Ha2).
  apply steps_chr_inv in Hd3 as (a3 & -> & _ & Ha3).
  apply steps_chr_inv in Hd4 as (a4 & -> & _ & Ha4).
  injection Hcap as ->.
  cbn [String.length].
  replace (S (S (S (S (String.length s')))) - String.length s')%nat
    with 4%nat by lia.
  cbn [take String.length all_chars]. by rewrite Ha1, Ha2, Ha3, Ha4.
Qed.

(** ** The entries of a parsed filter set *)


Lemma parsedValues_insert key value filters :
  parsedValue key value -> parsedValues filters ->
  parsedValues (<[key := value]> filters).
Proof.
  intros Hentry Hfilters k v. rewrite lookup_insert_Some.
  intros [[<- <-]|[_ Hkv]]; auto.
Qed.

Lemma parsedValues_extract key re query filters :
  (forall c, extracted re query = Some c -> parsedValue key (Js.trim c)) ->
  parsedValues filters -> parsedValues (extract key re query filters).
Proof.
  intros Hentry Hfilters. unfold extract.
  destruct (extracted re query) as [c|]; [|done].
  apply parsedValues_insert; auto.
Qed.

Lemma parsedValue_letters key triggers conns (query c : string) :
  key ∈ ["director_name"; "actors"; "country"; "language"; "plot_keyword"] ->
  extracted (field_pattern triggers conns alpha_space) query = Some c ->
  parsedValue key (Js.trim c).
Proof.
  intros Hkey Hc. split; [apply trim_idemp|]. right. right. left.
  split; [done|]. apply extracted_field_pattern in Hc.
  by apply trim_all_chars.
Qed.

Lemma parseUserQuery_parsedValues (query : string) :
  parsedValues (parseUserQuery query).
Proof.
  unfold parseUserQuery. cbv zeta.
  assert (forall filters, parsedValues filters ->
                          parsedValues (fallback query filters)) as Hfallback.
  { intros filters Hfilters. unfold fallback.
    repeat case_match; try done; apply parsedValues_insert; try done;
      (split; [apply trim_idemp|]); auto. }
  apply Hfallback.
  apply parsedValues_extract;
    [intros c Hc; eapply parsedValue_letters; [in_list|exact Hc]|].
  apply parsedValues_extract;
    [intros c Hc; eapply parsedValue_letters; [in_list|exact Hc]|].
  apply parsedValues_extract;
    [intros c Hc; eapply parsedValue_letters; [in_list|exact Hc]|].
  apply parsedValues_extract.
  { intros c [Hlen Hdigits]%extracted_year_digits.
    rewrite (is_digit_chars_trim c Hdigits).
    split; [by apply is_digit_chars_trim|]. do 3 right. done. }
  apply parsedValues_extract;
    [intros c Hc; eapply parsedValue_letters; [in_list|exact Hc]|].
  apply parsedValues_extract;
    [intros c Hc; eapply parsedValue_letters; [in_list|exact Hc]|].
  apply parsedValues_extract.
  { intros c _. split; [apply trim_idemp|]. auto. }
  apply parsedValues_extract.
  { intros c _. split; [apply trim_idemp|]. auto. }
  intros k v. by rewrite lookup_empty.
Qed.

(** X3. A filter set from [parseUserQuery] has keys among the eight
    field names of the extractors only, and every value is trimmed. *)
Theorem parseUserQuery_keys_trimmed (query key value : string) :
  parseUserQuery query !! key = Some value ->
  key ∈ ["genre"; "movie_name"; "director_name"; "actors"; "release_year";
         "country"; "language"; "plot_keyword"]
  /\ Js.trim value = value.
Proof.
  intros [Htrim Hkey]%parseUserQuery_parsedValues. split; [|done].
  destruct Hkey as [->|[->|[[Hkey _]|[-> _]]]]; [in_list..| |in_list].
  repeat (apply elem_of_cons in Hkey as [->|Hkey]; [in_list|]).
  by apply elem_of_nil in Hkey.
Qed.

(** X4. A [release_year] value is four decimal digits, and a
    director, actor, country, language or keyword value is made of ASCII
    letters and white space only: the capture stops at the first hyphen,
    digit, apostrophe or accented letter. *)
Theorem parseUserQuery_value_chars (query key value : string) :
  parseUserQuery query !! key = Some value ->
  (key = "release_year" ->
   String.length value = 4%nat /\ all_chars is_digit value = true) /\
  (key ∈ ["director_name"; "actors"; "country"; "language"; "plot_keyword"] ->
   all_chars alpha_space value = true).
Proof.
  intros [_ Hkey]%parseUserQuery_parsedValues. split.
  - intros ->. destruct Hkey as [?|[?|[[Hkey _]|[_ ?]]]]; try done.
    exfalso. not_in_list Hkey.
  - intros Hin. destruct Hkey as [->|[->|[[_ ?]|[-> _]]]]; try done;
      exfalso; not_in_list Hin.
Qed.

(** ** The letter case of the query

    [F] maps a string one code unit at a time by [f], which changes at
    most the case of a letter: lowering all letters, or the ASCII ones
    only. *)

Section CaseMap.
Variables (f : ascii -> ascii) (F : string -> string).
Hypothesis F_nil : F "" = "".
Hypothesis F_cons : forall a s, F (String a s) = String (f a) (F s).
Hypothesis f_space : forall c, Js.is_space (f c) = Js.is_space c.
Hypothesis f_lower : forall c, Js.lower_char (f c) = Js.lower_char c.
Hypothesis f_blind : Forall (fun kr => blind_to f kr.2 = true) extractors.

Lemma mapped_length (s : string) : String.length (F s) = String.length s.
Proof.
  induction s as [|a s IH]; [by rewrite F_nil|].
  rewrite F_cons. simpl. by rewrite IH.
Qed.

Lemma mapped_truthy (s : string) : Js.truthy (F s) = Js.truthy s.
Proof. destruct s; [by rewrite F_nil|by rewrite F_cons]. Qed.

Lemma mapped_toLowerCase (s : string) :
  Js.toLowerCase (F s) = Js.toLowerCase s.
Proof.
  induction s as [|a s IH]; [by rewrite F_nil|].
  rewrite F_cons. simpl. by rewrite f_lower, IH.
Qed.

Lemma mapped_take (n : nat) (s : string) : F (take n s) = take n (F s).
Proof.
  revert s. induction n as [|n IH]; intros [|a s];
    rewrite ?F_nil, ?F_cons; simpl; rewrite ?F_nil, ?F_cons; try done.
  by rewrite IH.
Qed.

Lemma mapped_trimStart (s : string) : F (Js.trimStart s) = Js.trimStart (F s).
Proof.
  induction s as [|a s IH]; [by rewrite F_nil|].
  rewrite F_cons. simpl. rewrite f_space.
  destruct (Js.is_space a); [done|apply F_cons].
Qed.

Lemma mapped_trimEnd (s : string) : F (Js.trimEnd s) = Js.trimEnd (F s).
Proof.
  induction s as [|a s IH]; [by rewrite F_nil|].
  rewrite F_cons, !trimEnd_unfold, <- IH, f_space.
  destruct (Js.trimEnd s) as [|b t].
  - rewrite F_nil. destruct (Js.is_space a); by rewrite ?F_cons, ?F_nil.
  - by rewrite !F_cons.
Qed.

Lemma mapped_trim (s : string) : F (Js.trim s) = Js.trim (F s).
Proof. unfold Js.trim. by rewrite mapped_trimEnd, mapped_trimStart. Qed.

Lemma star_mapped {R R'} (g : R -> R') p (k : cont) (k' : cont) :
  forall_ascii (fun c => Bool.eqb (p (f c)) (p c)) = true ->
  (forall s c, k' (F s) (F <$> c) = g <$> k s c) ->
  forall s c, star p k' (F s) (F <$> c) = g <$> star p k s c.
Proof.
  intros Hp Hk s c. induction s as [|a s IH].
  - rewrite F_nil. simpl. rewrite <- F_nil at 1. apply (Hk "").
  - rewrite F_cons. cbn [star]. rewrite <- F_cons.
    pose proof (forall_ascii_spec _ Hp a) as Ha. cbv beta in Ha.
    apply eqb_prop in Ha. rewrite Ha. destruct (p a).
    + rewrite IH. destruct (star p k s c); [done|]. apply (Hk (String a s)).
    + apply (Hk (String a s)).
Qed.

Lemma run_mapped {R R'} (g : R -> R') r (k : cont) (k' : cont) :
  blind_to f r = true ->
  (forall s c, k' (F s) (F <$> c) = g <$> k s c) ->
  forall s c, run r k' (F s) (F <$> c) = g <$> run r k s c.
Proof.
  revert k k'. induction r as [|p|p|r1 IH1 r2 IH2|r1 IH1 r2 IH2|r IH];
    intros k k' Hblind Hk s c; simpl in *.
  - apply Hk.
  - destruct s as [|a s]; [by rewrite F_nil|]. rewrite F_cons.
    pose proof (forall_ascii_spec _ Hblind a) as Ha. cbv beta in Ha.
    apply eqb_prop in Ha. rewrite Ha. destruct (p a); [apply Hk|done].
  - by apply star_mapped.
  - apply andb_true_iff in Hblind as [H1 H2].
    apply IH1; [done|]. intros s1 c1. by apply IH2.
  - apply andb_true_iff in Hblind as [H1 H2].
    rewrite (IH1 k k' H1 Hk), (IH2 k k' H2 Hk).
    by destruct (run r1 k s c).
  - apply IH; [done|]. intros s1 c1.
    rewrite !mapped_length, <- mapped_take. apply (Hk s1 (Some _)).
Qed.

Lemma exec_mapped r (s : string) :
  blind_to f r = true ->
  exec r (F s) = fmap (M:=option) F <$> exec r s.
Proof.
  intros Hblind.
  assert (forall s, run r (fun _ cap => Some cap) (F s) None
                    = fmap (M:=option) F
                        <$> run r (fun _ cap => Some cap) s None) as Hrun.
  { intros s0.
    by apply (run_mapped (fmap (M:=option) F) r _ _ Hblind) with (c := None). }
  induction s as [|a s IH].
  - pose proof (Hrun "") as Hnil. rewrite F_nil in *.
    cbn [exec]. rewrite Hnil at 1. by destruct (run r _ "" None).
  - pose proof (Hrun (String a s)) as Hcons. rewrite F_cons in *.
    cbn [exec]. rewrite Hcons.
    destruct (run r _ (String a s) None); [done|]. apply IH.
Qed.

Lemma extracted_mapped (key : string) re (query : string) :
  (key, re) ∈ extractors ->
  extracted re (F query) = F <$> extracted re query.
Proof.
  intros Hin. pose proof f_blind as Hblind.
  rewrite Forall_forall in Hblind. specialize (Hblind _ Hin).
  unfold extracted. rewrite exec_mapped by done.
  destruct (exec re query) as [[c|]|]; simpl; [|done..].
  rewrite mapped_truthy. by destruct (Js.truthy c).
Qed.

Lemma extract_mapped key re (query : string) (filters : gmap string string) :
  (key, re) ∈ extractors ->
  extract key re (F query) (F <$> filters)
  = F <$> extract key re query filters.
Proof.
  intros Hin. unfold extract. rewrite (extracted_mapped key) by done.
  destruct (extracted re query) as [c|]; simpl; [|done].
  by rewrite fmap_insert, mapped_trim.
Qed.

Lemma fallback_mapped (query : string) (filters : gmap string string) :
  fallback (F query) (F <$> filters) = F <$> fallback query filters.
Proof.
  unfold fallback.
  rewrite map_size_fmap, <- mapped_trim, mapped_truthy, mapped_toLowerCase.
  destruct (_ && _); [|done].
  destruct (existsb _ commonGenres); by rewrite fmap_insert.
Qed.

Lemma parseUserQuery_mapped (query : string) :
  parseUserQuery (F query) = F <$> parseUserQuery query.
Proof.
  unfold parseUserQuery. cbv zeta.
  rewrite <- fallback_mapped.
  rewrite <- !extract_mapped by (unfold extractors; in_list).
  by rewrite fmap_empty.
Qed.
End CaseMap.

Lemma extractors_case_blind :
  Forall (fun kr => blind_to Js.lower_char kr.2 = true) extractors.
Proof. repeat constructor; by vm_compute. Qed.

Lemma extractors_ascii_blind :
  Forall (fun kr => blind_to Js.lower_ascii kr.2 = true) extractors.
Proof. repeat constructor; by vm_compute. Qed.

Lemma is_space_lower_ascii (c : ascii) :
  Js.is_space (Js.lower_ascii c) = Js.is_space c.
Proof. by destruct c as [[] [] [] [] [] [] [] []]. Qed.

Lemma lower_char_lower_ascii (c : ascii) :
  Js.lower_char (Js.lower_ascii c) = Js.lower_char c.
Proof. by destruct c as [[] [] [] [] [] [] [] []]. Qed.

Lemma toLowerCase_lowerAscii (s : string) :
  Js.toLowerCase (Js.lowerAscii s) = Js.toLowerCase s.
Proof.
  by apply (mapped_toLowerCase Js.lower_ascii), lower_char_lower_ascii.
Qed.

Lemma parseUserQuery_lower (query : string) :
  parseUserQuery (Js.toLowerCase query)
  = Js.toLowerCase <$> parseUserQuery query.
Proof.
  apply (parseUserQuery_mapped Js.lower_char); try done.
  - apply is_space_lower_char.
  - apply lower_char_idemp.
  - apply extractors_case_blind.
Qed.

(** X5. Lowering the ASCII letters of the query lowers those of the
    values of the filter set and changes nothing else: the trigger words,
    the connectors and the genre words are recognised in either case, and
    no key is gained or lost. *)
Theorem parseUserQuery_lowerAscii (query : string) :
  parseUserQuery (Js.lowerAscii query)
  = Js.lowerAscii <$> parseUserQuery query.
Proof.
  apply (parseUserQuery_mapped Js.lower_ascii); try done.
  - apply is_space_lower_ascii.
  - apply lower_char_lower_ascii.
  - apply extractors_ascii_blind.
Qed.

Lemma find_ext {A} (f g : A -> bool) (l : list A) :
  (forall x, f x = g x) -> List.find f l = List.find g l.
Proof.
  intros Hfg. induction l as [|x l IH]; [done|]. simpl.
  by rewrite Hfg, IH.
Qed.

Lemma insert_by_ext {A} (cmp cmp' : A -> A -> Z) (x : A) (l : list A) :
  (forall a b, cmp a b = cmp' a b) ->
  Js.insert_by cmp x l = Js.insert_by cmp' x l.
Proof.
  intros Hcmp. induction l as [|y l IH]; [done|]. simpl.
  by rewrite Hcmp, IH.
Qed.

Lemma sort_ext {A} (cmp cmp' : A -> A -> Z) (l : list A) :
  (forall a b, cmp a b = cmp' a b) -> Js.sort cmp l = Js.sort cmp' l.
Proof.
  intros Hcmp. induction l as [|x l IH]; [done|]. simpl.
  fold (Js.sort cmp l) (Js.sort cmp' l). rewrite IH.
  by apply insert_by_ext.
Qed.

Lemma filter_sublist {A} (f : A -> bool) (l : list A) :
  sublist (List.filter f l) l.
Proof.
  induction l as [|x l IH]; simpl; [constructor|].
  destruct (f x); by constructor.
Qed.

Section CaseOfTheQuery.
Context `{JsNumber number}.
Implicit Types (movie : Movie number) (movies : list (Movie number)).
Implicit Types (filters : gmap string string).

Lemma containsValue_lower key (movieValue : value) (v : string) :
  containsValue key movieValue (Js.toLowerCase v)
  = containsValue key movieValue v.
Proof. unfold containsValue. by rewrite toLowerCase_idemp. Qed.

Lemma matchesEntry_lower movie (key v : string) :
  matchesEntry movie (key, Js.toLowerCase v) = matchesEntry movie (key, v).
Proof.
  unfold matchesEntry. by rewrite toLowerCase_truthy, containsValue_lower.
Qed.

Lemma matchesOtherEntry_lower movie (key v : string) :
  matchesOtherEntry movie (key, Js.toLowerCase v)
  = matchesOtherEntry movie (key, v).
Proof.
  unfold matchesOtherEntry.
  by rewrite toLowerCase_truthy, containsValue_lower.
Qed.

Lemma every_fmap (f : string * string -> bool) (g : string -> string)
    filters :
  (forall k v, f (k, g v) = f (k, v)) ->
  every f (g <$> filters) = every f filters.
Proof.
  intros Hf. apply eq_true_iff_eq. rewrite !every_spec. split.
  - intros Hall k v Hkv. rewrite <- Hf. apply Hall.
    by rewrite lookup_fmap, Hkv.
  - intros Hall k v Hkv. rewrite lookup_fmap in Hkv.
    destruct (filters !! k) as [v0|] eqn:Hk; [|done].
    injection Hkv as <-. rewrite Hf. by apply Hall.
Qed.

Lemma filterMovies_lower movies filters :
  filterMovies movies (Js.toLowerCase <$> filters)
  = filterMovies movies filters.
Proof.
  unfold filterMovies. apply filter_ext. intros movie.
  apply every_fmap. intros k v. apply matchesEntry_lower.
Qed.

Lemma prop_truthy_lower filters (key : string) :
  prop_truthy (Js.toLowerCase <$> filters) key = prop_truthy filters key.
Proof.
  unfold prop_truthy. rewrite lookup_fmap.
  destruct (filters !! key); [apply toLowerCase_truthy|done].
Qed.

Lemma prop_lower filters (key : string) :
  prop (Js.toLowerCase <$> filters) key = Js.toLowerCase (prop filters key).
Proof. unfold prop. rewrite lookup_fmap. by destruct (filters !! key). Qed.

Lemma isExactTitle_lower (query : string) movie :
  isExactTitle (Js.toLowerCase query) movie = isExactTitle query movie.
Proof. unfold isExactTitle. by rewrite toLowerCase_idemp. Qed.

Lemma titleIncludes_lower (name : string) movie :
  titleIncludes (Js.toLowerCase name) movie = titleIncludes name movie.
Proof. unfold titleIncludes. by rewrite toLowerCase_idemp. Qed.

Lemma byRelevance_lower (name : string) (a b : Movie number) :
  byRelevance (Js.toLowerCase name) a b = byRelevance name a b.
Proof. unfold byRelevance. by rewrite !isExactTitle_lower. Qed.

Lemma matchesActorSearch_lower filters (actorName : string) movie :
  matchesActorSearch (Js.toLowerCase <$> filters)
                     (Js.toLowerCase actorName) movie
  = matchesActorSearch filters actorName movie.
Proof.
  unfold matchesActorSearch. rewrite toLowerCase_idemp.
  by rewrite (every_fmap _ _ _ (matchesOtherEntry_lower movie)).
Qed.

Lemma searchMovies_lower movies (query : string) :
  searchMovies movies (Js.toLowerCase query) = searchMovies movies query.
Proof.
  unfold searchMovies.
  rewrite (find_ext _ (isExactTitle query)) by apply isExactTitle_lower.
  destruct (List.find _ movies); [done|].
  rewrite parseUserQuery_lower. cbv zeta.
  rewrite !prop_truthy_lower, !prop_lower, map_size_fmap.
  destruct (prop_truthy _ "actors").
  { rewrite <- fmap_delete. apply filter_ext. intros movie.
    apply matchesActorSearch_lower. }
  destruct (_ && _); [|apply filterMovies_lower].
  rewrite (filter_ext _ (titleIncludes (prop (parseUserQuery query)
                                             "movie_name")))
    by (intros movie; apply titleIncludes_lower).
  apply sort_ext. intros a b. apply byRelevance_lower.
Qed.

(** X6. [searchMovies] does not look at the case of the ASCII letters
    of the query: two queries that differ in nothing else return the same
    list. *)
Theorem searchMovies_letter_case movies (query1 query2 : string) :
  Js.lowerAscii query1 = Js.lowerAscii query2 ->
  searchMovies movies query1 = searchMovies movies query2.
Proof.
  intros Heq%(f_equal Js.toLowerCase).
  rewrite !toLowerCase_lowerAscii in Heq.
  by rewrite <- (searchMovies_lower movies query1), Heq, searchMovies_lower.
Qed.

(** X7. [filterMovies] does not look at the letter case of the
    filter values. *)
Theorem filterMovies_case_insensitive movies filters1 filters2 :
  Js.toLowerCase <$> filters1 = Js.toLowerCase <$> filters2 ->
  filterMovies movies filters1 = filterMovies movies filters2.
Proof.
  intros Heq.
  by rewrite <- (filterMovies_lower movies filters1), Heq, filterMovies_lower.
Qed.

Lemma searchMovies_sub movies (query : string) :
  searchMovies movies query ⊆+ movies.
Proof.
  unfold searchMovies.
  destruct (List.find _ movies) as [m|] eqn:Hfind.
  { apply find_some in Hfind as [Hin _].
    by apply singleton_submseteq_l, list_elem_of_In. }
  cbv zeta. destruct (prop_truthy _ "actors").
  { apply sublist_submseteq, filter_sublist. }
  destruct (_ && _).
  - rewrite sort_perm. apply sublist_submseteq, filter_sublist.
  - apply sublist_submseteq, filter_sublist.
Qed.

(** X8. [searchMovies] returns records of the list it is given, none
    more often than the list has it; on the empty list the result is
    empty for every query. *)
Theorem searchMovies_submseteq movies (query : string) :
  searchMovies movies query ⊆+ movies /\
  searchMovies (@nil (Movie number)) query = [].
Proof.
  split; [apply searchMovies_sub|].
  apply submseteq_nil_r, searchMovies_sub.
Qed.

Lemma size_one_singleton (filters : gmap string string) (key v : string) :
  filters !! key = Some v -> size filters = 1%nat ->
  filters = {[ key := v ]}.
Proof.
  intros Hkey Hsize.
  assert (delete key filters = ∅) as Hdel.
  { apply map_size_empty_inv. rewrite map_size_delete_Some by eauto.
    by rewrite Hsize. }
  by rewrite <- (insert_delete_id filters key v), Hdel, insert_empty.
Qed.

Lemma matchesEntry_actors movie (a : string) :
  matchesEntry movie ("actors", a) = true <->
  a = "" \/ Js.includes (Js.toLowerCase (actors movie)) (Js.toLowerCase a)
            = true.
Proof.
  unfold matchesEntry, containsValue.
  change (get movie "actors") with (VString (number:=number) (actors movie)).
  cbn [is_undefined String_ pipeSeparated String.eqb Ascii.eqb Bool.eqb orb].
  destruct (Js.truthy a) eqn:Ha; cbn [negb].
  - apply truthy_true in Ha. tauto.
  - apply truthy_false in Ha. tauto.
Qed.

Lemma matchesEntry_title movie (t : string) :
  Js.truthy t = true ->
  matchesEntry movie ("movie_name", t) = titleIncludes t movie.
Proof.
  intros Ht. unfold matchesEntry, containsValue, titleIncludes.
  rewrite Ht.
  by change (get movie "movie_name")
    with (VString (number:=number) (movie_name movie)).
Qed.

(** X9. Apart from the exact-title shortcut, [searchMovies] returns what
    [filterMovies] keeps for the parsed query: the same records as often,
    and in the same order whenever the query yields an actor filter or
    no title filter (the title search alone reorders). *)
Theorem searchMovies_filterMovies movies (query : string) :
  (forall movie, movie ∈ movies -> ~ equals_ci (movie_name movie) query) ->
  searchMovies movies query ≡ₚ filterMovies movies (parseUserQuery query) /\
  (is_Some (parseUserQuery query !! "actors") \/
   parseUserQuery query !! "movie_name" = None ->
   searchMovies movies query = filterMovies movies (parseUserQuery query)).
Proof.
  intros Hnone. unfold searchMovies.
  rewrite searchMovies_no_shortcut by done. cbv zeta.
  destruct (prop_truthy (parseUserQuery query) "actors") eqn:Hactors.
  - (* the actor branch (parseUserQuery query) as [filterMovies] does *)
    assert (List.filter (matchesActorSearch (delete "actors" (parseUserQuery query))
                           (prop (parseUserQuery query) "actors")) movies
            = filterMovies movies (parseUserQuery query)) as ->; [|done].
    unfold prop_truthy, prop in *.
    destruct ((parseUserQuery query) !! "actors") as [a|] eqn:Ha; [|done]. cbn [default].
    apply filter_ext. intros movie. apply eq_true_iff_eq.
    rewrite matchesActorSearch_spec.
    rewrite <- satisfies_spec, !every_spec.
    apply truthy_true in Hactors. split.
    + intros [Hall Hincl] k v Hkv.
      destruct (decide (k = "actors")) as [->|Hk].
      * rewrite Ha in Hkv. injection Hkv as <-.
        apply matchesEntry_actors. right. by apply includes_spec.
      * apply Hall. by rewrite lookup_delete_ne.
    + intros Hall. split.
      * intros k v [_ Hkv]%lookup_delete_Some. by apply Hall.
      * apply Hall, matchesEntry_actors in Ha as [->|Hincl]; [done|].
        by apply includes_spec.
  - destruct (prop_truthy (parseUserQuery query) "movie_name" && (size (parseUserQuery query) =? 1)%nat)
      eqn:Htitle; [|done].
    apply andb_true_iff in Htitle as [Hname Hsize%Nat.eqb_eq].
    unfold prop_truthy, prop in *.
    destruct ((parseUserQuery query) !! "movie_name") as [t|] eqn:Ht; [|done].
    cbn [default from_option id].
    assert (List.filter (titleIncludes t) movies
            = filterMovies movies (parseUserQuery query)) as Hsame.
    { rewrite (size_one_singleton (parseUserQuery query) "movie_name" t Ht Hsize).
      unfold filterMovies, every. rewrite map_to_list_singleton.
      apply filter_ext. intros movie. cbn [forallb].
      by rewrite andb_true_r, matchesEntry_title. }
    split.
    + by rewrite sort_perm, Hsame.
    + intros [[a Ha]|Hno]; [|done].
      rewrite (size_one_singleton (parseUserQuery query) "movie_name" t Ht Hsize) in Ha.
      by rewrite lookup_singleton_ne in Ha.
Qed.

(** X10. A query that is empty or all white space returns the
    whole list in its order, unless a title equals the query. *)
Theorem searchMovies_blank movies (query : string) :
  Js.trim query = "" ->
  (forall movie, movie ∈ movies -> ~ equals_ci (movie_name movie) query) ->
  searchMovies movies query = movies.
Proof.
  intros Hblank Hnone. unfold searchMovies.
  rewrite searchMovies_no_shortcut by done.
  apply parseUserQuery_blank in Hblank. rewrite Hblank. cbv zeta.
  unfold prop_truthy. rewrite !lookup_empty. cbn [andb].
  unfold filterMovies, every. rewrite map_to_list_empty. simpl.
  induction movies as [|m l IH]; [done|]. simpl. f_equal. apply IH.
  intros movie Hin. apply Hnone. by right.
Qed.

(** X11. [filterMovies] keeps a sublist; the empty filter set keeps
    everything; a filter set with more entries keeps a sublist of what
    one with fewer keeps. *)
Theorem filterMovies_narrows movies filters1 filters2 :
  filters1 ⊆ filters2 ->
  sublist (filterMovies movies filters2) (filterMovies movies filters1) /\
  sublist (filterMovies movies filters1) movies /\
  filterMovies movies ∅ = movies.
Proof.
  intros Hsub. split; [|split].
  - unfold filterMovies. induction movies as [|m l IH]; simpl; [constructor|].
    destruct (every (matchesEntry m) filters2) eqn:H2.
    + assert (every (matchesEntry m) filters1 = true) as ->.
      { rewrite every_spec in *. intros k v Hkv. apply H2.
        by eapply lookup_weaken. }
      by constructor.
    + destruct (every (matchesEntry m) filters1); [by constructor|done].
  - apply filter_sublist.
  - unfold filterMovies, every. rewrite map_to_list_empty. simpl.
    induction movies as [|m l IH]; [done|]. simpl. by rewrite IH.
Qed.

(** X12. Filtering twice with one filter set is filtering once, and
    two filter sets can be applied in either order. *)
Theorem filterMovies_commute movies filters1 filters2 :
  filterMovies (filterMovies movies filters1) filters1
  = filterMovies movies filters1 /\
  filterMovies (filterMovies movies filters1) filters2
  = filterMovies (filterMovies movies filters2) filters1.
Proof.
  unfold filterMovies. rewrite !filter_filter. split.
  - apply filter_ext. intros m. by destruct (every _ filters1).
  - apply filter_ext. intros m. apply andb_comm.
Qed.

End CaseOfTheQuery.

(** ** The search action *)

Lemma test_trigger triggers connectors set (query c : string) :
  extracted (field_pattern triggers connectors set) query = Some c ->
  exists cap, exec triggers query = Some cap.
Proof.
  unfold extracted.
  destruct (exec _ query) as [cap|] eqn:Hexec; [|done]. intros _.
  apply exec_sound_at in Hexec as (pre & s0 & s' & -> & Hsteps).
  unfold field_pattern in Hsteps.
  apply steps_seq_inv in Hsteps as (s1 & c1 & Htrigger & _).
  by eapply exec_complete.
Qed.

Lemma test_genre (query c : string) :
  extracted genre_re query = Some c ->
  exists cap, exec (lit "genre") query = Some cap.
Proof.
  unfold extracted.
  destruct (exec _ query) as [cap|] eqn:Hexec; [|done]. intros _.
  apply exec_sound_at in Hexec as (pre & s0 & s' & -> & Hsteps).
  unfold genre_re, field_pattern in Hsteps.
  apply steps_seq_inv in Hsteps as (s1 & c1 & Htrigger & _).
  apply steps_seq_inv in Htrigger as (s2 & c2 & Hgenre & _).
  by eapply exec_complete.
Qed.

Section SearchActionFacts.
Context `{JsNumber number}.
Implicit Types (rows : option (list (Movie number))).

Lemma mark_same (key : string) re (query : string) terms cap :
  exec re query = Some cap ->
  mark key re query terms !! key = Some "Extracted from your query".
Proof.
  intros Hexec. unfold mark, test. rewrite Hexec. apply lookup_insert_eq.
Qed.

Lemma mark_other (key k : string) re (query : string) terms :
  key <> k -> mark key re query terms !! k = terms !! k.
Proof.
  intros Hne. unfold mark. destruct (test re query); [|done].
  by apply lookup_insert_ne.
Qed.

(** X13. The action returns the first thirty records of [searchMovies]
    on the fetched rows, and all of them when there are no more than
    thirty; when the fetch is rejected it returns none. *)
Theorem searchMoviesAction_results rows (query : string) :
  let results := (searchMoviesAction rows query).1 in
  (forall movies, rows = Some movies ->
     results = List.firstn 30 (searchMovies movies query) /\
     length results = Nat.min 30 (length (searchMovies movies query)) /\
     ((length (searchMovies movies query) <= 30)%nat ->
      results = searchMovies movies query) /\
     results ⊆+ movies) /\
  (rows = None -> results = []).
Proof.
  cbv zeta. unfold searchMoviesAction. cbn [fst]. split.
  - intros movies ->. cbn [fetchMovieData].
    set (found := searchMovies movies query).
    split; [done|]. split; [apply length_firstn|].
    split; [apply firstn_all2|].
    etrans; [|apply searchMovies_sub]. fold found.
    apply sublist_submseteq, sublist_take.
  - intros ->. cbn [fetchMovieData].
    pose proof (searchMovies_sub (@nil (Movie number)) query) as Hsub.
    apply submseteq_nil_r in Hsub. by rewrite Hsub.
Qed.

(** X14. Whenever the genre, director, actor or keyword
    extractor of [parseUserQuery] yields a filter, the action reports that
    kind of filter. *)
Theorem searchMoviesAction_reports rows (query : string) :
  let filterTerms := (searchMoviesAction rows query).2 in
  (is_Some (extracted genre_re query) -> is_Some (filterTerms !! "genre")) /\
  (is_Some (extracted director_re query) ->
   is_Some (filterTerms !! "director")) /\
  (is_Some (extracted actor_re query) -> is_Some (filterTerms !! "actor")) /\
  (is_Some (extracted keyword_re query) ->
   is_Some (filterTerms !! "keywords")).
Proof.
  cbv zeta. unfold searchMoviesAction. cbn [snd]. repeat split.
  - intros [c [cap Hcap]%test_genre].
    rewrite !(mark_other _ "genre") by done. by erewrite mark_same.
  - intros [c [cap Hcap]%test_trigger].
    rewrite !(mark_other _ "director") by done. by erewrite mark_same.
  - intros [c [cap Hcap]%test_trigger].
    rewrite !(mark_other _ "actor") by done. by erewrite mark_same.
  - intros [c [cap Hcap]%test_trigger]. by erewrite mark_same.
Qed.

End SearchActionFacts.

(** ** The store kept in [localStorage] *)

Lemma find_snoc {A} (f : A -> bool) (l : list A) (x : A) :
  List.find f (l ++ [x])
  = match List.find f l with
    | Some y => Some y
    | None => if f x then Some x else None
    end.
Proof.
  induction l as [|y l IH]; simpl; [done|]. by destruct (f y).
Qed.

Lemma find_none_iff {A} (f : A -> bool) (l : list A) :
  List.find f l = None <-> forall x, x ∈ l -> f x = false.
Proof.
  split.
  - intros Hnone x Hin. by apply (find_none f l Hnone), list_elem_of_In.
  - intros Hall. destruct (List.find f l) as [y|] eqn:Hfind; [|done].
    apply find_some in Hfind as [Hin Hy].
    apply list_elem_of_In, Hall in Hin. congruence.
Qed.

Section LocalDbFacts.
Context `{JsonNumber number}.
Implicit Types (st : LocalDb.storage number).
Implicit Types (review : Review.t (option number)).
Import LocalDb.

(** In a browser [initializeStorage] succeeds, leaves the three arrays
    as they read, and a second call changes nothing. *)
Lemma initializeStorage_browser st :
  exists st', initializeStorage true st = (true, st') /\
    users st' = users st /\ favorites st' = favorites st /\
    reviews st' = reviews st /\
    initializeStorage true st' = (true, st').
Proof.
  destruct st as [[u|] [f|] [r|]]; eexists; (split; [reflexivity|]); done.
Qed.

Lemma initializeStorage_server st : initializeStorage false st = (false, st).
Proof. done. Qed.

Lemma initializeStorage_set_users l st :
  initializeStorage true st = (true, st) ->
  initializeStorage true (set_users l st) = (true, set_users l st).
Proof. by destruct st as [[u|] [f|] [r|]]. Qed.

Lemma initializeStorage_set_favorites l st :
  initializeStorage true st = (true, st) ->
  initializeStorage true (set_favorites l st) = (true, set_favorites l st).
Proof. by destruct st as [[u|] [f|] [r|]]. Qed.

Lemma initializeStorage_set_reviews l st :
  initializeStorage true st = (true, st) ->
  initializeStorage true (set_reviews l st) = (true, set_reviews l st).
Proof. by destruct st as [[u|] [f|] [r|]]. Qed.

Lemma set_favorites_twice l l' st :
  set_favorites l' (set_favorites l st) = set_favorites l' st.
Proof. done. Qed.

Lemma favorites_addFavorite now (userId movieId : string) st :
  favorites (addFavorite true now userId movieId st)
  = if existsb (sameFavorite userId movieId) (favorites st)
    then favorites st
    else favorites st ++ [{| Favorite.user_id := userId;
                             Favorite.movie_id := movieId;
                             Favorite.added_at := now |}].
Proof.
  unfold addFavorite.
  destruct (initializeStorage_browser st) as (st' & -> & _ & Hf & _).
  cbn [negb]. rewrite Hf. by destruct (existsb _ (favorites st)).
Qed.

Lemma favorites_removeFavorite (userId movieId : string) st :
  favorites (removeFavorite true userId movieId st)
  = List.filter (fun fav => negb (sameFavorite userId movieId fav))
                (favorites st).
Proof.
  unfold removeFavorite.
  destruct (initializeStorage_browser st) as (st' & -> & _ & Hf & _).
  cbn [negb]. by rewrite Hf.
Qed.

Lemma getFavorites_favorites (userId : string) st :
  (getFavorites true userId st).1
  = List.filter (fun fav => String.eqb (Favorite.user_id fav) userId)
                (favorites st).
Proof.
  unfold getFavorites.
  destruct (initializeStorage_browser st) as (st' & -> & _ & Hf & _).
  cbn [negb fst]. by rewrite Hf.
Qed.

Lemma sameFavorite_spec (userId movieId : string) fav :
  sameFavorite userId movieId fav = true <->
  Favorite.user_id fav = userId /\ Favorite.movie_id fav = movieId.
Proof. unfold sameFavorite. by rewrite andb_true_iff, !String.eqb_eq. Qed.

(** X15. After [addFavorite] in a browser the user's favorites hold
    the movie, and the favorites of every other user read as before. *)
Theorem addFavorite_getFavorites now (userId movieId other : string) st :
  (exists fav, fav ∈ (getFavorites true userId
                        (addFavorite true now userId movieId st)).1
               /\ Favorite.movie_id fav = movieId) /\
  (other <> userId ->
   (getFavorites true other (addFavorite true now userId movieId st)).1
   = (getFavorites true other st).1).
Proof.
  rewrite !getFavorites_favorites, favorites_addFavorite. split.
  - destruct (existsb _ (favorites st)) eqn:Hex.
    + apply existsb_exists in Hex as (fav & Hin & [Hu Hm]%sameFavorite_spec).
      exists fav. split; [|done]. apply list_elem_of_In, filter_In.
      split; [done|]. by apply String.eqb_eq.
    + exists {| Favorite.user_id := userId; Favorite.movie_id := movieId;
                Favorite.added_at := now |}.
      split; [|reflexivity]. apply list_elem_of_In, filter_In.
      split; [apply in_or_app; right; by left|]. apply String.eqb_refl.
  - intros Hother. destruct (existsb _ (favorites st)); [done|].
    rewrite List.filter_app. simpl.
    apply String.eqb_neq in Hother. rewrite String.eqb_sym in Hother.
    rewrite Hother. by rewrite app_nil_r.
Qed.

(** The pair of user and movie that identifies a favorite. *)
Lemma favorite_keys_app (l1 l2 : list Favorite.t) :
  map (fun fav => (Favorite.user_id fav, Favorite.movie_id fav)) (l1 ++ l2)
  = map (fun fav => (Favorite.user_id fav, Favorite.movie_id fav)) l1
    ++ map (fun fav => (Favorite.user_id fav, Favorite.movie_id fav)) l2.
Proof. apply map_app. Qed.

Lemma NoDup_map_filter {A B} (f : A -> B) (p : A -> bool) (l : list A) :
  NoDup (map f l) -> NoDup (map f (List.filter p l)).
Proof.
  induction l as [|x l IH]; simpl; [done|].
  intros [Hx Hl]%NoDup_cons. destruct (p x); simpl; [|auto].
  apply NoDup_cons. split; [|auto].
  intros Hin. apply Hx. apply list_elem_of_In, in_map_iff in Hin
    as (y & Hy & Hin%filter_In). apply list_elem_of_In, in_map_iff.
  exists y. tauto.
Qed.

(** X16. No user ever has a movie twice among the favorites:
    [addFavorite] and [removeFavorite] keep the pairs of user and movie
    distinct, and a second [addFavorite] of the same pair changes nothing,
    whatever the time. *)
Theorem addFavorite_unique now now' (userId movieId : string) st :
  let key fav := (Favorite.user_id fav, Favorite.movie_id fav) in
  (NoDup (map key (favorites st)) ->
   NoDup (map key (favorites (addFavorite true now userId movieId st))) /\
   NoDup (map key (favorites (removeFavorite true userId movieId st)))) /\
  addFavorite true now' userId movieId
    (addFavorite true now userId movieId st)
  = addFavorite true now userId movieId st.
Proof.
  cbv zeta. split.
  - intros Hnodup. split.
    + rewrite favorites_addFavorite.
      destruct (existsb _ (favorites st)) eqn:Hex; [done|].
      rewrite map_app. apply NoDup_app. split; [done|].
      split; [|apply NoDup_singleton].
      intros [u m] Hin Hnew. simpl in Hnew.
      apply list_elem_of_singleton in Hnew as [= -> ->].
      apply list_elem_of_In, in_map_iff in Hin as (fav & [= Hu Hm] & Hin).
      apply not_true_iff_false in Hex. apply Hex, existsb_exists.
      exists fav. split; [done|]. by apply sameFavorite_spec.
    + rewrite favorites_removeFavorite. by apply NoDup_map_filter.
  - unfold addFavorite at 2 3.
    destruct (initializeStorage_browser st)
      as (st' & -> & _ & Hf & _ & Hinit).
    cbn [negb]. destruct (existsb _ (favorites st')) eqn:Hex; cbn [negb].
    + unfold addFavorite. rewrite Hinit. cbn [negb]. by rewrite Hex.
    + unfold addFavorite.
      rewrite initializeStorage_set_favorites by done. cbn [negb].
      assert (existsb (sameFavorite userId movieId)
                (favorites (set_favorites
                   (favorites st' ++
                    [{| Favorite.user_id := userId;
                        Favorite.movie_id := movieId;
                        Favorite.added_at := now |}]) st')) = true) as ->.
      { apply existsb_exists. eexists. split.
        - apply in_or_app. right. by left.
        - by apply sameFavorite_spec. }
      done.
Qed.

(** X17. After [removeFavorite] the pair is gone, every other
    favorite is kept in its place, and removing a favorite that was just
    added to a store without it gives back the favorites as they were. *)
Theorem removeFavorite_favorites now (userId movieId : string) st :
  (forall fav, fav ∈ favorites (removeFavorite true userId movieId st) ->
     ~ (Favorite.user_id fav = userId /\ Favorite.movie_id fav = movieId)) /\
  (forall fav, fav ∈ favorites st ->
     ~ (Favorite.user_id fav = userId /\ Favorite.movie_id fav = movieId) ->
     fav ∈ favorites (removeFavorite true userId movieId st)) /\
  sublist (favorites (removeFavorite true userId movieId st))
          (favorites st) /\
  (existsb (sameFavorite userId movieId) (favorites st) = false ->
   favorites (removeFavorite true userId movieId
                (addFavorite true now userId movieId st))
   = favorites st).
Proof.
  rewrite !favorites_removeFavorite, favorites_addFavorite.
  split; [|split; [|split]].
  - intros fav [_ Hfav]%list_elem_of_In%filter_In Hsame.
    apply sameFavorite_spec in Hsame. by rewrite Hsame in Hfav.
  - intros fav Hin Hsame. apply list_elem_of_In, filter_In.
    split; [by apply list_elem_of_In|].
    rewrite <- sameFavorite_spec in Hsame. by destruct (sameFavorite _ _ _).
  - apply filter_sublist.
  - intros Hnone. rewrite Hnone, List.filter_app. simpl.
    unfold sameFavorite at 2. simpl. rewrite !String.eqb_refl. simpl.
    rewrite app_nil_r.
    assert (forall l, existsb (sameFavorite userId movieId) l = false ->
      List.filter (fun fav => negb (sameFavorite userId movieId fav)) l = l)
      as Hall; [|by apply Hall].
    intros l. induction l as [|x l IH]; [done|]. simpl.
    intros [-> Hl]%orb_false_iff. simpl. by rewrite IH.
Qed.


(** A review that was read is written and read again as it is; one
    that the program made keeps all but its rating, of which JSON keeps
    what it has a token for. *)
Lemma reread_parsed (text : Review.t (option json_number)) :
  reread (parse_review text) = parse_review text.
Proof.
  unfold reread, parse_review, stringify_review, Review.map_rating.
  destruct text as [i u m [j|] c d n]; cbn; [|done].
  by rewrite JSON_stringify_parse.
Qed.

Lemma reread_rating review :
  reread review
  = Review.map_rating
      (fun rating => rating ≫= fun x => JSON_parse <$> JSON_stringify x)
      review.
Proof.
  unfold reread, parse_review, stringify_review, Review.map_rating.
  by destruct review as [i u m [x|] c d n].
Qed.

Lemma reread_Forall st : Forall (fun review => reread review = review)
                                (reviews st).
Proof.
  unfold reviews. induction (default [] _) as [|text l IH]; [constructor|].
  rewrite fmap_cons. constructor; [apply reread_parsed|exact IH].
Qed.

Lemma fmap_fixed {A} (g : A -> A) (l : list A) :
  Forall (fun x => g x = x) l -> g <$> l = l.
Proof.
  induction 1 as [|x l Hx _ IH]; [done|]. by rewrite fmap_cons, Hx, IH.
Qed.

Lemma reread_reviews st : reread <$> reviews st = reviews st.
Proof. apply fmap_fixed, reread_Forall. Qed.

Lemma reviews_set_reviews (l : list (Review.t (option number))) st :
  reviews (set_reviews l st) = reread <$> l.
Proof.
  unfold reviews, set_reviews.
  cbn [movie_insights_reviews default from_option id].
  by rewrite <- list_fmap_compose.
Qed.

Lemma reread_filter (f : Review.t (option number) -> bool) st :
  reread <$> List.filter f (reviews st) = List.filter f (reviews st).
Proof.
  apply fmap_fixed. pose proof (reread_Forall st) as Hall.
  rewrite Forall_forall in *.
  intros review [Hin _]%list_elem_of_In%filter_In. by apply Hall, list_elem_of_In.
Qed.

Lemma reviews_addReview now (id userId movieId : string) (rating : number)
    (content : string) st :
  exists review,
    (addReview true now id userId movieId rating content st).1
    = Returned review /\
    review = {| Review.id := id; Review.user_id := userId;
                Review.movie_id := movieId; Review.rating := Some rating;
                Review.content := content; Review.created_at := now;
                Review.username := None |} /\
    reviews (addReview true now id userId movieId rating content st).2
    = reviews st ++ [reread review].
Proof.
  unfold addReview.
  destruct (initializeStorage_browser st) as (st' & -> & _ & _ & Hr & _).
  cbn [negb fst snd]. eexists. split; [reflexivity|]. split; [reflexivity|].
  by rewrite reviews_set_reviews, fmap_app, reread_reviews, Hr.
Qed.

Lemma reviews_updateReview (id : string) (rating : number) (content : string)
    st :
  reviews (updateReview true id rating content st)
  = map (fun review => if String.eqb (Review.id review) id
                       then reread (withRating rating content review)
                       else review)
        (reviews st).
Proof.
  unfold updateReview.
  destruct (initializeStorage_browser st) as (st' & -> & _ & _ & Hr & _).
  cbn [negb]. rewrite reviews_set_reviews, Hr. clear Hr.
  pose proof (reread_Forall st) as Hall.
  induction Hall as [|review l Hhead _ IH]; [done|].
  cbn [map]. rewrite fmap_cons, IH. f_equal.
  by destruct (String.eqb (Review.id review) id).
Qed.

Lemma reviews_deleteReview (id : string) st :
  reviews (deleteReview true id st)
  = List.filter (fun review => negb (String.eqb (Review.id review) id))
                (reviews st).
Proof.
  unfold deleteReview.
  destruct (initializeStorage_browser st) as (st' & -> & _ & _ & Hr & _).
  cbn [negb]. by rewrite reviews_set_reviews, Hr, reread_filter.
Qed.

Lemma getReviewsByUser_reviews (userId : string) st :
  (getReviewsByUser true userId st).1
  = List.filter (fun review => String.eqb (Review.user_id review) userId)
                (reviews st).
Proof.
  unfold getReviewsByUser.
  destruct (initializeStorage_browser st) as (st' & -> & _ & _ & Hr & _).
  cbn [negb fst]. by rewrite Hr.
Qed.

(** X18. In a browser [addReview] returns the new review with the
    rating it was given; read again, the review is the last of its
    author's reviews and has the rating that JSON kept, which is [null]
    for a rating without a token ([NaN], an infinity). The reviews of
    other users read as before. *)
Theorem addReview_getReviewsByUser now (id userId movieId : string)
    (rating : number) (content other : string) st :
  let new (r : option number) :=
    {| Review.id := id; Review.user_id := userId;
       Review.movie_id := movieId; Review.rating := r;
       Review.content := content; Review.created_at := now;
       Review.username := None |} in
  let after := (addReview true now id userId movieId rating content st).2 in
  (addReview true now id userId movieId rating content st).1
  = Returned (new (Some rating)) /\
  (getReviewsByUser true userId after).1
  = (getReviewsByUser true userId st).1
    ++ [new (JSON_parse <$> JSON_stringify rating)] /\
  (other <> userId ->
   (getReviewsByUser true other after).1 = (getReviewsByUser true other st).1).
Proof.
  cbv zeta. rewrite !getReviewsByUser_reviews.
  destruct (reviews_addReview now id userId movieId rating content st)
    as (review & -> & -> & ->).
  rewrite !List.filter_app, reread_rating. simpl. rewrite String.eqb_refl.
  split; [done|]. split; [done|].
  intros Hother%String.eqb_neq. rewrite String.eqb_sym in Hother.
  by rewrite Hother, app_nil_r.
Qed.

(** X19. [updateReview] keeps the number and the order of the
    reviews and the id, author, movie and date of each; the reviews with
    the given id get the new content and, of the new rating, what JSON
    kept ([null] for a rating without a token), and the others stay as
    they are, so with no such id nothing changes. *)
Theorem updateReview_reviews (id : string) (rating : number)
    (content : string) st :
  let after := reviews (updateReview true id rating content st) in
  map Review.id after = map Review.id (reviews st) /\
  map Review.user_id after = map Review.user_id (reviews st) /\
  map Review.movie_id after = map Review.movie_id (reviews st) /\
  map Review.created_at after = map Review.created_at (reviews st) /\
  (forall i review, reviews st !! i = Some review ->
     after !! i
     = Some (if decide (Review.id review = id)
             then {| Review.id := Review.id review;
                     Review.user_id := Review.user_id review;
                     Review.movie_id := Review.movie_id review;
                     Review.rating := JSON_parse <$> JSON_stringify rating;
                     Review.content := content;
                     Review.created_at := Review.created_at review;
                     Review.username := Review.username review |}
             else review)) /\
  ((forall review, review ∈ reviews st -> Review.id review <> id) ->
   after = reviews st).
Proof.
  cbv zeta. rewrite reviews_updateReview.
  repeat split.
  1-4: rewrite map_map; apply map_ext; intros review;
       by destruct (String.eqb _ id).
  - intros i review Hi. rewrite list_lookup_fmap, Hi. simpl.
    destruct (String.eqb_spec (Review.id review) id);
      [by rewrite decide_True|by rewrite decide_False].
  - intros Hnone. induction (reviews st) as [|review l IH]; [done|].
    cbn [map]. rewrite IH by (intros r Hr; apply Hnone; by right).
    destruct (String.eqb (Review.id review) id) eqn:Heq; [|done].
    apply String.eqb_eq in Heq. destruct (Hnone review); [by left|done].
Qed.

(** X20. After [deleteReview] no review has the id, and the
    reviews with another id are kept in their order, for each author. *)
Theorem deleteReview_reviews (id userId : string) st :
  let after := deleteReview true id st in
  (forall review, review ∈ reviews after -> Review.id review <> id) /\
  (getReviewsByUser true userId after).1
  = List.filter (fun review => negb (String.eqb (Review.id review) id))
                (getReviewsByUser true userId st).1 /\
  ((forall review, review ∈ reviews st -> Review.id review <> id) ->
   reviews after = reviews st).
Proof.
  cbv zeta. rewrite !getReviewsByUser_reviews, reviews_deleteReview.
  split; [|split].
  - intros review [_ Hid]%list_elem_of_In%filter_In Heq.
    by rewrite Heq, String.eqb_refl in Hid.
  - rewrite !filter_filter. apply filter_ext. intros review. apply andb_comm.
  - intros Hnone. induction (reviews st) as [|review l IH]; [done|].
    cbn [List.filter].
    destruct (String.eqb (Review.id review) id) eqn:Heq.
    + apply String.eqb_eq in Heq. destruct (Hnone review); [by left|done].
    + cbn [negb]. rewrite IH; [done|]. intros r Hr. apply Hnone. by right.
Qed.

Lemma first_with_find {A} (f : A -> bool) (l : list A) (m : A) :
  first_with (fun x => f x = true) l m -> List.find f l = Some m.
Proof.
  intros (pre & post & -> & Hm & Hpre).
  induction Hpre as [|x pre Hx Hpre IH]; simpl; [by rewrite Hm|].
  apply not_true_is_false in Hx. by rewrite Hx.
Qed.

(** X21. [getReviewsByMovie] returns one review for each stored review
    of the movie, in the stored order and with the stored id, author,
    rating, content and date, each with the username of the first user
    who has the author's id, or with "Unknown User" when that user has
    an empty username or there is no such user. *)
Theorem getReviewsByMovie_usernames (movieId : string) st :
  let found := (getReviewsByMovie true movieId st).1 in
  let stored :=
    List.filter (fun review => String.eqb (Review.movie_id review) movieId)
                (reviews st) in
  Forall2
    (fun f s =>
       (Review.id f, Review.user_id f, Review.movie_id f, Review.rating f,
        Review.content f, Review.created_at f)
       = (Review.id s, Review.user_id s, movieId, Review.rating s,
          Review.content s, Review.created_at s) /\
       (forall u,
          first_with (fun u => User.id u = Review.user_id s) (users st) u ->
          Review.username f
          = Some (if decide (User.username u = "") then "Unknown User"
                  else User.username u)) /\
       ((forall u, u ∈ users st -> User.id u <> Review.user_id s) ->
        Review.username f = Some "Unknown User"))
    found stored.
Proof.
  cbv zeta. unfold getReviewsByMovie.
  destruct (initializeStorage_browser st) as (st' & -> & Hu & _ & Hr & _).
  cbn [negb fst]. rewrite Hr, Hu. apply Forall2_fmap_l, Forall_Forall2_diag.
  apply Forall_forall.
  intros s [_ Hmovie%String.eqb_eq]%list_elem_of_In%filter_In.
  cbn [Review.id Review.user_id Review.movie_id Review.rating Review.content
       Review.created_at Review.username].
  split; [by rewrite Hmovie|]. split.
  - intros u Hfirst.
    eapply first_with_iff in Hfirst;
      [|intros x; symmetry; apply String.eqb_eq].
    apply first_with_find in Hfirst. rewrite Hfirst. cbn [usernameOf].
    destruct (decide (User.username u = "")) as [->|Hne]; [done|].
    apply truthy_true in Hne. by rewrite Hne.
  - intros Hnone.
    assert (List.find (fun u => String.eqb (User.id u) (Review.user_id s))
                      (users st) = None) as ->; [|done].
    apply find_none_iff. intros u Hin. by apply String.eqb_neq, Hnone.
Qed.

End LocalDbFacts.

(** ** Base64 *)

Example btoa_examples :
  Base64.btoa "Man" = "TWFu" /\ Base64.btoa "Ma" = "TWE=" /\
  Base64.btoa "M" = "TQ==" /\ Base64.btoa "secretsalt" = "c2VjcmV0c2FsdA==".
Proof. by vm_compute. Qed.

Lemma undigit_digit (x : Base64.sextet) :
  Base64.undigit (Base64.digit x) = Some x.
Proof.
  destruct x as [[[[[b5 b4] b3] b2] b1] b0].
  destruct b5, b4, b3, b2, b1, b0; by vm_compute.
Qed.

Lemma undigit_pad : Base64.undigit "=" = None.
Proof. by vm_compute. Qed.

Lemma string_ind3 (P : string -> Prop) :
  P "" ->
  (forall a, P (String a "")) ->
  (forall a b, P (String a (String b ""))) ->
  (forall a b c s, P s -> P (String a (String b (String c s)))) ->
  forall s, P s.
Proof.
  intros H0 H1 H2 H3.
  assert (forall s, P s /\ (forall a, P (String a s)) /\
                    (forall a b, P (String a (String b s)))) as Hall.
  { induction s as [|c s (IH0 & IH1 & IH2)]; [by auto|].
    split; [apply IH1|]. split; [intros a; apply IH2|].
    intros a b. by apply H3. }
  intros s. apply Hall.
Qed.

Lemma atob_btoa (s : string) : Base64.atob (Base64.btoa s) = s.
Proof.
  induction s as [|a|a b|a b c s IH] using string_ind3.
  - done.
  - destruct a as [a0 a1 a2 a3 a4 a5 a6 a7].
    cbn [Base64.btoa Base64.encode1 Base64.atob].
    by rewrite !undigit_digit, undigit_pad.
  - destruct a as [a0 a1 a2 a3 a4 a5 a6 a7].
    destruct b as [b0 b1 b2 b3 b4 b5 b6 b7].
    cbn [Base64.btoa Base64.encode2 Base64.atob].
    by rewrite !undigit_digit, undigit_pad.
  - destruct a as [a0 a1 a2 a3 a4 a5 a6 a7].
    destruct b as [b0 b1 b2 b3 b4 b5 b6 b7].
    destruct c as [c0 c1 c2 c3 c4 c5 c6 c7].
    cbn [Base64.btoa Base64.encode3 Base64.atob].
    by rewrite !undigit_digit, IH.
Qed.

Lemma btoa_inj (s1 s2 : string) :
  Base64.btoa s1 = Base64.btoa s2 -> s1 = s2.
Proof.
  intros Heq. by rewrite <- (atob_btoa s1), Heq, atob_btoa.
Qed.

Lemma append_inv_r (s1 s2 t : string) : s1 +:+ t = s2 +:+ t -> s1 = s2.
Proof.
  revert s2. induction s1 as [|a s1 IH]; intros [|b s2] Heq.
  - done.
  - apply (f_equal String.length) in Heq.
    rewrite append_nil_l, append_cons in Heq. simpl in Heq.
    rewrite append_length in Heq. lia.
  - apply (f_equal String.length) in Heq.
    rewrite append_nil_l, append_cons in Heq. simpl in Heq.
    rewrite append_length in Heq. lia.
  - rewrite !append_cons in Heq. injection Heq as -> Heq. f_equal. auto.
Qed.

Lemma hashPassword_inj (p1 p2 : string) :
  Auth.hashPassword p1 = Auth.hashPassword p2 -> p1 = p2.
Proof. unfold Auth.hashPassword. by intros ?%btoa_inj%append_inv_r. Qed.

(** ** Users *)

Section UserFacts.
Context `{JsonNumber number}.
Implicit Types (st : LocalDb.storage number).
Import LocalDb.

Lemma getUserByEmail_users (email : string) st :
  exists st',
    getUserByEmail true email st
    = (List.find (fun user => String.eqb (User.email user) email) (users st),
       st') /\
    users st' = users st /\ favorites st' = favorites st /\
    reviews st' = reviews st /\
    initializeStorage true st' = (true, st').
Proof.
  unfold getUserByEmail.
  destruct (initializeStorage_browser st) as (st' & -> & Hu & Hf & Hr & Hi).
  cbn [negb]. exists st'. by rewrite Hu.
Qed.

Lemma createUser_users now (id email username password : string) st :
  let new := {| User.id := id; User.email := email;
                User.username := username; User.password := Some password;
                User.created_at := now; User.last_login := now |} in
  exists st',
    createUser true now id email username password st = (Returned new, st') /\
    users st' = users st ++ [new] /\ favorites st' = favorites st /\
    reviews st' = reviews st /\
    initializeStorage true st' = (true, st').
Proof.
  cbv zeta. unfold createUser.
  destruct (initializeStorage_browser st) as (st' & -> & Hu & Hf & Hr & Hi).
  cbn [negb]. eexists. split; [reflexivity|]. rewrite Hu.
  repeat split; try done. by apply initializeStorage_set_users.
Qed.

Lemma updateLastLogin_users now (userId : string) st :
  users (updateLastLogin true now userId st)
  = map (fun user =>
           if String.eqb (User.id user) userId then
             {| User.id := User.id user; User.email := User.email user;
                User.username := User.username user;
                User.password := User.password user;
                User.created_at := User.created_at user;
                User.last_login := now |}
           else user) (users st).
Proof.
  unfold updateLastLogin.
  destruct (initializeStorage_browser st) as (st' & -> & Hu & _).
  cbn [negb]. by rewrite <- Hu.
Qed.

(** X22. In a browser [createUser] returns the new user with
    the given password and both dates set to the current time; afterwards
    [getUserByEmail] finds a user for that e-mail address, the new one
    when no earlier user had the address and the earliest one otherwise;
    other addresses are looked up as before. *)
Theorem createUser_getUserByEmail now (id email username password : string)
    (other : string) st :
  let new := {| User.id := id; User.email := email;
                User.username := username; User.password := Some password;
                User.created_at := now; User.last_login := now |} in
  let after := (createUser true now id email username password st).2 in
  (createUser true now id email username password st).1 = Returned new /\
  (getUserByEmail true email after).1
  = match (getUserByEmail true email st).1 with
    | Some earlier => Some earlier
    | None => Some new
    end /\
  (other <> email ->
   (getUserByEmail true other after).1 = (getUserByEmail true other st).1).
Proof.
  cbv zeta.
  destruct (createUser_users now id email username password st)
    as (st1 & -> & Hu1 & _).
  cbn [fst snd].
  destruct (getUserByEmail_users email st1) as (st2 & -> & _).
  destruct (getUserByEmail_users email st) as (st3 & -> & _).
  destruct (getUserByEmail_users other st1) as (st4 & -> & _).
  destruct (getUserByEmail_users other st) as (st5 & -> & _).
  cbn [fst]. rewrite Hu1, !find_snoc. cbn [User.email].
  rewrite String.eqb_refl. split; [done|]. split; [done|].
  intros Hother%String.eqb_neq. rewrite String.eqb_sym in Hother.
  rewrite Hother. by destruct (List.find _ (users st)).
Qed.

(** X23. [updateLastLogin] changes nothing but the date of the
    last login, which it sets for the users with the given id. *)
Theorem updateLastLogin_keeps now (userId : string) st :
  let after := users (updateLastLogin true now userId st) in
  map (fun u => (User.id u, User.email u, User.username u, User.password u,
                 User.created_at u)) after
  = map (fun u => (User.id u, User.email u, User.username u,
                   User.password u, User.created_at u)) (users st) /\
  map User.last_login after
  = map (fun u => if decide (User.id u = userId) then now
                  else User.last_login u) (users st) /\
  favorites (updateLastLogin true now userId st) = favorites st /\
  reviews (updateLastLogin true now userId st) = reviews st.
Proof.
  cbv zeta. rewrite updateLastLogin_users. repeat split.
  - rewrite map_map. apply map_ext. intros u.
    by destruct (String.eqb (User.id u) userId).
  - rewrite map_map. apply map_ext. intros u.
    destruct (String.eqb_spec (User.id u) userId);
      [by rewrite decide_True|by rewrite decide_False].
  - unfold updateLastLogin.
    destruct (initializeStorage_browser st) as (st' & -> & _ & Hf & _).
    exact Hf.
  - unfold updateLastLogin.
    destruct (initializeStorage_browser st) as (st' & -> & _ & _ & Hr & _).
    exact Hr.
Qed.

(** X24. Outside a browser nothing is read or written: the lookups
    return nothing, the updates leave the store as it is, and [createUser]
    and [addReview] throw "Storage not available". *)
Theorem server_side now (a b c d : string) (rating : number) st :
  getUserByEmail false a st = (None, st) /\
  getFavorites false a st = ([], st) /\
  getReviewsByUser false a st = ([], st) /\
  getReviewsByMovie false a st = ([], st) /\
  createUser false now a b c d st = (Thrown "Storage not available", st) /\
  addReview false now a b c rating d st
  = (Thrown "Storage not available", st) /\
  updateLastLogin false now a st = st /\
  addFavorite false now a b st = st /\
  removeFavorite false a b st = st /\
  updateReview false a rating b st = st /\
  deleteReview false a st = st.
Proof. repeat split. Qed.

End UserFacts.

(** ** Sign-up and sign-in *)

(** X29. [hashPassword] only encodes: two passwords with the same stored
    value are the same, and the password can be computed back from the
    stored value. *)
Theorem hashPassword_reversible :
  (forall p1 p2 : string,
     Auth.hashPassword p1 = Auth.hashPassword p2 -> p1 = p2) /\
  exists decode : string -> string,
    forall p : string, decode (Auth.hashPassword p) = p.
Proof.
  split; [apply hashPassword_inj|].
  exists (fun h => take (String.length (Base64.atob h) - 4) (Base64.atob h)).
  intros p. unfold Auth.hashPassword. rewrite atob_btoa. apply (take_app p).
Qed.

(** ** Code units *)

Lemma latin1_units (s : string) : Js.latin1 (Js.units s) = Some s.
Proof.
  induction s as [|a s IH]; [done|]. cbn [Js.units Js.latin1].
  assert ((N_of_ascii a <? 256)%N = true) as ->.
  { apply N.ltb_lt, N_ascii_bounded. }
  by rewrite IH, ascii_N_embedding.
Qed.

Lemma latin1_inv (w : list N) (s : string) :
  Js.latin1 w = Some s -> w = Js.units s.
Proof.
  revert s. induction w as [|n w IH]; intros s; cbn [Js.latin1].
  - by intros [= <-].
  - destruct (n <? 256)%N eqn:Hn; [|done].
    destruct (Js.latin1 w) as [t|]; [|done]. intros [= <-].
    cbn [Js.units]. rewrite (IH t eq_refl). f_equal.
    apply N.ltb_lt in Hn. by rewrite N_ascii_embedding.
Qed.

Lemma latin1_app (w : list N) (t : string) :
  Js.latin1 (w ++ Js.units t) = (fun s => s +:+ t) <$> Js.latin1 w.
Proof.
  induction w as [|n w IH]; cbn [app Js.latin1].
  - by rewrite latin1_units.
  - destruct (n <? 256)%N; [|done]. rewrite IH.
    by destruct (Js.latin1 w).
Qed.

Section AuthFacts.
Context `{JsonNumber number}.
Implicit Types (s : Auth.state number).
Import Auth.

(** [hashPassword] throws exactly on the passwords with a code unit
    above 255. *)
Lemma hashPassword_units_spec (password : list N) :
  hashPassword_units password
  = match Js.latin1 password with
    | Some p => Returned (hashPassword p)
    | None => Thrown "InvalidCharacterError"
    end.
Proof.
  unfold hashPassword_units, Base64.window_btoa. rewrite latin1_app.
  by destruct (Js.latin1 password).
Qed.

Lemma signUp_fresh now uuid (email username p : string) (password : list N)
    s :
  (forall u, u ∈ LocalDb.users (db s) -> User.email u <> email) ->
  Js.latin1 password = Some p ->
  let new := {| User.id := uuid; User.email := email;
                User.username := username;
                User.password := Some (hashPassword p);
                User.created_at := now; User.last_login := now |} in
  exists d,
    signUp true now uuid email password username s
    = (None, {| user := Some (withoutPassword new); isLoading := false;
                movieInsightsUser := Some (withoutPassword new);
                db := d |}) /\
    LocalDb.users d = LocalDb.users (db s) ++ [new] /\
    LocalDb.favorites d = LocalDb.favorites (db s) /\
    LocalDb.reviews d = LocalDb.reviews (db s).
Proof.
  intros Hfresh Hp. cbv zeta. unfold signUp. cbn [setIsLoading db].
  destruct (getUserByEmail_users email (db s))
    as (d1 & -> & Hu1 & Hf1 & Hr1 & Hi1).
  assert (List.find (fun user => String.eqb (User.email user) email)
                    (LocalDb.users (db s)) = None) as ->.
  { apply find_none_iff. intros u Hu. by apply String.eqb_neq, Hfresh. }
  cbn [setDb db]. rewrite hashPassword_units_spec, Hp.
  destruct (createUser_users now uuid email username
              (hashPassword p) d1) as (d2 & -> & Hu2 & Hf2 & Hr2 & _).
  exists d2. split; [done|]. by rewrite Hu2, Hu1, Hf2, Hf1, Hr2, Hr1.
Qed.

Lemma signUp_unencodable now uuid (email username : string)
    (password : list N) s :
  (forall u, u ∈ LocalDb.users (db s) -> User.email u <> email) ->
  Js.latin1 password = None ->
  exists d,
    signUp true now uuid email password username s
    = (Some "InvalidCharacterError",
       {| user := user s; isLoading := false;
          movieInsightsUser := movieInsightsUser s; db := d |}) /\
    LocalDb.users d = LocalDb.users (db s).
Proof.
  intros Hfresh Hp. unfold signUp. cbn [setIsLoading db].
  destruct (getUserByEmail_users email (db s))
    as (d1 & -> & Hu1 & _).
  assert (List.find (fun user => String.eqb (User.email user) email)
                    (LocalDb.users (db s)) = None) as ->.
  { apply find_none_iff. intros u Hu. by apply String.eqb_neq, Hfresh. }
  cbn [setDb db]. rewrite hashPassword_units_spec, Hp.
  by exists d1.
Qed.

Lemma signIn_found now (email : string) (password : list N) s
    (found : User.t) :
  List.find (fun user => String.eqb (User.email user) email)
            (LocalDb.users (db s)) = Some found ->
  (signIn true now email password s).1
  = match Js.latin1 password with
    | Some p =>
        if decide (User.password found = Some (hashPassword p))
        then None else Some "Invalid password"
    | None => Some "InvalidCharacterError"
    end.
Proof.
  intros Hfound. unfold signIn. cbn [setIsLoading db].
  destruct (getUserByEmail_users email (db s)) as (d1 & -> & _).
  rewrite Hfound. cbn [setDb db]. rewrite hashPassword_units_spec.
  destruct (Js.latin1 password) as [p|]; [|done].
  destruct (User.password found) as [q|].
  - destruct (String.eqb_spec q (hashPassword p)) as [->|Hne].
    + by rewrite decide_True.
    + rewrite decide_False; [done|]. by intros [= ->].
  - by rewrite decide_False.
Qed.

(** X25. Signing up with an e-mail address no user has succeeds when
    every code unit of the password is below 256, and keeps the new
    profile, without the password, in the state and in [localStorage]; a
    later sign-in with that address succeeds with the password given at
    sign-up and with no other. With a code unit above 255 in the password
    [btoa] throws: the sign-up fails with that error, adds no user and
    leaves the state and the session as they were. *)
Theorem signUp_signIn now now' uuid (email username : string)
    (password attempt : list N) s :
  (forall u, u ∈ LocalDb.users (db s) -> User.email u <> email) ->
  let profile := {| User.id := uuid; User.email := email;
                    User.username := username; User.password := None;
                    User.created_at := now; User.last_login := now |} in
  let after := (signUp true now uuid email password username s).2 in
  (is_Some (Js.latin1 password) ->
   (signUp true now uuid email password username s).1 = None /\
   user after = Some profile /\ movieInsightsUser after = Some profile /\
   isLoading after = false /\
   (signIn true now' email attempt after).1
   = if decide (attempt = password) then None
     else match Js.latin1 attempt with
          | Some _ => Some "Invalid password"
          | None => Some "InvalidCharacterError"
          end) /\
  (Js.latin1 password = None ->
   (signUp true now uuid email password username s).1
   = Some "InvalidCharacterError" /\
   LocalDb.users (db after) = LocalDb.users (db s) /\
   user after = user s /\ movieInsightsUser after = movieInsightsUser s /\
   isLoading after = false).
Proof.
  intros Hfresh. cbv zeta. split.
  - intros [p Hp].
    destruct (signUp_fresh now uuid email username p password s Hfresh Hp)
      as (d & -> & Hu & _).
    cbn [fst snd user movieInsightsUser isLoading]. repeat split.
    rewrite (signIn_found now' email attempt _
               {| User.id := uuid; User.email := email;
                  User.username := username;
                  User.password := Some (hashPassword p);
                  User.created_at := now; User.last_login := now |}).
    + cbn [User.password].
      destruct (decide (attempt = password)) as [->|Hne].
      * rewrite Hp. by rewrite decide_True.
      * destruct (Js.latin1 attempt) as [q|] eqn:Hq; [|done].
        rewrite decide_False; [done|]. intros [= Heq%hashPassword_inj].
        subst q. apply latin1_inv in Hp, Hq. congruence.
    + cbn [db]. rewrite Hu, find_snoc. cbn [User.email].
      rewrite String.eqb_refl.
      assert (List.find (fun user => String.eqb (User.email user) email)
                        (LocalDb.users (db s)) = None) as ->; [|done].
      apply find_none_iff. intros u Hin. by apply String.eqb_neq, Hfresh.
  - intros Hp.
    destruct (signUp_unencodable now uuid email username password s
                Hfresh Hp) as (d & -> & Hu).
    by cbn [fst snd user movieInsightsUser isLoading db].
Qed.

(** X26. Signing up with an e-mail address that a user already
    has fails with "User with this email already exists" and adds no user;
    the state and the session stay as they were. *)
Theorem signUp_taken now uuid (email username : string) (password : list N)
    s (earlier : User.t) :
  earlier ∈ LocalDb.users (db s) -> User.email earlier = email ->
  let after := (signUp true now uuid email password username s).2 in
  (signUp true now uuid email password username s).1
  = Some "User with this email already exists" /\
  LocalDb.users (db after) = LocalDb.users (db s) /\
  user after = user s /\ movieInsightsUser after = movieInsightsUser s /\
  isLoading after = false.
Proof.
  intros Hin Hemail. cbv zeta. unfold signUp. cbn [setIsLoading db].
  destruct (getUserByEmail_users email (db s)) as (d1 & -> & Hu & _).
  destruct (List.find _ (LocalDb.users (db s))) as [x|] eqn:Hfind.
  - done.
  - exfalso. rewrite find_none_iff in Hfind. specialize (Hfind _ Hin).
    cbv beta in Hfind. by rewrite Hemail, String.eqb_refl in Hfind.
Qed.

(** X27. Signing in with an e-mail address no user has fails
    with "No account found with this email. Please register." and changes
    neither the users nor the state and the session. *)
Theorem signIn_unknown now (email : string) (password : list N) s :
  (forall u, u ∈ LocalDb.users (db s) -> User.email u <> email) ->
  let after := (signIn true now email password s).2 in
  (signIn true now email password s).1
  = Some "No account found with this email. Please register." /\
  LocalDb.users (db after) = LocalDb.users (db s) /\
  user after = user s /\ movieInsightsUser after = movieInsightsUser s /\
  isLoading after = false.
Proof.
  intros Hnone. cbv zeta. unfold signIn. cbn [setIsLoading db].
  destruct (getUserByEmail_users email (db s)) as (d1 & -> & Hu & _).
  assert (List.find (fun user => String.eqb (User.email user) email)
                    (LocalDb.users (db s)) = None) as ->; [|done].
  apply find_none_iff. intros u Hin. by apply String.eqb_neq, Hnone.
Qed.

(** X28. Neither [signUp] nor [signIn] ever puts a password
    into the React state or into the session kept in [localStorage]. *)
Theorem auth_noPassword window now uuid (email username : string)
    (password : list N) s :
  noPassword s ->
  noPassword (signUp window now uuid email password username s).2 /\
  noPassword (signIn window now email password s).2.
Proof.
  intros [Huser Hsession]. split.
  - unfold signUp. cbn [setIsLoading db].
    destruct (LocalDb.getUserByEmail window email (db s)) as [[x|] d1];
      [done|].
    cbn [setDb db]. destruct (hashPassword_units password); [|done].
    destruct (LocalDb.createUser window now uuid email username _ d1)
      as [[newUser|message] d2]; [|done].
    split; intros u [= <-]; done.
  - unfold signIn. cbn [setIsLoading db].
    destruct (LocalDb.getUserByEmail window email (db s)) as [[x|] d1];
      [|done].
    destruct (hashPassword_units password); [|done].
    destruct (negb _); [done|]. split; intros u [= <-]; done.
Qed.

End AuthFacts.

(** ** The properties at work *)

Lemma parseUserQuery_letterless_witness :
  parseUserQuery " 1917 " = {[ "movie_name" := Js.trim " 1917 " ]}.
Proof.
  exact (parseUserQuery_letterless " 1917 " eq_refl ltac:(discriminate)).
Defined.

Lemma parseUserQuery_keys_trimmed_witness :
  "actors" ∈ ["genre"; "movie_name"; "director_name"; "actors";
              "release_year"; "country"; "language"; "plot_keyword"]
  /\ Js.trim "Tom Hanks" = "Tom Hanks".
Proof.
  apply (parseUserQuery_keys_trimmed "actor Tom Hanks"). by vm_compute.
Defined.

Lemma parseUserQuery_value_chars_witness :
  ("release_year" = "release_year" ->
   String.length "1999" = 4%nat /\ all_chars is_digit "1999" = true) /\
  ("release_year" ∈ ["director_name"; "actors"; "country"; "language";
                     "plot_keyword"] ->
   all_chars alpha_space "1999" = true).
Proof.
  apply (parseUserQuery_value_chars "from 1999"). by vm_compute.
Defined.

Lemma searchMovies_letter_case_witness :
  searchMovies [heat; big; up] "ACTOR Tom Hanks"
  = searchMovies [heat; big; up] "actor tom hanks".
Proof. apply searchMovies_letter_case. by vm_compute. Defined.

Lemma filterMovies_case_insensitive_witness :
  filterMovies [heat; big; up] {[ "genre" := "DRAMA" ]}
  = filterMovies [heat; big; up] {[ "genre" := "drama" ]}.
Proof.
  apply filterMovies_case_insensitive. by rewrite !map_fmap_singleton.
Defined.

Lemma searchMovies_filterMovies_witness :
  searchMovies [matrix_reloaded; heat; matrix] " Matrix"
  ≡ₚ filterMovies [matrix_reloaded; heat; matrix] (parseUserQuery " Matrix")
  /\
  (is_Some (parseUserQuery " Matrix" !! "actors") \/
   parseUserQuery " Matrix" !! "movie_name" = None ->
   searchMovies [matrix_reloaded; heat; matrix] " Matrix"
   = filterMovies [matrix_reloaded; heat; matrix]
                  (parseUserQuery " Matrix")).
Proof.
  apply searchMovies_filterMovies.
  intros movie Hin. unfold equals_ci.
  repeat (apply elem_of_cons in Hin as [->|Hin]; [discriminate|]).
  by apply elem_of_nil in Hin.
Defined.

Lemma searchMovies_blank_witness :
  searchMovies [heat; big; up] "  " = [heat; big; up].
Proof.
  apply searchMovies_blank; [reflexivity|].
  intros movie Hin. unfold equals_ci.
  repeat (apply elem_of_cons in Hin as [->|Hin]; [discriminate|]).
  by apply elem_of_nil in Hin.
Defined.

Lemma filterMovies_narrows_witness :
  sublist (filterMovies [heat; big; up]
             (<["actors" := "hanks"]> {[ "genre" := "drama" ]}))
          (filterMovies [heat; big; up] {[ "genre" := "drama" ]}) /\
  sublist (filterMovies [heat; big; up] {[ "genre" := "drama" ]})
          [heat; big; up] /\
  filterMovies [heat; big; up] ∅ = [heat; big; up].
Proof.
  apply filterMovies_narrows. by apply insert_subseteq.
Defined.

Lemma signUp_signIn_witness :
  (is_Some (Js.latin1 (Js.units "hunter2")) ->
   (Auth.signUp true "2024-05-01T10:00:00.000Z" "u2" "bob@example.com"
                (Js.units "hunter2") "bob" (signedOut [alice])).1 = None /\
   Auth.user (Auth.signUp true "2024-05-01T10:00:00.000Z" "u2"
                "bob@example.com" (Js.units "hunter2") "bob"
                (signedOut [alice])).2
   = Some {| User.id := "u2"; User.email := "bob@example.com";
             User.username := "bob"; User.password := None;
             User.created_at := "2024-05-01T10:00:00.000Z";
             User.last_login := "2024-05-01T10:00:00.000Z" |} /\
   Auth.movieInsightsUser
     (Auth.signUp true "2024-05-01T10:00:00.000Z" "u2" "bob@example.com"
                  (Js.units "hunter2") "bob" (signedOut [alice])).2
   = Some {| User.id := "u2"; User.email := "bob@example.com";
             User.username := "bob"; User.password := None;
             User.created_at := "2024-05-01T10:00:00.000Z";
             User.last_login := "2024-05-01T10:00:00.000Z" |} /\
   Auth.isLoading
     (Auth.signUp true "2024-05-01T10:00:00.000Z" "u2" "bob@example.com"
                  (Js.units "hunter2") "bob" (signedOut [alice])).2 = false /\
   (Auth.signIn true "2024-05-02T10:00:00.000Z" "bob@example.com"
      (Js.units "hunter3")
      (Auth.signUp true "2024-05-01T10:00:00.000Z" "u2" "bob@example.com"
                   (Js.units "hunter2") "bob" (signedOut [alice])).2).1
   = if decide (Js.units "hunter3" = Js.units "hunter2") then None
     else match Js.latin1 (Js.units "hunter3") with
          | Some _ => Some "Invalid password"
          | None => Some "InvalidCharacterError"
          end) /\
  (Js.latin1 (Js.units "hunter2") = None ->
   (Auth.signUp true "2024-05-01T10:00:00.000Z" "u2" "bob@example.com"
                (Js.units "hunter2") "bob" (signedOut [alice])).1
   = Some "InvalidCharacterError" /\
   LocalDb.users
     (Auth.db (Auth.signUp true "2024-05-01T10:00:00.000Z" "u2"
                 "bob@example.com" (Js.units "hunter2") "bob"
                 (signedOut [alice])).2)
   = LocalDb.users (Auth.db (signedOut [alice])) /\
   Auth.user (Auth.signUp true "2024-05-01T10:00:00.000Z" "u2"
                "bob@example.com" (Js.units "hunter2") "bob"
                (signedOut [alice])).2
   = Auth.user (signedOut [alice]) /\
   Auth.movieInsightsUser
     (Auth.signUp true "2024-05-01T10:00:00.000Z" "u2" "bob@example.com"
                  (Js.units "hunter2") "bob" (signedOut [alice])).2
   = Auth.movieInsightsUser (signedOut [alice]) /\
   Auth.isLoading
     (Auth.signUp true "2024-05-01T10:00:00.000Z" "u2" "bob@example.com"
                  (Js.units "hunter2") "bob" (signedOut [alice])).2 = false).
Proof.
  apply (signUp_signIn "2024-05-01T10:00:00.000Z" "2024-05-02T10:00:00.000Z"
           "u2" "bob@example.com" "bob" (Js.units "hunter2")
           (Js.units "hunter3") (signedOut [alice])).
  intros u Hin. apply list_elem_of_singleton in Hin as ->. discriminate.
Defined.

Lemma signUp_taken_witness :
  (Auth.signUp true "2024-05-01T10:00:00.000Z" "u2" "alice@example.com"
               (Js.units "hunter2") "al" (signedOut [alice])).1
  = Some "User with this email already exists" /\
  LocalDb.users
    (Auth.db (Auth.signUp true "2024-05-01T10:00:00.000Z" "u2"
                "alice@example.com" (Js.units "hunter2") "al"
                (signedOut [alice])).2)
  = LocalDb.users (Auth.db (signedOut [alice])) /\
  Auth.user (Auth.signUp true "2024-05-01T10:00:00.000Z" "u2"
               "alice@example.com" (Js.units "hunter2") "al"
               (signedOut [alice])).2
  = Auth.user (signedOut [alice]) /\
  Auth.movieInsightsUser
    (Auth.signUp true "2024-05-01T10:00:00.000Z" "u2" "alice@example.com"
                 (Js.units "hunter2") "al" (signedOut [alice])).2
  = Auth.movieInsightsUser (signedOut [alice]) /\
  Auth.isLoading
    (Auth.signUp true "2024-05-01T10:00:00.000Z" "u2" "alice@example.com"
                 (Js.units "hunter2") "al" (signedOut [alice])).2 = false.
Proof.
  apply (signUp_taken "2024-05-01T10:00:00.000Z" "u2" "alice@example.com"
           "al" (Js.units "hunter2") (signedOut [alice]) alice);
    [apply list_elem_of_here|reflexivity].
Defined.

Lemma signIn_unknown_witness :
  (Auth.signIn true "2024-05-01T10:00:00.000Z" "bob@example.com"
               (Js.units "hunter2") (signedOut [alice])).1
  = Some "No account found with this email. Please register." /\
  LocalDb.users
    (Auth.db (Auth.signIn true "2024-05-01T10:00:00.000Z" "bob@example.com"
                (Js.units "hunter2") (signedOut [alice])).2)
  = LocalDb.users (Auth.db (signedOut [alice])) /\
  Auth.user (Auth.signIn true "2024-05-01T10:00:00.000Z" "bob@example.com"
               (Js.units "hunter2") (signedOut [alice])).2
  = Auth.user (signedOut [alice]) /\
  Auth.movieInsightsUser
    (Auth.signIn true "2024-05-01T10:00:00.000Z" "bob@example.com"
                 (Js.units "hunter2") (signedOut [alice])).2
  = Auth.movieInsightsUser (signedOut [alice]) /\
  Auth.isLoading
    (Auth.signIn true "2024-05-01T10:00:00.000Z" "bob@example.com"
                 (Js.units "hunter2") (signedOut [alice])).2 = false.
Proof.
  apply (signIn_unknown "2024-05-01T10:00:00.000Z" "bob@example.com"
           (Js.units "hunter2") (signedOut [alice])).
  intros u Hin. apply list_elem_of_singleton in Hin as ->. discriminate.
Defined.

Lemma auth_noPassword_witness :
  Auth.noPassword
    (Auth.signUp true "2024-05-01T10:00:00.000Z" "u2" "bob@example.com"
                 (Js.units "hunter2") "bob" (signedOut [alice])).2 /\
  Auth.noPassword
    (Auth.signIn true "2024-05-01T10:00:00.000Z" "alice@example.com"
                 (Js.units "password") (signedOut [alice])).2.
Proof.
  destruct (auth_noPassword true "2024-05-01T10:00:00.000Z" "u2"
              "bob@example.com" "bob" (Js.units "hunter2")
              (signedOut [alice]))
    as [Hup _]; [by split|].
  destruct (auth_noPassword true "2024-05-01T10:00:00.000Z" "u2"
              "alice@example.com" "bob" (Js.units "password")
              (signedOut [alice]))
    as [_ Hin]; [by split|].
  exact (conj Hup Hin).
Defined.

(** A rating that JSON has no token for is returned as given and read
    back as [null]; a number of stars is read back as it is. *)
Example addReview_NaN :
  let st := {| LocalDb.movie_insights_users := None;
               LocalDb.movie_insights_favorites := None;
               LocalDb.movie_insights_reviews := None |} in
  let added (rating : stars) :=
    LocalDb.addReview true "2024-05-01T10:00:00.000Z" "r1" "u1" "m1" rating
                      "fine" st in
  Review.rating <$> (LocalDb.getReviewsByUser true "u1" (added NaN).2).1
  = [None] /\
  (exists review, (added NaN).1 = Returned review
                  /\ Review.rating review = Some NaN) /\
  Review.rating <$> (LocalDb.getReviewsByUser true "u1" (added (Stars 4)).2).1
  = [Some (Stars 4)].
Proof. cbv zeta. split; [done|]. split; [by eexists|done]. Qed.

(** A password with the euro sign, code unit 8364, cannot be encoded:
    the sign-up fails and no user is added. *)
Example signUp_euro :
  let result :=
    Auth.signUp true "2024-05-01T10:00:00.000Z" "u2" "bob@example.com"
                [8364%N] "bob" (signedOut [alice]) in
  result.1 = Some "InvalidCharacterError" /\
  LocalDb.users (Auth.db result.2) = [alice].
Proof. by vm_compute. Qed.

(** Alice's stored password is the encoding of "password", and she can
    sign in with it. *)
Example alice_signs_in :
  Auth.hashPassword "password" = "cGFzc3dvcmRzYWx0" /\
  (Auth.signIn true "2024-05-01T10:00:00.000Z" "alice@example.com"
               (Js.units "password") (signedOut [alice])).1 = None /\
  (Auth.signIn true "2024-05-01T10:00:00.000Z" "alice@example.com"
               (Js.units "Password") (signedOut [alice])).1
  = Some "Invalid password".
Proof. by vm_compute. Qed.
